(** * Turtle population engine: temperature-dependent sex ratio

    A shallow embedding of [streamlit_app.py]: the module constants,
    [get_female_ratio], [logistic_growth], [simulate_population] and the data
    that [animate_scenario] hands to the plot.  Python integers are [Z];
    Python and NumPy floats are IEEE 754 binary64 values ([spec_float] with
    the operations of [SpecFloat] at precision 53); exceptions are an error
    monad. *)

From Stdlib Require Import ZArith List Bool Lia Reals Lra SpecFloat.
From Stdlib Require String.
Import ListNotations.
Import String.StringSyntax.
Delimit Scope string_scope with string.
Local Open Scope Z_scope.

(** ** Exceptions *)

Inductive exn := ValueError | OverflowError | ZeroDivisionError | IndexError.

Inductive result (A : Type) : Type :=
| Ok (a : A)
| Raise (e : exn).
Arguments Ok {A} a.
Arguments Raise {A} e.

Definition bind {A B} (r : result A) (k : A -> result B) : result B :=
  match r with
  | Ok a => k a
  | Raise e => Raise e
  end.

Notation "x <- c ;; k" := (bind c (fun x => k))
  (at level 61, c at next level, right associativity).
Notation "' p <- c ;; k" := (bind c (fun x => let p := x in k))
  (at level 61, p pattern, c at next level, right associativity).

(** ** binary64 arithmetic *)

Module B64.

Definition prec : Z := 53.
Definition emax : Z := 1024.
Definition emin : Z := SpecFloat.emin prec emax.
Definition fexp : Z -> Z := SpecFloat.fexp prec emax.

Definition float := spec_float.

Definition add : float -> float -> float := SFadd prec emax.
Definition sub : float -> float -> float := SFsub prec emax.
Definition mul : float -> float -> float := SFmul prec emax.
Definition div : float -> float -> float := SFdiv prec emax.
Definition opp : float -> float := SFopp.

(** The float nearest to an integer (ties to even), infinite past the
    largest finite float. *)
Definition of_Z (n : Z) : float := binary_normalize prec emax n 0 false.

(** A decimal literal [n/d], correctly rounded: both operands are exact
    floats and [div] rounds the exact quotient once. *)
Definition decimal (n d : Z) : float := div (of_Z n) (of_Z d).

End B64.

Import B64.

Declare Scope float_scope.
Delimit Scope float_scope with fl.
Infix "+" := add : float_scope.
Infix "-" := sub : float_scope.
Infix "*" := mul : float_scope.
Infix "/" := div : float_scope.
Notation "- x" := (opp x) : float_scope.

(** ** Python numeric conversions *)

(** [float(n)], as in [n * x] with [x] a float: rounds to nearest, and raises
    when [n] is beyond the finite floats. *)
Definition float_of_int (n : Z) : result float :=
  match of_Z n with
  | S754_infinity _ => Raise OverflowError
  | x => Ok x
  end.

(** [int(x)]: truncation toward zero; [nan] and the infinities raise. *)
Definition int_of_float (x : float) : result Z :=
  match x with
  | S754_nan => Raise ValueError
  | S754_infinity _ => Raise OverflowError
  | S754_zero _ => Ok 0
  | S754_finite s m e => Ok (cond_Zopp s (Z.shiftl (Zpos m) e))
  end.

(** [a / b] on integers: the correctly rounded quotient. *)
Definition int_truediv (a b : Z) : result float :=
  if b =? 0 then Raise ZeroDivisionError
  else if a =? 0 then Ok (S754_zero (b <? 0))
  else
    let '(q, e, l) := SFdiv_core_binary prec emax (Z.abs a) 0 (Z.abs b) 0 in
    match binary_round_aux prec emax (xorb (a <? 0) (b <? 0)) q e l with
    | S754_infinity _ => Raise OverflowError
    | x => Ok x
    end.

(** [n * x] with [n] an integer and [x] a float. *)
Definition int_mul_float (n : Z) (x : float) : result float :=
  f <- float_of_int n ;; Ok (f * x)%fl.

(** [int(n * x)]. *)
Definition int_of_product (n : Z) (x : float) : result Z :=
  y <- int_mul_float n x ;; int_of_float y.

(** [l[i]] on a list: a negative index counts from the end. *)
Definition getitem (l : list Z) (i : Z) : result Z :=
  let n := Z.of_nat (length l) in
  let j := if i <? 0 then i + n else i in
  if (j <? 0) || (n <=? j) then Raise IndexError
  else Ok (nth (Z.to_nat j) l 0).

(** ** Module constants (lines 10-29) *)

Definition initial_population : Z := 500.
Definition carrying_capacity : Z := 2000.
Definition generations : Z := 100.
Definition optimal_temperature : Z := 29.
Definition maturity_age : Z := 4.
Definition hatchling_survival_rate : float := decimal 8 10.
Definition adult_mortality_rate : float := decimal 1 10.
Definition female_mortality_rate : float := decimal 5 100.
Definition male_mortality_rate_warm : float := decimal 2 10.
Definition max_females_per_male : Z := 10.
Definition average_eggs_per_female : Z := 100.

Definition initial_males : Z := initial_population / 2.
Definition initial_females : Z := initial_population / 2.

(** ** The engine *)

(** The local variables of [simulate_population] that the loop updates. *)
Record state := {
  males : Z;
  females : Z;
  male_counts : list Z;
  female_counts : list Z;
  total_population : list Z
}.

(** Lines 51-52. *)
Definition initial_state : state :=
  {| males := initial_males;
     females := initial_females;
     male_counts := [initial_males];
     female_counts := [initial_females];
     total_population := [initial_males + initial_females] |}.

(** Line 61: the lagged lookup. *)
Definition mature_females_of (female_counts : list Z) (females : Z) : result Z :=
  if maturity_age <=? Z.of_nat (length female_counts)
  then getitem female_counts (- maturity_age)
  else Ok females.

(** Lines 64-72: pairs, eggs, survivors and the sex split. *)
Definition reproduction (mature_females males : Z) (female_ratio male_ratio : float)
  : result (Z * Z) :=
  let reproducing_pairs := Z.min mature_females males in
  let potential_offspring := reproducing_pairs * average_eggs_per_female in
  surviving_offspring <- int_of_product potential_offspring hatchling_survival_rate ;;
  new_males <- int_of_product surviving_offspring male_ratio ;;
  new_females <- int_of_product surviving_offspring female_ratio ;;
  Ok (new_males, new_females).

(** Lines 75-78: the collapse guard. *)
Definition collapse_guard (males new_males new_females females : Z)
  : result (Z * Z * Z) :=
  if males <=? 5 then
    let new_males := Z.max 0 (new_males / 2) in
    let new_females := Z.max 0 (new_females / 2) in
    females <- int_of_product females (decimal 85 100) ;;
    Ok (new_males, new_females, females)
  else Ok (new_males, new_females, females).

(** Lines 81-85: mortality. *)
Definition mortality (cooling : bool) (males females : Z) : result (Z * Z) :=
  males <-
    int_of_product males
      (of_Z 1 - (if negb cooling then male_mortality_rate_warm
                 else adult_mortality_rate))%fl ;;
  females <- int_of_product females (of_Z 1 - adult_mortality_rate)%fl ;;
  females <-
    (if cooling
     then int_of_product females (of_Z 1 - female_mortality_rate)%fl
     else Ok females) ;;
  Ok (males, females).

(** Lines 88-89: the newborns join the survivors. *)
Definition add_newborns (males females new_males new_females : Z) : Z * Z :=
  (males + new_males, females + new_females).

(** Lines 92-93: no males, no females. *)
Definition extinction_rule (males females : Z) : Z * Z :=
  if males =? 0 then (males, 0) else (males, females).

(** Lines 96-100: the carrying capacity. *)
Definition capacity_constraint (males females : Z) : result (Z * Z) :=
  let total := males + females in
  if carrying_capacity <? total then
    scale <- int_truediv carrying_capacity total ;;
    females <- int_of_product females scale ;;
    males <- int_of_product males scale ;;
    Ok (males, females)
  else Ok (males, females).

(** Lines 46-48: [population * (1 - population / carrying_capacity)], for an
    integer population. *)
Definition logistic_growth (population : Z) : result float :=
  q <- int_truediv population carrying_capacity ;;
  int_mul_float population (of_Z 1 - q)%fl.

Section Engine.

(** [np.exp] on a binary64 scalar. *)
Variable np_exp : float -> float.

(** Lines 31-43. *)
Definition get_female_ratio (temp pivotal_temp transition : float) : float :=
  (of_Z 1 / (of_Z 1 + np_exp (- transition * (temp - pivotal_temp))))%fl.

(** Lines 58-106: one pass through the loop body. *)
Definition loop_body (cooling : bool) (temp : float) (st : state) : result state :=
  let female_ratio := get_female_ratio temp (of_Z 29) (decimal 5 10) in
  let male_ratio := (of_Z 1 - female_ratio)%fl in
  mature_females <- mature_females_of (female_counts st) (females st) ;;
  '(new_males, new_females) <-
    reproduction mature_females (males st) female_ratio male_ratio ;;
  '(new_males, new_females, females0) <-
    collapse_guard (males st) new_males new_females (females st) ;;
  '(males1, females1) <- mortality cooling (males st) females0 ;;
  let '(males2, females2) := add_newborns males1 females1 new_males new_females in
  let '(males3, females3) := extinction_rule males2 females2 in
  '(males4, females4) <- capacity_constraint males3 females3 ;;
  Ok {| males := males4;
        females := females4;
        male_counts := male_counts st ++ [males4];
        female_counts := female_counts st ++ [females4];
        total_population := total_population st ++ [males4 + females4] |}.

(** Lines 54-56: the loop over [temp_range], with its [break]. *)
Fixpoint loop (cooling : bool) (temp_range : list float) (st : state) : result state :=
  match temp_range with
  | [] => Ok st
  | temp :: rest =>
      if (males st <? 1) || (females st <? 1) then Ok st
      else st' <- loop_body cooling temp st ;; loop cooling rest st'
  end.

(** Lines 50-108. *)
Definition simulate_population (temp_range : list float) (cooling : bool)
  : result (list float * list Z * list Z * list Z) :=
  st <- loop cooling temp_range initial_state ;;
  Ok (firstn (length (male_counts st)) temp_range,
      male_counts st, female_counts st, total_population st).

End Engine.

(** ** Temperature schedules (lines 114-115)

    [np.arange(start, stop, step)] on floats.  The length is
    [ceil((stop - start) / step)], the quotient being Python's: a zero step
    raises [ZeroDivisionError].  A quotient that is not a number, or whose
    ceiling is outside the range of a signed 64-bit integer, raises
    [ValueError].  When the quotient is zero though the difference is not,
    the length is 0 for a negative zero and 1 otherwise.  No value is
    produced for a length that is not positive; the first value is [start],
    the second [start + step], and value [i] from the third on is
    [start + i * delta] with [delta = (start + step) - start].  The limits
    on the size of an array are left out. *)

(** Python's [x / y] on floats. *)
Definition float_truediv (x y : float) : result float :=
  match y with
  | S754_zero _ => Raise ZeroDivisionError
  | _ => Ok (x / y)%fl
  end.

Definition ceil_of_float (x : float) : result Z :=
  match x with
  | S754_nan => Raise ValueError
  | S754_infinity _ => Raise ValueError
  | S754_zero _ => Ok 0
  | S754_finite s m e =>
      let c := - Z.shiftl (cond_Zopp (negb s) (Zpos m)) e in
      if (c <? - 2 ^ 63) || (2 ^ 63 <? c) then Raise ValueError else Ok c
  end.

Definition is_zero (x : float) : bool :=
  match x with
  | S754_zero _ => true
  | _ => false
  end.

Definition signbit (x : float) : bool :=
  match x with
  | S754_zero s | S754_infinity s | S754_finite s _ _ => s
  | S754_nan => false
  end.

Definition arange_length (start stop step : float) : result Z :=
  let next := (stop - start)%fl in
  val <- float_truediv next step ;;
  len <- ceil_of_float val ;;
  Ok (if is_zero val && negb (is_zero next)
      then (if signbit val then 0 else 1)
      else len).

Definition np_arange (start stop step : float) : result (list float) :=
  len <- arange_length start stop step ;;
  let next := (start + step)%fl in
  let delta := (next - start)%fl in
  Ok (map (fun i => match i with
                    | O => start
                    | S O => next
                    | _ => (start + of_Z (Z.of_nat i) * delta)%fl
                    end) (seq 0 (Z.to_nat len))).

Definition warming_temps : result (list float) :=
  np_arange (of_Z 29) (of_Z 35) (decimal 1 10).

Definition cooling_temps : result (list float) :=
  np_arange (of_Z 29) (of_Z 24) (decimal (-1) 10).

(** ** A reference exponential

    [np.exp] is NumPy's; the engine's theorems take it as a parameter and ask
    of it only what they state.  [exp_ref] is one exponential that meets
    those hypotheses, used to run the theorems on concrete schedules: it
    evaluates [e^x] in fixed point with 192 fractional bits and rounds the
    result once to binary64.  It is not NumPy's function bit for bit: the two
    can differ in the last place. *)

Module ExpRef.

Definition fbits : Z := 192.

(** [atanh(1/3) = sum 1 / ((2k+1) 3^(2k+1))], scaled by [2^fbits]. *)
Fixpoint atanh_third (fuel : nat) (k : Z) (pow acc : Z) : Z :=
  match fuel with
  | O => acc
  | S fuel' => atanh_third fuel' (k + 1) (pow / 9) (acc + pow / (2 * k + 1))
  end.

(** [ln 2 = 2 atanh(1/3)], scaled by [2^fbits]. *)
Definition ln2 : Z := Eval vm_compute in 2 * atanh_third 70 0 (2 ^ fbits / 3) 0.

(** [sum r^i / i!] for [r] scaled by [2^fbits]. *)
Fixpoint series (fuel : nat) (i : Z) (term acc r : Z) : Z :=
  match fuel with
  | O => acc
  | S fuel' =>
      let term' := term * r / (i * 2 ^ fbits) in
      series fuel' (i + 1) term' (acc + term') r
  end.

Definition exp_fix (r : Z) : Z := series 60 1 (2 ^ fbits) (2 ^ fbits) r.

Definition exp_ref (x : float) : float :=
  match x with
  | S754_nan => S754_nan
  | S754_zero _ => of_Z 1
  | S754_infinity false => x
  | S754_infinity true => S754_zero false
  | S754_finite s m e =>
      if 11 <=? Zpos (digits2_pos m) + e
      then (if s then S754_zero false else S754_infinity false)
      else
        let x' := cond_Zopp s (Z.shiftl (Zpos m) (e + fbits)) in
        let k := x' / ln2 in
        let r := x' mod ln2 in
        binary_normalize prec emax (exp_fix r) (k - fbits) false
  end.

End ExpRef.

Import ExpRef.

(** ** Values and rounding

    What a float denotes, and what it means for a float to be a real number
    rounded to nearest; used to reason about the float operations above. *)

Definition pow2 (e : Z) : R := powerRZ 2 e.

(** The real denoted by mantissa [m] and exponent [e]. *)
Definition F2R (m e : Z) : R := (IZR m * pow2 e)%R.

(** Where [v] lies in [[m, m+1)], by a round bit and a sticky bit. *)
Definition inbetween (m : Z) (r s : bool) (v : R) : Prop :=
  match r, s with
  | false, false => v = IZR m
  | false, true => (IZR m < v < IZR m + / 2)%R
  | true, false => v = (IZR m + / 2)%R
  | true, true => (IZR m + / 2 < v < IZR m + 1)%R
  end.

Definition inb_rec (mrs : shr_record) (v : R) : Prop :=
  inbetween (shr_m mrs) (shr_r mrs) (shr_s mrs) v.

(** [rounded sx x r]: the float [r], of sign [sx], is the positive real [x]
    rounded to nearest at the exponent [fexp g] of its binade
    [2^(g-1) <= x < 2^g]; it is infinite only for [x] of at least [2^970]. *)
Definition rounded (sx : bool) (x : R) (r : spec_float) : Prop :=
  exists g M : Z,
    (pow2 (g - 1) <= x < pow2 g)%R /\
    0 <= M <= 2 ^ 53 /\
    (IZR M - / 2 <= x * pow2 (- fexp g) <= IZR M + / 2)%R /\
    (forall b : Z, (x * pow2 (- fexp g))%R = IZR b -> M = b) /\
    ((M = 0 /\ r = S754_zero sx) \/
     (0 < M /\ exists m e, r = S754_finite sx m e /\
                           F2R (Zpos m) e = F2R M (fexp g) /\
                           (F2R (Zpos m) e < pow2 emax)%R) \/
     (0 < M /\ r = S754_infinity sx /\ (pow2 970 <= x)%R)).

(** [rounded_even sx x r]: the float [r], of sign [sx], is the positive real
    [x] rounded to nearest, ties to even, at the exponent [fexp g] of its
    binade; it is infinite exactly when the rounded value reaches [2^emax]. *)
Definition rounded_even (sx : bool) (x : R) (r : spec_float) : Prop :=
  exists g M : Z,
    (pow2 (g - 1) <= x < pow2 g)%R /\
    0 <= M <= 2 ^ 53 /\
    (IZR M - / 2 <= x * pow2 (- fexp g) <= IZR M + / 2)%R /\
    (forall k : Z, (x * pow2 (- fexp g))%R = (IZR k + / 2)%R -> Z.even M = true) /\
    ((M = 0 /\ r = S754_zero sx) \/
     (0 < M /\ exists m e, r = S754_finite sx m e /\
                           F2R (Zpos m) e = F2R M (fexp g) /\
                           (F2R M (fexp g) < pow2 emax)%R) \/
     (0 < M /\ r = S754_infinity sx /\ (pow2 emax <= F2R M (fexp g))%R)).

(** The real denoted by a float; 0 for the infinities and for NaN, which
    the order below treats apart. *)
Definition FR (x : float) : R :=
  match x with
  | S754_finite s m e => F2R (cond_Zopp s (Zpos m)) e
  | _ => 0%R
  end.

(** The order [<=] of Python floats: false on NaN, with the infinities at
    the two ends, and the order of the denoted reals otherwise. *)
Definition float_le (x y : float) : Prop :=
  match x, y with
  | S754_nan, _ | _, S754_nan => False
  | S754_infinity true, _ => True
  | _, S754_infinity false => True
  | S754_infinity false, _ => False
  | _, S754_infinity true => False
  | _, _ => (FR x <= FR y)%R
  end.

(** The comparison [x <= y] of two floats, computed from mantissas brought
    to one exponent. *)
Definition Zmant (x : float) : Z :=
  match x with
  | S754_finite s m _ => cond_Zopp s (Zpos m)
  | _ => 0
  end.

Definition Zexp (x : float) : Z :=
  match x with
  | S754_finite _ _ e => e
  | _ => 0
  end.

Definition float_leb (x y : float) : bool :=
  match x, y with
  | S754_nan, _ | _, S754_nan => false
  | S754_infinity true, _ => true
  | _, S754_infinity false => true
  | S754_infinity false, _ => false
  | _, S754_infinity true => false
  | _, _ =>
      Zmant x * 2 ^ (Zexp x - Z.min (Zexp x) (Zexp y)) <=?
      Zmant y * 2 ^ (Zexp y - Z.min (Zexp x) (Zexp y))
  end.

Definition is_finite (x : float) : Prop :=
  match x with
  | S754_zero _ | S754_finite _ _ _ => True
  | _ => False
  end.

(** [srounded v r]: the float [r] is the real [v] rounded to nearest, ties to
    even; a zero of either sign for [v = 0]. *)
Definition srounded (v : R) (r : float) : Prop :=
  (v = 0%R /\ exists s, r = S754_zero s) \/
  ((0 < v)%R /\ rounded_even false v r) \/
  ((v < 0)%R /\ rounded_even true (- v) r).

(** [r] is a finite float, not negative, of value [v]. *)
Definition finite_nonneg (r : spec_float) (v : R) : Prop :=
  (r = S754_zero false /\ v = 0%R) \/
  (exists m e, r = S754_finite false m e /\ F2R (Zpos m) e = v).

(** [r] is a float in the closed unit interval. *)
Definition unit_float (r : float) : Prop :=
  exists v, finite_nonneg r v /\ (0 <= v <= 1)%R.

(** What the theorems ask of [np.exp]: a result that is not a number, or one
    that is not negative. *)
Definition nonneg_float (y : float) : Prop :=
  match y with
  | S754_zero false | S754_finite false _ _ | S754_infinity false => True
  | _ => False
  end.

Definition exp_range (np_exp : float -> float) : Prop :=
  forall x, np_exp x = S754_nan \/ nonneg_float (np_exp x).

(** ** The animation (lines 121-162)

    [animate_scenario] draws with matplotlib.  What it computes from its
    arguments before it renders is kept here: the axis limits, which
    [set_xlim] refuses when they are not finite, the title and line styles,
    and for each frame the data given to the three lines.  Rendering
    ([to_jshtml]) is matplotlib's and is not modelled: a result [Ok a] says
    that the limits were accepted and gives the data handed to the
    animation, not that the drawing succeeds. *)

(** [x < y] on floats. *)
Definition float_ltb (x y : float) : bool :=
  float_leb x y && negb (float_leb y x).

(** Python's [min] and [max] of a sequence: the first item, replaced by each
    later item that is smaller (greater); [ValueError] on an empty one. *)
Definition py_min (l : list float) : result float :=
  match l with
  | [] => Raise ValueError
  | x :: rest =>
      Ok (fold_left (fun m item => if float_ltb item m then item else m) rest x)
  end.

Definition py_max (l : list float) : result float :=
  match l with
  | [] => Raise ValueError
  | x :: rest =>
      Ok (fold_left (fun m item => if float_ltb m item then item else m) rest x)
  end.

(** The data of one frame: for each line the pair given to [set_data]. *)
Record frame_data := {
  line_males : list float * list Z;
  line_females : list float * list Z;
  line_total : list float * list Z
}.

(** Lines 152-157: [update(frame)], with the slices [seq[:frame]]. *)
Definition update (temps : list float) (males females total : list Z)
    (frame : nat) : frame_data :=
  {| line_males := (firstn frame temps, firstn frame males);
     line_females := (firstn frame temps, firstn frame females);
     line_total := (firstn frame temps, firstn frame total) |}.

(** A float that is neither NaN nor infinite. *)
Definition isfinite (x : float) : bool :=
  match x with
  | S754_zero _ | S754_finite _ _ _ => true
  | _ => false
  end.

(** [ax.set_xlim(left, right)]: [ValueError] on a limit that is NaN or
    infinite. *)
Definition set_xlim (left right : float) : result (float * float) :=
  if isfinite left && isfinite right then Ok (left, right) else Raise ValueError.

Record animation := {
  xlim : float * float;
  ylim : Z * Z;
  title : String.string;
  colors : String.string * String.string * String.string;
  frames : list frame_data
}.

(** Lines 121-162: [min(temps)] and [max(temps)] are evaluated and given to
    [set_xlim] before the animation is built, over the frames
    [range(len(temps))]. *)
Definition animate_scenario (temps : list float) (males females total : list Z)
    (title color_male color_female color_total : String.string)
  : result animation :=
  lo <- py_min temps ;;
  hi <- py_max temps ;;
  lim <- set_xlim lo hi ;;
  Ok {| xlim := lim;
        ylim := (0, carrying_capacity + 100);
        title := title;
        colors := (color_male, color_female, color_total);
        frames := map (update temps males females total) (seq 0 (length temps)) |}.

(** ** Predicates on states

    [table_ok f g n]: the computation [f] returns [g] on every count below
    [n]. *)
Definition table_ok (f : Z -> result Z) (g : Z -> Z) (n : nat) : bool :=
  forallb (fun i => match f (Z.of_nat i) with
                    | Ok k => k =? g (Z.of_nat i)
                    | Raise _ => false
                    end) (seq 0 n).

(** A recorded state: counts that are not negative, within the carrying
    capacity, and without females when there are no males. *)
Definition viable (m f : Z) : Prop :=
  0 <= m /\ 0 <= f /\ m + f <= carrying_capacity /\ (m = 0 -> f = 0).

Definition Inv (st : state) : Prop :=
  viable (males st) (females st) /\
  length (female_counts st) = length (male_counts st) /\
  length (total_population st) = length (male_counts st) /\
  Forall (fun p => viable (fst p) (snd p))
    (combine (male_counts st) (female_counts st)).

(** The three count lists grow together, by one entry per temperature
    consumed; the loop stops short of the schedule only on extinction. *)
Definition synced (st : state) : Prop :=
  length (female_counts st) = length (male_counts st) /\
  length (total_population st) = length (male_counts st) /\
  males st = last (male_counts st) 0 /\
  females st = last (female_counts st) 0.

(** Every recorded state but the last has at least one male and one female:
    nothing is recorded after a state without males or without females. *)
Definition alive_before (st : state) : Prop :=
  forall i, (S i < length (male_counts st))%nat ->
    1 <= nth i (male_counts st) 0 /\ 1 <= nth i (female_counts st) 0.

(** ** Rounding: the float operations round the exact result *)

Lemma pow2_pos e : (0 < pow2 e)%R.
Proof. apply powerRZ_lt; lra. Qed.

Lemma pow2_add a b : pow2 (a + b) = (pow2 a * pow2 b)%R.
Proof. apply powerRZ_add; lra. Qed.

Lemma pow2_0 : pow2 0 = 1%R.
Proof. reflexivity. Qed.

Lemma pow2_1 : pow2 1 = 2%R.
Proof. unfold pow2; simpl; lra. Qed.

Lemma pow2_m1 : pow2 (-1) = (/ 2)%R.
Proof. unfold pow2; simpl; f_equal; lra. Qed.

Lemma pow2_opp e : (pow2 (- e) * pow2 e = 1)%R.
Proof. rewrite <- pow2_add. replace (- e + e) with 0 by lia. apply pow2_0. Qed.

Lemma pow2_IZR k : 0 <= k -> pow2 k = IZR (2 ^ k).
Proof.
  intros Hk. unfold pow2.
  destruct k as [|p|p]; try lia; [reflexivity|].
  rewrite <- Zpower_pos_powerRZ. reflexivity.
Qed.

Lemma pow2_le a b : a <= b -> (pow2 a <= pow2 b)%R.
Proof.
  intros H. replace b with (a + (b - a)) by lia.
  rewrite pow2_add, (pow2_IZR (b - a)) by lia.
  assert (1 <= 2 ^ (b - a)) by (apply Z.lt_pred_le, Z.pow_pos_nonneg; lia).
  apply IZR_le in H0. pose proof (pow2_pos a). nra.
Qed.

Lemma pow2_lt a b : a < b -> (pow2 a < pow2 b)%R.
Proof.
  intros H. replace b with (a + 1 + (b - a - 1)) by lia.
  rewrite !pow2_add, pow2_1.
  pose proof (pow2_le 0 (b - a - 1) ltac:(lia)) as H1. rewrite pow2_0 in H1.
  pose proof (pow2_pos a). nra.
Qed.

(** *** Digits *)

Lemma digits2_size p : digits2_pos p = Pos.size p.
Proof. induction p; simpl; congruence. Qed.

Lemma Zdigits2_bounds (p : positive) :
  2 ^ (Zdigits2 (Zpos p) - 1) <= Zpos p < 2 ^ Zdigits2 (Zpos p).
Proof.
  unfold Zdigits2. rewrite digits2_size.
  pose proof (Pos.size_gt p) as Hgt. pose proof (Pos.size_le p) as Hle.
  assert (Hgt' : Zpos p < 2 ^ Zpos (Pos.size p)).
  { rewrite <- Pos2Z.inj_pow. lia. }
  assert (Hle' : 2 ^ Zpos (Pos.size p) <= 2 * Zpos p).
  { rewrite <- Pos2Z.inj_pow. lia. }
  split; [|exact Hgt'].
  replace (Zpos (Pos.size p)) with (1 + (Zpos (Pos.size p) - 1)) in Hle' by lia.
  rewrite Z.pow_add_r in Hle' by lia. lia.
Qed.

Lemma Zdigits2_nonneg m : 0 <= Zdigits2 m.
Proof. destruct m; simpl; lia. Qed.

Lemma Zdigits2_lt m : 0 <= m -> m < 2 ^ Zdigits2 m.
Proof.
  destruct m; intros; try lia; [reflexivity|]. apply Zdigits2_bounds.
Qed.

Lemma Zdigits2_le_of_lt m k : 0 <= m -> 0 <= k -> m < 2 ^ k -> Zdigits2 m <= k.
Proof.
  intros Hm Hk H. destruct m as [|p|p]; try lia; [simpl; lia|].
  pose proof (Zdigits2_bounds p) as [Hl _].
  destruct (Z_le_gt_dec (Zdigits2 (Zpos p)) k) as [|Hgt]; [assumption|exfalso].
  assert (2 ^ k <= 2 ^ (Zdigits2 (Zpos p) - 1)) by (apply Z.pow_le_mono_r; lia).
  lia.
Qed.

Lemma IZR_xI p : IZR (Zpos p~1) = (2 * IZR (Zpos p) + 1)%R.
Proof. rewrite Pos2Z.inj_xI, plus_IZR, mult_IZR. reflexivity. Qed.

Lemma IZR_xO p : IZR (Zpos p~0) = (2 * IZR (Zpos p))%R.
Proof. rewrite Pos2Z.inj_xO, mult_IZR. reflexivity. Qed.

Lemma shr_1_spec mrs v :
  0 <= shr_m mrs -> inb_rec mrs v ->
  0 <= shr_m (shr_1 mrs) /\ inb_rec (shr_1 mrs) (v * / 2).
Proof.
  destruct mrs as [m r s]. unfold inb_rec.
  cbn [shr_m shr_r shr_s]. intros Hm H.
  destruct m as [|p|p]; [| |lia].
  - split; [destruct r, s; simpl; lia|].
    destruct r, s; simpl in *; lra.
  - destruct p as [p|p|].
    + split; [destruct r, s; simpl; lia|].
      destruct r, s; cbn [shr_1 shr_m shr_r shr_s orb inbetween] in *;
        rewrite (IZR_xI p) in H;
        revert H; generalize (IZR (Zpos p)); intros a H; lra.
    + split; [destruct r, s; simpl; lia|].
      destruct r, s; cbn [shr_1 shr_m shr_r shr_s orb inbetween] in *;
        rewrite (IZR_xO p) in H;
        revert H; generalize (IZR (Zpos p)); intros a H; lra.
    + split; [destruct r, s; simpl; lia|].
      destruct r, s; cbn [shr_1 shr_m shr_r shr_s orb inbetween] in *; lra.
Qed.

Lemma iter_shr_1_spec n : forall mrs v,
  0 <= shr_m mrs -> inb_rec mrs v ->
  0 <= shr_m (iter_pos shr_1 n mrs) /\
  inb_rec (iter_pos shr_1 n mrs) (v * pow2 (- Zpos n)).
Proof.
  induction n as [n IH|n IH|]; intros mrs v Hm H; simpl iter_pos.
  - destruct (shr_1_spec _ _ Hm H) as [H1 H2].
    destruct (IH _ _ H1 H2) as [H3 H4].
    destruct (IH _ _ H3 H4) as [H5 H6].
    split; [assumption|].
    replace (- Zpos n~1) with (-1 + (- Zpos n + - Zpos n)) by lia.
    rewrite !pow2_add, pow2_m1.
    replace (v * (/ 2 * (pow2 (- Zpos n) * pow2 (- Zpos n))))%R
      with (v * / 2 * pow2 (- Zpos n) * pow2 (- Zpos n))%R by ring.
    assumption.
  - destruct (IH _ _ Hm H) as [H3 H4].
    destruct (IH _ _ H3 H4) as [H5 H6].
    split; [assumption|].
    replace (- Zpos n~0) with (- Zpos n + - Zpos n) by lia.
    rewrite !pow2_add.
    replace (v * (pow2 (- Zpos n) * pow2 (- Zpos n)))%R
      with (v * pow2 (- Zpos n) * pow2 (- Zpos n))%R by ring.
    assumption.
  - change (Z.opp (Zpos xH)) with (Zneg xH). rewrite pow2_m1.
    apply shr_1_spec; assumption.
Qed.

Lemma shr_spec mrs e n v :
  0 <= shr_m mrs -> inb_rec mrs v ->
  snd (shr mrs e n) = e + Z.max n 0 /\
  0 <= shr_m (fst (shr mrs e n)) /\
  inb_rec (fst (shr mrs e n)) (v * pow2 (e - snd (shr mrs e n))).
Proof.
  intros Hm H. destruct n as [|p|p]; simpl.
  - rewrite Z.add_0_r, Z.sub_diag, pow2_0, Rmult_1_r. auto.
  - destruct (iter_shr_1_spec p _ _ Hm H) as [H1 H2].
    split; [reflexivity|]. split; [assumption|].
    replace (e - (e + Zpos p)) with (- Zpos p) by lia. assumption.
  - rewrite Z.add_0_r, Z.sub_diag, pow2_0, Rmult_1_r. auto.
Qed.

(** *** Rounding to nearest, ties to even *)

Lemma IZR_between (a b : Z) : (IZR a < IZR b < IZR a + 1)%R -> False.
Proof.
  intros [H1 H2]. apply lt_IZR in H1.
  rewrite <- (plus_IZR a 1) in H2. apply lt_IZR in H2. lia.
Qed.

Lemma IZR_le_half (a b : Z) : (IZR a - / 2 <= IZR b)%R -> a <= b.
Proof.
  intros H. destruct (Z_le_gt_dec a b) as [|Hgt]; [assumption|exfalso].
  assert (b + 1 <= a) by lia. apply IZR_le in H0. rewrite plus_IZR in H0. lra.
Qed.

Lemma round_nearest_even_spec mrs v :
  0 <= shr_m mrs -> inb_rec mrs v ->
  let M := round_nearest_even (shr_m mrs) (loc_of_shr_record mrs) in
  shr_m mrs <= M <= shr_m mrs + 1 /\
  (IZR M - / 2 <= v <= IZR M + / 2)%R /\
  (forall b : Z, v = IZR b -> M = b) /\
  (IZR (shr_m mrs) <= v < IZR (shr_m mrs) + 1)%R.
Proof.
  destruct mrs as [m r s]. unfold inb_rec. cbn [shr_m shr_r shr_s].
  intros Hm H.
  destruct r, s; cbn [inbetween loc_of_shr_record round_nearest_even] in *.
  - rewrite plus_IZR. repeat split; try lia; try lra.
    intros b Hb. exfalso. apply (IZR_between m b). lra.
  - destruct (Z.even m); [|rewrite plus_IZR]; repeat split; try lia; try lra;
      intros b Hb; exfalso; apply (IZR_between m b); lra.
  - repeat split; try lia; try lra.
    intros b Hb. exfalso. apply (IZR_between m b). lra.
  - repeat split; try lia; try lra.
    intros b Hb. apply eq_IZR. lra.
Qed.

Lemma round_nearest_even_tie mrs v (k : Z) :
  0 <= shr_m mrs -> inb_rec mrs v -> v = (IZR k + / 2)%R ->
  Z.even (round_nearest_even (shr_m mrs) (loc_of_shr_record mrs)) = true.
Proof.
  destruct mrs as [m r s]. unfold inb_rec. cbn [shr_m shr_r shr_s].
  intros Hm H Hk.
  destruct r, s; cbn [inbetween loc_of_shr_record round_nearest_even] in *.
  - exfalso. apply (IZR_between m k). lra.
  - destruct (Z.even m) eqn:Hev; [exact Hev|].
    rewrite Z.add_1_r, Z.even_succ, <- Z.negb_even, Hev. reflexivity.
  - exfalso. apply (IZR_between k m). lra.
  - exfalso. assert (Heq : IZR (2 * m) = IZR (2 * k + 1)).
    { rewrite plus_IZR, !mult_IZR. lra. }
    apply eq_IZR in Heq. lia.
Qed.

Lemma fexp_eq e : fexp e = Z.max (e - 53) (-1074).
Proof. reflexivity. Qed.

Lemma fexp_mono a b : a <= b -> fexp a <= fexp b.
Proof. rewrite !fexp_eq. lia. Qed.

(** The first shift of [binary_round_aux]: the mantissa lands below [2^53]
    at the exponent [E]. *)
Lemma shr_fexp_spec mx ex lx (x : R) :
  0 <= mx ->
  inb_rec (shr_record_of_loc mx lx) (x * pow2 (- ex)) ->
  let E := Z.max ex (fexp (Zdigits2 mx + ex)) in
  let mrs := fst (shr_fexp prec emax mx ex lx) in
  snd (shr_fexp prec emax mx ex lx) = E /\
  0 <= shr_m mrs < 2 ^ 53 /\
  inb_rec mrs (x * pow2 (- E)).
Proof.
  intros Hm H E mrs.
  assert (Hm' : 0 <= shr_m (shr_record_of_loc mx lx)).
  { destruct lx as [|[]]; exact Hm. }
  unfold mrs, shr_fexp.
  destruct (shr_spec (shr_record_of_loc mx lx) ex
              (SpecFloat.fexp prec emax (Zdigits2 mx + ex) - ex) _ Hm' H)
    as (He & Hpos & Hin).
  fold (fexp (Zdigits2 mx + ex)) in *.
  assert (HE : snd (shr (shr_record_of_loc mx lx) ex (fexp (Zdigits2 mx + ex) - ex)) = E)
    by (rewrite He; unfold E; lia).
  rewrite HE in Hin.
  replace (x * pow2 (- ex) * pow2 (ex - E))%R with (x * pow2 (- E))%R in Hin.
  2:{ rewrite Rmult_assoc, <- pow2_add. f_equal. f_equal. lia. }
  split; [exact HE|]. split; [|exact Hin].
  split; [exact Hpos|].
  (* the value is below 2^53 *)
  pose proof (round_nearest_even_spec _ _ Hpos Hin) as (_ & _ & _ & Hv).
  destruct Hv as [Hv _].
  assert (Hx : (x * pow2 (- ex) < IZR (2 ^ Zdigits2 mx))%R).
  { pose proof (round_nearest_even_spec _ _ Hm' H) as (_ & _ & _ & Hb).
    assert (shr_m (shr_record_of_loc mx lx) = mx) by (destruct lx as [|[]]; reflexivity).
    rewrite H0 in Hb.
    pose proof (Zdigits2_lt mx Hm) as Hd.
    assert (mx + 1 <= 2 ^ Zdigits2 mx) by lia.
    apply IZR_le in H1. rewrite plus_IZR in H1. lra. }
  apply lt_IZR.
  rewrite <- pow2_IZR in Hx by apply Zdigits2_nonneg.
  rewrite <- (pow2_IZR 53) by lia.
  assert (Hle : (pow2 (Zdigits2 mx) * pow2 (ex - E) <= pow2 53)%R).
  { rewrite <- pow2_add. apply pow2_le. unfold E. rewrite fexp_eq. lia. }
  assert (Heq : (x * pow2 (- E) = x * pow2 (- ex) * pow2 (ex - E))%R).
  { rewrite Rmult_assoc, <- pow2_add. f_equal. f_equal. lia. }
  pose proof (pow2_pos (ex - E)).
  rewrite Heq in Hv. nra.
Qed.

Lemma second_shift_small sx M E :
  0 < M < 2 ^ 53 -> -1074 <= E ->
  (let '(mrs, e) := shr_fexp prec emax M E loc_Exact in
   match shr_m mrs with
   | Z0 => S754_zero sx
   | Zpos m => if e <=? emax - prec then S754_finite sx m e else S754_infinity sx
   | Zneg _ => S754_nan
   end) =
  match M with
  | Zpos m => if E <=? emax - prec then S754_finite sx m E else S754_infinity sx
  | _ => S754_nan
  end.
Proof.
  intros HM HE. unfold shr_fexp.
  assert (Hd : Zdigits2 M <= 53) by (apply Zdigits2_le_of_lt; lia).
  fold (fexp (Zdigits2 M + E)). rewrite fexp_eq.
  destruct (Z.max (Zdigits2 M + E - 53) (-1074) - E) as [|p|p] eqn:Hn; try lia;
    cbn [shr shr_record_of_loc shr_m]; destruct M; try lia; reflexivity.
Qed.

Lemma second_shift_carry sx E :
  -1074 <= E ->
  (let '(mrs, e) := shr_fexp prec emax (2 ^ 53) E loc_Exact in
   match shr_m mrs with
   | Z0 => S754_zero sx
   | Zpos m => if e <=? emax - prec then S754_finite sx m e else S754_infinity sx
   | Zneg _ => S754_nan
   end) =
  if E + 1 <=? emax - prec then S754_finite sx (2 ^ 52) (E + 1) else S754_infinity sx.
Proof.
  intros HE. unfold shr_fexp.
  fold (fexp (Zdigits2 (2 ^ 53) + E)). rewrite fexp_eq.
  change (Zdigits2 (2 ^ 53)) with 54.
  replace (Z.max (54 + E - 53) (-1074) - E) with 1 by lia.
  reflexivity.
Qed.

Lemma second_shift_zero sx E :
  -1074 <= E ->
  (let '(mrs, e) := shr_fexp prec emax 0 E loc_Exact in
   match shr_m mrs with
   | Z0 => S754_zero sx
   | Zpos m => if e <=? emax - prec then S754_finite sx m e else S754_infinity sx
   | Zneg _ => S754_nan
   end) = S754_zero sx.
Proof.
  intros HE. unfold shr_fexp.
  fold (fexp (Zdigits2 0 + E)). rewrite fexp_eq.
  change (Zdigits2 0) with 0.
  destruct (Z.max (0 + E - 53) (-1074) - E) as [|p|p] eqn:Hn; try lia; reflexivity.
Qed.

(** The value [x], known through [mx], [ex] and the location [lx], is
    rounded to an integer multiple [M * 2^E] of the unit in the last place:
    to the nearest one, and to [x] itself when [x] is such a multiple. *)
Theorem binary_round_aux_spec sx mx ex lx (x : R) :
  0 <= mx ->
  inb_rec (shr_record_of_loc mx lx) (x * pow2 (- ex)) ->
  let E := Z.max ex (fexp (Zdigits2 mx + ex)) in
  let r := binary_round_aux prec emax sx mx ex lx in
  exists M : Z,
    0 <= M <= 2 ^ 53 /\
    (IZR M - / 2 <= x * pow2 (- E) <= IZR M + / 2)%R /\
    (forall b : Z, (x * pow2 (- E))%R = IZR b -> M = b) /\
    (forall k : Z, (x * pow2 (- E))%R = (IZR k + / 2)%R -> Z.even M = true) /\
    ((M = 0 /\ r = S754_zero sx) \/
     (0 < M /\ exists m e, r = S754_finite sx m e /\
                           F2R (Zpos m) e = F2R M E /\
                           (F2R (Zpos m) e < pow2 emax)%R) \/
     (0 < M /\ r = S754_infinity sx /\
      (emax - prec < E \/ (M = 2 ^ 53 /\ emax - prec <= E)))).
Proof.
  intros Hm H E r.
  destruct (shr_fexp_spec mx ex lx x Hm H) as (HE & Hrange & Hin).
  fold E in HE, Hin.
  pose proof (round_nearest_even_spec _ _ (proj1 Hrange) Hin) as (HM & Hnear & Hexact & _).
  set (M := round_nearest_even (shr_m (fst (shr_fexp prec emax mx ex lx)))
              (loc_of_shr_record (fst (shr_fexp prec emax mx ex lx)))) in *.
  assert (HEmin : -1074 <= E) by (unfold E; rewrite fexp_eq; lia).
  assert (Hr : r =
    let '(mrs, e) := shr_fexp prec emax M E loc_Exact in
    match shr_m mrs with
    | Z0 => S754_zero sx
    | Zpos m => if e <=? emax - prec then S754_finite sx m e else S754_infinity sx
    | Zneg _ => S754_nan
    end).
  { unfold r, binary_round_aux, M. rewrite <- HE.
    destruct (shr_fexp prec emax mx ex lx) as [mrs' e']. reflexivity. }
  exists M. split; [lia|]. split; [exact Hnear|]. split; [exact Hexact|].
  split; [intros k Hk; exact (round_nearest_even_tie _ _ k (proj1 Hrange) Hin Hk)|].
  assert (HMc : M = 0 \/ 0 < M < 2 ^ 53 \/ M = 2 ^ 53) by lia.
  destruct HMc as [HM0|[HMs|HMc]].
  - left. split; [exact HM0|]. rewrite Hr, HM0. apply second_shift_zero; exact HEmin.
  - right. rewrite Hr, (second_shift_small sx M E HMs HEmin).
    destruct M as [|m|m]; try lia.
    destruct (E <=? emax - prec) eqn:Hle.
    + left. split; [lia|]. exists m, E. split; [reflexivity|].
      split; [reflexivity|]. apply Z.leb_le in Hle.
      unfold F2R. assert (Zpos m + 1 <= 2 ^ 53) by lia.
      apply IZR_le in H0. rewrite plus_IZR, <- pow2_IZR in H0 by lia.
      pose proof (pow2_le E 971 ltac:(unfold emax, prec in Hle; lia)).
      pose proof (pow2_pos E). pose proof (pow2_pos 53).
      replace emax with (53 + 971) by reflexivity. rewrite pow2_add. nra.
    + right. split; [lia|]. split; [reflexivity|]. apply Z.leb_gt in Hle. left. lia.
  - right. rewrite Hr, HMc, (second_shift_carry sx E HEmin).
    destruct (E + 1 <=? emax - prec) eqn:Hle.
    + left. split; [lia|]. exists (2 ^ 52)%positive, (E + 1). split; [reflexivity|].
      apply Z.leb_le in Hle.
      change (Zpos (2 ^ 52)) with (2 ^ 52). unfold F2R. split.
      * rewrite pow2_add, pow2_1.
        replace (2 ^ 53) with (2 * 2 ^ 52) by reflexivity.
        rewrite mult_IZR. ring.
      * rewrite <- pow2_IZR by lia.
        pose proof (pow2_le (E + 1) 971 ltac:(unfold emax, prec in Hle; lia)).
        pose proof (pow2_pos (E + 1)). pose proof (pow2_pos 52).
        remember (pow2 (E + 1)) as a.
        replace emax with (52 + 971 + 1) by reflexivity.
        rewrite !pow2_add, pow2_1. pose proof (pow2_pos 971). nra.
    + right. split; [lia|]. split; [reflexivity|]. apply Z.leb_gt in Hle. right. lia.
Qed.

Lemma Zdigits2_R (mx : Z) :
  0 < mx ->
  (pow2 (Zdigits2 mx - 1) <= IZR mx /\ IZR mx + 1 <= pow2 (Zdigits2 mx))%R.
Proof.
  intros Hm. destruct mx as [|p|p]; try lia.
  pose proof (Zdigits2_bounds p) as [H1 H2].
  assert (0 < Zdigits2 (Zpos p)) by (simpl; lia).
  rewrite !pow2_IZR by lia. split.
  - apply IZR_le; exact H1.
  - rewrite <- (plus_IZR _ 1). apply IZR_le. lia.
Qed.

Lemma shr_record_of_loc_bounds mx lx v :
  inb_rec (shr_record_of_loc mx lx) v -> (IZR mx <= v < IZR mx + 1)%R.
Proof.
  destruct lx as [|[]]; unfold inb_rec; cbn; lra.
Qed.

Theorem binary_round_aux_rounded sx mx ex lx (x : R) :
  0 < mx ->
  inb_rec (shr_record_of_loc mx lx) (x * pow2 (- ex)) ->
  lx = loc_Exact \/ ex <= fexp (Zdigits2 mx + ex) ->
  rounded sx x (binary_round_aux prec emax sx mx ex lx).
Proof.
  intros Hm H Hcase.
  pose proof (shr_record_of_loc_bounds _ _ _ H) as Hb.
  pose proof (Zdigits2_R mx Hm) as [Hd1 Hd2].
  set (g := Zdigits2 mx + ex).
  assert (Hx : (x = x * pow2 (- ex) * pow2 ex)%R).
  { rewrite Rmult_assoc, pow2_opp. ring. }
  assert (Hg : (pow2 (g - 1) <= x < pow2 g)%R).
  { unfold g. replace (Zdigits2 mx + ex - 1) with (Zdigits2 mx - 1 + ex) by lia.
    rewrite !pow2_add. pose proof (pow2_pos ex).
    remember (x * pow2 (- ex))%R as v. nra. }
  destruct (binary_round_aux_spec sx mx ex lx x ltac:(lia) H)
    as (M & HM & Hnear & Hexact & _ & Hres).
  fold g in Hres, Hnear, Hexact.
  destruct (Z_le_gt_dec ex (fexp g)) as [Hle|Hgt].
  - (* the mantissa is shifted to the canonical exponent *)
    rewrite Z.max_r in Hres, Hnear, Hexact by exact Hle.
    exists g, M. repeat (split; [assumption|]).
    destruct Hres as [Hz|[(HM0 & m & e & Hr & Hv & He)|(HM0 & Hr & HE)]].
    + left; exact Hz.
    + right; left. split; [exact HM0|]. exists m, e. repeat split; assumption.
    + right; right. split; [exact HM0|]. split; [exact Hr|].
      assert (1 <= M) by lia. apply IZR_le in H0.
      assert (Hx' : (x = x * pow2 (- fexp g) * pow2 (fexp g))%R).
      { rewrite Rmult_assoc, pow2_opp. ring. }
      pose proof (pow2_le 971 (fexp g) ltac:(unfold emax, prec in HE; lia)) as Hp.
      replace 971 with (970 + 1) in Hp by lia. rewrite pow2_add, pow2_1 in Hp.
      pose proof (pow2_pos 970). pose proof (pow2_pos (fexp g)).
      rewrite Hx'. nra.
  - (* no shift: the input is already exact *)
    destruct Hcase as [Hlx|Hle]; [|unfold g in Hgt; lia].
    subst lx. rewrite Z.max_l in Hres, Hnear, Hexact by lia.
    assert (Hxm : (x * pow2 (- ex))%R = IZR mx) by exact H.
    assert (HMm : M = mx) by (apply Hexact; exact Hxm).
    set (k := ex - fexp g).
    assert (Hk : 0 <= k) by (unfold k; lia).
    assert (Hxk : (x * pow2 (- fexp g))%R = IZR (mx * 2 ^ k)).
    { rewrite mult_IZR, <- pow2_IZR by exact Hk. rewrite <- Hxm.
      rewrite Rmult_assoc, <- pow2_add. f_equal. f_equal. unfold k. lia. }
    exists g, (mx * 2 ^ k). split; [exact Hg|].
    assert (Hlt : mx * 2 ^ k < 2 ^ 53).
    { pose proof (Zdigits2_lt mx ltac:(lia)) as Hdm.
      assert (2 ^ k <= 2 ^ (53 - Zdigits2 mx)).
      { apply Z.pow_le_mono_r; [lia|]. unfold k, g. rewrite fexp_eq. lia. }
      assert (2 ^ Zdigits2 mx * 2 ^ (53 - Zdigits2 mx) = 2 ^ 53).
      { rewrite <- Z.pow_add_r; [f_equal; lia|apply Zdigits2_nonneg|].
        assert (Zdigits2 mx <= 53); [|lia]. unfold k, g in Hk. rewrite fexp_eq in Hk. lia. }
      assert (0 < 2 ^ k) by (apply Z.pow_pos_nonneg; lia).
      nia. }
    assert (Hpos : 0 < mx * 2 ^ k).
    { assert (0 < 2 ^ k) by (apply Z.pow_pos_nonneg; lia). nia. }
    split; [lia|]. split; [rewrite Hxk; lra|].
    split; [intros b Hb'; apply eq_IZR; rewrite <- Hxk; exact Hb'|].
    assert (Hval : F2R M ex = F2R (mx * 2 ^ k) (fexp g)).
    { unfold F2R. rewrite HMm, mult_IZR, <- pow2_IZR by exact Hk.
      rewrite Rmult_assoc, <- pow2_add. f_equal. f_equal. unfold k. lia. }
    destruct Hres as [[HM0 _]|[(HM0 & m & e & Hr & Hv & He)|(HM0 & Hr & HE)]].
    + lia.
    + right; left. split; [exact Hpos|]. exists m, e. split; [exact Hr|].
      split; [rewrite Hv; exact Hval|exact He].
    + right; right. split; [exact Hpos|]. split; [exact Hr|].
      assert (1 <= mx) by lia. apply IZR_le in H0.
      pose proof (pow2_le 970 ex ltac:(unfold emax, prec in HE; lia)) as Hp.
      pose proof (pow2_pos 970). rewrite Hx, Hxm. nra.
Qed.

Lemma rounded_even_rounded sx x r : rounded_even sx x r -> rounded sx x r.
Proof.
  intros (g & M & Hg & HM & Hnear & Htie & Hres).
  exists g, M. split; [exact Hg|]. split; [exact HM|]. split; [exact Hnear|].
  split.
  - intros b Hb. rewrite Hb in Hnear.
    assert (M <= b) by (apply IZR_le_half; lra).
    assert (b <= M) by (apply IZR_le_half; lra). lia.
  - destruct Hres as [Hz|[(HM0 & m & e & Hr & Hv & Hlt)|(HM0 & Hr & Hbig)]].
    + left; exact Hz.
    + right; left. split; [exact HM0|]. exists m, e. rewrite Hv. auto.
    + right; right. split; [exact HM0|]. split; [exact Hr|].
      assert (HM53 : (IZR M <= pow2 53)%R).
      { rewrite (pow2_IZR 53) by lia. apply IZR_le; lia. }
      assert (HE : 971 <= fexp g).
      { destruct (Z_le_gt_dec 971 (fexp g)) as [|Hgt]; [assumption|exfalso].
        pose proof (pow2_le (53 + fexp g) 1023 ltac:(lia)) as Hp.
        rewrite pow2_add in Hp.
        pose proof (pow2_lt 1023 1024 ltac:(lia)). unfold F2R, emax in Hbig.
        pose proof (pow2_pos (fexp g)).
        assert ((IZR M * pow2 (fexp g) <= pow2 53 * pow2 (fexp g))%R)
          by (apply Rmult_le_compat_r; lra).
        lra. }
      pose proof (pow2_le 970 (g - 1) ltac:(rewrite fexp_eq in HE; lia)). lra.
Qed.

(** Rounding from a mantissa at or below the exponent of its binade: to
    nearest, ties to even, and to an infinity exactly on overflow. *)
Theorem binary_round_aux_rounded_even sx mx ex lx (x : R) :
  0 < mx ->
  inb_rec (shr_record_of_loc mx lx) (x * pow2 (- ex)) ->
  ex <= fexp (Zdigits2 mx + ex) ->
  rounded_even sx x (binary_round_aux prec emax sx mx ex lx).
Proof.
  intros Hm H Hle.
  pose proof (shr_record_of_loc_bounds _ _ _ H) as Hb.
  pose proof (Zdigits2_R mx Hm) as [Hd1 Hd2].
  set (g := Zdigits2 mx + ex) in *.
  assert (Hx : (x = x * pow2 (- ex) * pow2 ex)%R).
  { rewrite Rmult_assoc, pow2_opp. ring. }
  assert (Hg : (pow2 (g - 1) <= x < pow2 g)%R).
  { unfold g. replace (Zdigits2 mx + ex - 1) with (Zdigits2 mx - 1 + ex) by lia.
    rewrite !pow2_add. pose proof (pow2_pos ex).
    remember (x * pow2 (- ex))%R as v. nra. }
  destruct (binary_round_aux_spec sx mx ex lx x ltac:(lia) H)
    as (M & HM & Hnear & _ & Htie & Hres).
  fold g in Hres, Hnear, Htie.
  rewrite Z.max_r in Hres, Hnear, Htie by exact Hle.
  exists g, M. repeat (split; [assumption|]).
  destruct Hres as [Hz|[(HM0 & m & e & Hr & Hv & He)|(HM0 & Hr & HE)]].
  - left; exact Hz.
  - right; left. split; [exact HM0|]. exists m, e.
    split; [exact Hr|]. split; [exact Hv|]. rewrite <- Hv. exact He.
  - right; right. split; [exact HM0|]. split; [exact Hr|].
    unfold emax, prec in HE. unfold F2R, emax.
    pose proof (pow2_pos (fexp g)) as Hp.
    destruct HE as [HE|[HM53 HE]].
    + assert (HEg : fexp g = g - 53) by (rewrite fexp_eq in *; lia).
      pose proof (pow2_pos (- fexp g)) as Hp'.
      assert (H52 : (pow2 52 <= x * pow2 (- fexp g))%R).
      { replace 52 with (g - 1 + - fexp g) by lia. rewrite pow2_add.
        apply Rmult_le_compat_r; lra. }
      assert (HM52 : 2 ^ 52 <= M).
      { apply IZR_le_half. rewrite <- pow2_IZR by lia. lra. }
      apply IZR_le in HM52. rewrite <- pow2_IZR in HM52 by lia.
      replace 1024 with (52 + 972) by lia. rewrite pow2_add.
      pose proof (pow2_le 972 (fexp g) ltac:(lia)).
      pose proof (pow2_pos 52). pose proof (pow2_pos 972).
      apply Rmult_le_compat; lra.
    + subst M. rewrite <- pow2_IZR, <- pow2_add by lia. apply pow2_le. lia.
Qed.

(** *** The operations *)

Lemma shl_align_spec mx ex ex' :
  snd (shl_align mx ex ex') = Z.min ex ex' /\
  Zpos (fst (shl_align mx ex ex')) = Zpos mx * 2 ^ (ex - Z.min ex ex').
Proof.
  unfold shl_align. destruct (ex' - ex) as [|d|d] eqn:Hd; cbn [fst snd].
  - rewrite Z.min_l by lia. rewrite Z.sub_diag. lia.
  - rewrite Z.min_l by lia. rewrite Z.sub_diag. lia.
  - rewrite Z.min_r by lia. split; [reflexivity|].
    replace (ex - ex') with (Zpos d) by lia.
    fold (shift_pos d mx). rewrite shift_pos_correct. apply Z.mul_comm.
Qed.

Lemma F2R_shl_align mx ex ex' :
  F2R (Zpos (fst (shl_align mx ex ex'))) (snd (shl_align mx ex ex')) = F2R (Zpos mx) ex.
Proof.
  destruct (shl_align_spec mx ex ex') as [He Hm]. unfold F2R.
  rewrite Hm, He, mult_IZR, <- pow2_IZR by lia.
  rewrite Rmult_assoc, <- pow2_add. f_equal. f_equal. lia.
Qed.

Theorem binary_round_rounded sx mx ex :
  rounded sx (F2R (Zpos mx) ex) (binary_round prec emax sx mx ex).
Proof.
  unfold binary_round.
  pose proof (F2R_shl_align mx ex (SpecFloat.fexp prec emax (Zpos (digits2_pos mx) + ex))) as Hv.
  destruct (shl_align mx ex (SpecFloat.fexp prec emax (Zpos (digits2_pos mx) + ex)))
    as [mz ez]. cbn [fst snd] in Hv.
  apply binary_round_aux_rounded; [lia| |left; reflexivity].
  unfold inb_rec; cbn. rewrite <- Hv. unfold F2R.
  rewrite Rmult_assoc, (Rmult_comm (pow2 ez)), pow2_opp. ring.
Qed.

Lemma Zdigits2_ge n d : 0 < n -> 2 ^ (d - 1) <= n -> d <= Zdigits2 n.
Proof.
  intros Hn H. pose proof (Zdigits2_lt n ltac:(lia)) as Hlt.
  pose proof (Zdigits2_nonneg n) as H0.
  destruct (Z_le_gt_dec d (Zdigits2 n)) as [|Hgt]; [assumption|exfalso].
  assert (2 ^ Zdigits2 n <= 2 ^ (d - 1)) by (apply Z.pow_le_mono_r; lia).
  lia.
Qed.

Theorem binary_round_rounded_even sx mx ex :
  rounded_even sx (F2R (Zpos mx) ex) (binary_round prec emax sx mx ex).
Proof.
  unfold binary_round.
  pose proof (F2R_shl_align mx ex (SpecFloat.fexp prec emax (Zpos (digits2_pos mx) + ex))) as Hv.
  destruct (shl_align_spec mx ex (SpecFloat.fexp prec emax (Zpos (digits2_pos mx) + ex)))
    as [He Hmz].
  destruct (shl_align mx ex (SpecFloat.fexp prec emax (Zpos (digits2_pos mx) + ex)))
    as [mz ez]. cbn [fst snd] in Hv, He, Hmz.
  change (SpecFloat.fexp prec emax (Zpos (digits2_pos mx) + ex))
    with (fexp (Zdigits2 (Zpos mx) + ex)) in He, Hmz.
  apply binary_round_aux_rounded_even; [lia| |].
  - unfold inb_rec; cbn. rewrite <- Hv. unfold F2R.
    rewrite Rmult_assoc, (Rmult_comm (pow2 ez)), pow2_opp. ring.
  - apply Z.le_trans with (fexp (Zdigits2 (Zpos mx) + ex));
      [rewrite He; apply Z.le_min_r|].
    apply fexp_mono.
    assert (Hd : Zdigits2 (Zpos mx) + (ex - ez) <= Zdigits2 (Zpos mz)).
    { apply Zdigits2_ge; [lia|]. rewrite Hmz, <- He.
      pose proof (Zdigits2_bounds mx) as [H1 _].
      assert (0 < Zdigits2 (Zpos mx)) by (simpl; lia).
      replace (Zdigits2 (Zpos mx) + (ex - ez) - 1)
        with ((Zdigits2 (Zpos mx) - 1) + (ex - ez)) by lia.
      rewrite Z.pow_add_r by lia.
      apply Z.mul_le_mono_nonneg_r; [apply Z.pow_nonneg; lia|exact H1]. }
    lia.
Qed.

Theorem mul_rounded sx mx ex sy my ey :
  rounded (xorb sx sy) (F2R (Zpos mx) ex * F2R (Zpos my) ey)
    (SFmul prec emax (S754_finite sx mx ex) (S754_finite sy my ey)).
Proof.
  cbn [SFmul]. apply binary_round_aux_rounded; [lia| |left; reflexivity].
  unfold inb_rec; cbn [shr_record_of_loc shr_m shr_r shr_s inbetween]. unfold F2R.
  rewrite Pos2Z.inj_mul, mult_IZR.
  replace (- (ex + ey)) with (- ex + - ey) by lia. rewrite pow2_add.
  pose proof (pow2_opp ex). pose proof (pow2_opp ey).
  transitivity (IZR (Zpos mx) * IZR (Zpos my) * (pow2 (- ex) * pow2 ex) * (pow2 (- ey) * pow2 ey))%R.
  - ring.
  - rewrite H, H0. ring.
Qed.

Theorem mul_rounded_even sx mx ex sy my ey :
  ex + ey <= fexp (Zdigits2 (Zpos (mx * my)) + (ex + ey)) ->
  rounded_even (xorb sx sy) (F2R (Zpos mx) ex * F2R (Zpos my) ey)
    (SFmul prec emax (S754_finite sx mx ex) (S754_finite sy my ey)).
Proof.
  intros Hle. cbn [SFmul]. apply binary_round_aux_rounded_even; [lia| |exact Hle].
  unfold inb_rec; cbn [shr_record_of_loc shr_m shr_r shr_s inbetween]. unfold F2R.
  rewrite Pos2Z.inj_mul, mult_IZR.
  replace (- (ex + ey)) with (- ex + - ey) by lia. rewrite pow2_add.
  pose proof (pow2_opp ex). pose proof (pow2_opp ey).
  transitivity (IZR (Zpos mx) * IZR (Zpos my) * (pow2 (- ex) * pow2 ex) * (pow2 (- ey) * pow2 ey))%R.
  - ring.
  - rewrite H, H0. ring.
Qed.

Theorem add_rounded m1 e1 m2 e2 :
  rounded false (F2R (Zpos m1) e1 + F2R (Zpos m2) e2)
    (SFadd prec emax (S754_finite false m1 e1) (S754_finite false m2 e2)).
Proof.
  cbn [SFadd cond_Zopp].
  pose proof (F2R_shl_align m1 e1 (Z.min e1 e2)) as H1.
  pose proof (F2R_shl_align m2 e2 (Z.min e1 e2)) as H2.
  destruct (shl_align_spec m1 e1 (Z.min e1 e2)) as [He1 _].
  destruct (shl_align_spec m2 e2 (Z.min e1 e2)) as [He2 _].
  rewrite He1 in H1. rewrite He2 in H2.
  replace (Z.min e1 (Z.min e1 e2)) with (Z.min e1 e2) in H1 by lia.
  replace (Z.min e2 (Z.min e1 e2)) with (Z.min e1 e2) in H2 by lia.
  rewrite <- H1, <- H2.
  rewrite <- Pos2Z.inj_add. cbn [binary_normalize].
  replace (F2R (Zpos (fst (shl_align m1 e1 (Z.min e1 e2)))) (Z.min e1 e2) +
           F2R (Zpos (fst (shl_align m2 e2 (Z.min e1 e2)))) (Z.min e1 e2))%R
    with (F2R (Zpos (fst (shl_align m1 e1 (Z.min e1 e2)) +
                     fst (shl_align m2 e2 (Z.min e1 e2)))) (Z.min e1 e2)).
  - apply binary_round_rounded.
  - unfold F2R. rewrite Pos2Z.inj_add, plus_IZR. ring.
Qed.

(** [x - y] for [0 < y <= x]. *)
Theorem sub_rounded m1 e1 m2 e2 :
  (F2R (Zpos m2) e2 <= F2R (Zpos m1) e1)%R ->
  let r := SFsub prec emax (S754_finite false m1 e1) (S754_finite false m2 e2) in
  (F2R (Zpos m2) e2 = F2R (Zpos m1) e1 /\ r = S754_zero false) \/
  ((F2R (Zpos m2) e2 < F2R (Zpos m1) e1)%R /\
   rounded false (F2R (Zpos m1) e1 - F2R (Zpos m2) e2) r).
Proof.
  intros Hle r. unfold r. cbn [SFsub cond_Zopp].
  pose proof (F2R_shl_align m1 e1 (Z.min e1 e2)) as H1.
  pose proof (F2R_shl_align m2 e2 (Z.min e1 e2)) as H2.
  destruct (shl_align_spec m1 e1 (Z.min e1 e2)) as [He1 _].
  destruct (shl_align_spec m2 e2 (Z.min e1 e2)) as [He2 _].
  rewrite He1 in H1. rewrite He2 in H2.
  replace (Z.min e1 (Z.min e1 e2)) with (Z.min e1 e2) in H1 by lia.
  replace (Z.min e2 (Z.min e1 e2)) with (Z.min e1 e2) in H2 by lia.
  rewrite <- H1, <- H2 in *.
  set (a := fst (shl_align m1 e1 (Z.min e1 e2))) in *.
  set (b := fst (shl_align m2 e2 (Z.min e1 e2))) in *.
  assert (Hab : Zpos b <= Zpos a).
  { apply le_IZR. unfold F2R in Hle. pose proof (pow2_pos (Z.min e1 e2)). nra. }
  destruct (Z.eq_dec (Zpos a) (Zpos b)) as [Heq|Hne].
  - left. split; [unfold F2R; rewrite Heq; reflexivity|].
    rewrite Heq, Z.sub_diag. reflexivity.
  - right. assert (Hlt : Zpos b < Zpos a) by lia.
    split.
    + unfold F2R. apply IZR_lt in Hlt. pose proof (pow2_pos (Z.min e1 e2)). nra.
    + destruct (Zpos a - Zpos b) as [|p|p] eqn:Hd; try lia.
      cbn [binary_normalize].
      replace (F2R (Zpos a) (Z.min e1 e2) - F2R (Zpos b) (Z.min e1 e2))%R
        with (F2R (Zpos p) (Z.min e1 e2)).
      * apply binary_round_rounded.
      * unfold F2R. rewrite <- Hd, minus_IZR. ring.
Qed.

Lemma pow2_neg e : pow2 (- e) = (/ pow2 e)%R.
Proof. apply powerRZ_neg'. Qed.

Lemma pow2_lt_inv a b : (pow2 a < pow2 b)%R -> a < b.
Proof.
  intros H. destruct (Z_lt_le_dec a b) as [|Hle]; [assumption|exfalso].
  apply pow2_le in Hle. lra.
Qed.

Lemma new_location_spec q nb k :
  0 < nb -> 0 <= k < nb ->
  inb_rec (shr_record_of_loc q (new_location nb k)) (IZR q + IZR k / IZR nb).
Proof.
  intros Hnb Hk.
  assert (Hn : (0 < IZR nb)%R) by (apply IZR_lt; lia).
  assert (Hf : (IZR k / IZR nb * IZR nb = IZR k)%R) by (field; lra).
  set (f := (IZR k / IZR nb)%R) in *.
  unfold new_location.
  destruct (Z.even nb) eqn:Hev.
  - unfold new_location_even. destruct (k =? 0) eqn:Hk0.
    + apply Z.eqb_eq in Hk0. subst k. unfold inb_rec; cbn. nra.
    + apply Z.eqb_neq in Hk0. assert (Hkp : (1 <= IZR k)%R) by (apply IZR_le; lia).
      assert (Hkn : (IZR k + 1 <= IZR nb)%R)
        by (rewrite <- (plus_IZR k 1); apply IZR_le; lia).
      destruct (Z.compare_spec (2 * k) nb) as [Hc|Hc|Hc]; unfold inb_rec; cbn.
      * apply (f_equal IZR) in Hc. rewrite mult_IZR in Hc. nra.
      * apply IZR_lt in Hc. rewrite mult_IZR in Hc. nra.
      * apply IZR_lt in Hc. rewrite mult_IZR in Hc. nra.
  - unfold new_location_odd. destruct (k =? 0) eqn:Hk0.
    + apply Z.eqb_eq in Hk0. subst k. unfold inb_rec; cbn. nra.
    + apply Z.eqb_neq in Hk0. assert (Hkp : (1 <= IZR k)%R) by (apply IZR_le; lia).
      assert (Hkn : (IZR k + 1 <= IZR nb)%R)
        by (rewrite <- (plus_IZR k 1); apply IZR_le; lia).
      assert (Hodd : nb <> 2 * k).
      { intros ->. rewrite Z.even_mul in Hev. discriminate. }
      destruct (Z.compare_spec (2 * k + 1) nb) as [Hc|Hc|Hc]; unfold inb_rec; cbn.
      * apply (f_equal IZR) in Hc. rewrite plus_IZR, mult_IZR in Hc. nra.
      * apply IZR_lt in Hc. rewrite plus_IZR, mult_IZR in Hc. nra.
      * assert (Hc' : nb < 2 * k) by lia.
        apply IZR_lt in Hc'. rewrite mult_IZR in Hc'. nra.
Qed.

(** The quotient of two positive integers scaled by powers of two, rounded
    once from the integer quotient and the place of the remainder. *)
Theorem div_core_rounded_even sx m1 e1 m2 e2 :
  0 < m1 -> 0 < m2 ->
  (pow2 (-1074) <= F2R m1 e1 / F2R m2 e2)%R ->
  rounded_even sx (F2R m1 e1 / F2R m2 e2)
    (let '(q, e, l) := SFdiv_core_binary prec emax m1 e1 m2 e2 in
     binary_round_aux prec emax sx q e l).
Proof.
  intros H1 H2 Hx. unfold SFdiv_core_binary.
  set (D := Zdigits2 m1 + e1 - (Zdigits2 m2 + e2)).
  fold (fexp D).
  set (e' := Z.min (fexp D) (e1 - e2)).
  set (s := e1 - e2 - e').
  assert (Hs : 0 <= s) by (unfold s, e'; lia).
  set (m' := match s with Zpos _ => Z.shiftl m1 s | Z0 => m1 | Zneg _ => 0 end).
  assert (Hm' : m' = m1 * 2 ^ s).
  { unfold m'. destruct s as [|p|p] eqn:Hsp; try lia.
    - rewrite Z.shiftl_mul_pow2 by lia. reflexivity. }
  pose proof (Z_div_mod m' m2 ltac:(lia)) as Hdm.
  destruct (Z.div_eucl m' m2) as [q r]. destruct Hdm as [Heq Hr].
  set (x := (F2R m1 e1 / F2R m2 e2)%R) in *.
  pose proof (Zdigits2_R m1 H1) as [Hd1 _].
  pose proof (Zdigits2_R m2 H2) as [_ Hd2].
  assert (Hp1 : (0 < IZR m1)%R) by (apply IZR_lt; lia).
  assert (Hp2 : (0 < IZR m2)%R) by (apply IZR_lt; lia).
  (* x scaled to the exponent e' is the rational m' / m2 *)
  assert (Hxe : (x * pow2 (- e') = IZR q + IZR r / IZR m2)%R).
  { assert (Hmq : (IZR m' = IZR m2 * IZR q + IZR r)%R).
    { rewrite Heq, plus_IZR, mult_IZR. reflexivity. }
    assert (Hms : IZR m' = (IZR m1 * pow2 s)%R).
    { rewrite Hm', mult_IZR, <- pow2_IZR by lia. reflexivity. }
    assert (Hse : pow2 s = (pow2 e1 * / pow2 e2 * pow2 (- e'))%R).
    { unfold s. replace (e1 - e2 - e') with (e1 + (- e2 + - e')) by lia.
      rewrite !pow2_add, (pow2_neg e2). ring. }
    unfold x, F2R. pose proof (pow2_pos e2). pose proof (pow2_pos e1).
    transitivity (IZR m' / IZR m2)%R.
    - rewrite Hms, Hse. field. lra.
    - rewrite Hmq. field. lra. }
  (* the binade of x *)
  assert (HxD : (pow2 (D - 1) < x)%R).
  { unfold x, F2R, D.
    replace (Zdigits2 m1 + e1 - (Zdigits2 m2 + e2) - 1)
      with ((Zdigits2 m1 - 1) + e1 + - Zdigits2 m2 + - e2) by lia.
    rewrite !pow2_add, !pow2_neg.
    pose proof (pow2_pos e1). pose proof (pow2_pos e2).
    pose proof (pow2_pos (Zdigits2 m2)). pose proof (pow2_pos (Zdigits2 m1 - 1)).
    set (A := pow2 (Zdigits2 m1 - 1)) in *. set (B := pow2 (Zdigits2 m2)) in *.
    set (P1 := pow2 e1) in *. set (P2 := pow2 e2) in *.
    assert (Hkey : (A * IZR m2 < IZR m1 * B)%R) by nra.
    assert (HBP : (0 < B * P2)%R) by nra.
    assert (HBPm : (0 < B * P2 * IZR m2)%R) by nra.
    assert (HK : (0 < P1 / (B * P2 * IZR m2))%R) by (apply Rdiv_lt_0_compat; lra).
    replace (A * P1 * / B * / P2)%R
      with (A * IZR m2 * (P1 / (B * P2 * IZR m2)))%R by (field; lra).
    replace (IZR m1 * P1 / (IZR m2 * P2))%R
      with (IZR m1 * B * (P1 / (B * P2 * IZR m2)))%R by (field; lra).
    apply Rmult_lt_compat_r; assumption. }
  assert (Hxe' : (pow2 e' <= x)%R).
  { unfold e'. rewrite fexp_eq.
    destruct (Z_le_gt_dec (-1074) (D - 53)).
    - pose proof (pow2_le (Z.min (Z.max (D - 53) (-1074)) (e1 - e2)) (D - 1) ltac:(lia)). lra.
    - pose proof (pow2_le (Z.min (Z.max (D - 53) (-1074)) (e1 - e2)) (-1074) ltac:(lia)). lra. }
  assert (Hfrac : (0 <= IZR r / IZR m2 < 1)%R).
  { assert (Hf : (IZR r / IZR m2 * IZR m2 = IZR r)%R) by (field; lra).
    assert (0 <= IZR r)%R by (apply IZR_le; lia).
    assert (IZR r + 1 <= IZR m2)%R by (rewrite <- (plus_IZR r 1); apply IZR_le; lia).
    set (f := (IZR r / IZR m2)%R) in *. split; nra. }
  assert (Hq : 0 < q).
  { assert (H1x : (1 <= x * pow2 (- e'))%R).
    { pose proof (pow2_opp e'). pose proof (pow2_pos (- e')). pose proof (pow2_pos e').
      nra. }
    destruct (Z_lt_le_dec 0 q) as [|Hq0]; [assumption|exfalso].
    apply IZR_le in Hq0. lra. }
  apply binary_round_aux_rounded_even; [exact Hq| |].
  - rewrite Hxe. apply new_location_spec; lia.
  - (* the quotient has enough digits *)
    pose proof (Zdigits2_R q Hq) as [_ Hdq].
    assert (Hlt : (x < pow2 (Zdigits2 q + e'))%R).
    { rewrite pow2_add. pose proof (pow2_opp e') as Ho.
      pose proof (pow2_pos e') as Hpe.
      assert (Hxx : (x = x * pow2 (- e') * pow2 e')%R) by (rewrite Rmult_assoc, Ho; ring).
      rewrite Hxx, Hxe. nra. }
    assert (D - 1 < Zdigits2 q + e') by (apply pow2_lt_inv; lra).
    pose proof (fexp_mono D (Zdigits2 q + e') ltac:(lia)) as Hmono.
    assert (He' : e' <= fexp D) by (unfold e'; apply Z.le_min_l).
    exact (Z.le_trans _ _ _ He' Hmono).
Qed.

Theorem div_core_rounded sx m1 e1 m2 e2 :
  0 < m1 -> 0 < m2 ->
  (pow2 (-1074) <= F2R m1 e1 / F2R m2 e2)%R ->
  rounded sx (F2R m1 e1 / F2R m2 e2)
    (let '(q, e, l) := SFdiv_core_binary prec emax m1 e1 m2 e2 in
     binary_round_aux prec emax sx q e l).
Proof.
  intros H1 H2 Hx. apply rounded_even_rounded, div_core_rounded_even; assumption.
Qed.

Theorem div_rounded_even sx mx ex sy my ey :
  (pow2 (-1074) <= F2R (Zpos mx) ex / F2R (Zpos my) ey)%R ->
  rounded_even (xorb sx sy) (F2R (Zpos mx) ex / F2R (Zpos my) ey)
    (SFdiv prec emax (S754_finite sx mx ex) (S754_finite sy my ey)).
Proof.
  intros Hx. cbn [SFdiv].
  pose proof (div_core_rounded_even (xorb sx sy) (Zpos mx) ex (Zpos my) ey
                ltac:(lia) ltac:(lia) Hx) as H.
  destruct (SFdiv_core_binary prec emax (Zpos mx) ex (Zpos my) ey) as [[q e] l].
  exact H.
Qed.

Theorem div_rounded sx mx ex sy my ey :
  (pow2 (-1074) <= F2R (Zpos mx) ex / F2R (Zpos my) ey)%R ->
  rounded (xorb sx sy) (F2R (Zpos mx) ex / F2R (Zpos my) ey)
    (SFdiv prec emax (S754_finite sx mx ex) (S754_finite sy my ey)).
Proof.
  intros Hx. apply rounded_even_rounded, div_rounded_even; exact Hx.
Qed.

Lemma rounded_binade_le_53 x g n :
  (pow2 (g - 1) <= x)%R -> (x <= IZR n)%R -> n < 2 ^ 53 -> fexp g <= 0.
Proof.
  intros Hg Hx Hn. apply IZR_lt in Hn. rewrite <- pow2_IZR in Hn by lia.
  assert (g - 1 < 53) by (apply pow2_lt_inv; lra).
  rewrite fexp_eq. lia.
Qed.

Lemma grid_int (n E : Z) : E <= 0 -> (IZR n * pow2 (- E))%R = IZR (n * 2 ^ (- E)).
Proof. intros HE. rewrite mult_IZR, <- pow2_IZR by lia. reflexivity. Qed.

Lemma scale_back x E : (x * pow2 (- E) * pow2 E)%R = x.
Proof. rewrite Rmult_assoc, pow2_opp. ring. Qed.

Theorem rounded_le_int x r n :
  rounded false x r -> (x <= IZR n)%R -> 0 < n < 2 ^ 53 ->
  exists v, finite_nonneg r v /\ (0 <= v <= IZR n)%R.
Proof.
  intros (g & M & Hg & HM & Hnear & _ & Hres) Hx Hn.
  pose proof (rounded_binade_le_53 x g n (proj1 Hg) Hx (proj2 Hn)) as HE.
  pose proof (pow2_pos (- fexp g)) as Hp. pose proof (pow2_pos (fexp g)) as Hp'.
  assert (HMb : M <= n * 2 ^ (- fexp g)).
  { apply IZR_le_half. rewrite <- grid_int by exact HE. nra. }
  assert (Hval : (0 <= F2R M (fexp g) <= IZR n)%R).
  { unfold F2R. apply IZR_le in HMb. rewrite <- grid_int in HMb by exact HE.
    assert (0 <= IZR M)%R by (apply IZR_le; lia).
    rewrite <- (scale_back (IZR n) (fexp g)). split; nra. }
  destruct Hres as [[HM0 Hr]|[(HM0 & m & e & Hr & Hv & _)|(HM0 & Hr & Hbig)]].
  - exists 0%R. split; [left; auto|]. split; [lra|]. apply IZR_le; lia.
  - exists (F2R (Zpos m) e). split; [right; exists m, e; auto|]. rewrite Hv. exact Hval.
  - exfalso. assert (H53 : (IZR n < pow2 53)%R).
    { rewrite pow2_IZR by lia. apply IZR_lt; lia. }
    pose proof (pow2_le 53 970 ltac:(lia)). lra.
Qed.

Theorem rounded_ge_int x r n :
  rounded false x r -> (IZR n <= x)%R -> 0 < n < 2 ^ 53 ->
  r = S754_infinity false \/
  exists m e, r = S754_finite false m e /\ (IZR n <= F2R (Zpos m) e)%R.
Proof.
  intros (g & M & Hg & HM & Hnear & _ & Hres) Hx Hn.
  pose proof (pow2_pos (- fexp g)) as Hp. pose proof (pow2_pos (fexp g)) as Hp'.
  assert (Hn1 : (1 <= IZR n)%R) by (apply IZR_le; lia).
  assert (Hval : (IZR n <= F2R M (fexp g))%R /\ 0 < M).
  { destruct (Z_le_gt_dec (fexp g) 0) as [HE|HE].
    - assert (HMb : n * 2 ^ (- fexp g) <= M).
      { apply IZR_le_half. rewrite <- grid_int by exact HE. nra. }
      assert (0 < 2 ^ (- fexp g)) by (apply Z.pow_pos_nonneg; lia).
      split; [|nia].
      unfold F2R. apply IZR_le in HMb. rewrite <- grid_int in HMb by exact HE.
      rewrite <- (scale_back (IZR n) (fexp g)). nra.
    - assert (HEg : fexp g = g - 53) by (rewrite fexp_eq in *; lia).
      assert (H52 : (pow2 52 <= x * pow2 (- fexp g))%R).
      { replace 52 with (g - 1 + - fexp g) by lia. rewrite pow2_add. nra. }
      assert (HM52 : 2 ^ 52 <= M).
      { apply IZR_le_half. rewrite <- pow2_IZR by lia. lra. }
      split; [|lia]. unfold F2R.
      apply IZR_le in HM52. rewrite <- pow2_IZR in HM52 by lia.
      assert (Hn53 : (IZR n < pow2 53)%R).
      { rewrite pow2_IZR by lia. apply IZR_lt; lia. }
      replace 53 with (52 + 1) in Hn53 by lia. rewrite pow2_add, pow2_1 in Hn53.
      pose proof (pow2_le 1 (fexp g) ltac:(lia)) as H1. rewrite pow2_1 in H1.
      pose proof (pow2_pos 52). nra. }
  destruct Hval as [Hval HMpos].
  destruct Hres as [[HM0 Hr]|[(HM0 & m & e & Hr & Hv & _)|(HM0 & Hr & Hbig)]].
  - lia.
  - right. exists m, e. split; [exact Hr|]. rewrite Hv. exact Hval.
  - left. exact Hr.
Qed.

(** In the normal range, below overflow, the relative error is at most
    [2^-53]. *)
Theorem rounded_error x r :
  rounded false x r -> (pow2 (-1021) <= x < pow2 970)%R ->
  exists m e, r = S754_finite false m e /\
              (x * (1 - pow2 (-53)) <= F2R (Zpos m) e <= x * (1 + pow2 (-53)))%R.
Proof.
  intros (g & M & Hg & HM & Hnear & _ & Hres) Hx.
  pose proof (pow2_pos (- fexp g)) as Hp. pose proof (pow2_pos (fexp g)) as Hp'.
  assert (Hg1 : -1021 < g) by (apply pow2_lt_inv; lra).
  assert (HEg : fexp g = g - 53) by (rewrite fexp_eq; lia).
  assert (Hulp : (pow2 (fexp g) * / 2 <= x * pow2 (-53))%R).
  { rewrite HEg. replace (g - 53) with (g - 1 + 1 + -53) by lia.
    rewrite !pow2_add, pow2_1. pose proof (pow2_pos (-53)). pose proof (pow2_pos (g - 1)).
    nra. }
  assert (Hval : (x * (1 - pow2 (-53)) <= F2R M (fexp g) <= x * (1 + pow2 (-53)))%R).
  { unfold F2R. pose proof (scale_back x (fexp g)) as Hsb.
    set (v := (x * pow2 (- fexp g))%R) in *. split; nra. }
  assert (HMpos : 0 < M).
  { assert (H52 : (pow2 52 <= x * pow2 (- fexp g))%R).
    { replace 52 with (g - 1 + - fexp g) by lia. rewrite pow2_add. nra. }
    assert (2 ^ 52 <= M); [|lia].
    apply IZR_le_half. rewrite <- pow2_IZR by lia. lra. }
  destruct Hres as [[HM0 Hr]|[(HM0 & m & e & Hr & Hv & _)|(HM0 & Hr & Hbig)]].
  - lia.
  - exists m, e. split; [exact Hr|]. rewrite Hv. exact Hval.
  - lra.
Qed.

(** Truncation of a non-negative float to an integer. *)
Lemma shiftl_floor m e :
  0 <= m -> (IZR (Z.shiftl m e) <= F2R m e < IZR (Z.shiftl m e) + 1)%R.
Proof.
  intros Hm. unfold F2R. destruct (Z_le_gt_dec 0 e) as [He|He].
  - rewrite Z.shiftl_mul_pow2, mult_IZR, <- pow2_IZR by lia. lra.
  - rewrite Z.shiftl_div_pow2 by lia.
    assert (HP : 0 < 2 ^ (- e)) by (apply Z.pow_pos_nonneg; lia).
    pose proof (Z.div_mod m (2 ^ (- e)) ltac:(lia)) as Hdm.
    pose proof (Z.mod_pos_bound m (2 ^ (- e)) HP) as Hmod.
    set (k := m / 2 ^ (- e)) in *. set (r := m mod 2 ^ (- e)) in *.
    assert (Hm1 : (IZR m = IZR (2 ^ (- e)) * IZR k + IZR r)%R).
    { rewrite Hdm at 1. rewrite plus_IZR, mult_IZR. reflexivity. }
    rewrite <- pow2_IZR in Hm1 by lia.
    assert (Hr0 : (0 <= IZR r)%R) by (apply IZR_le; lia).
    assert (Hr1 : (IZR r + 1 <= pow2 (- e))%R).
    { rewrite pow2_IZR by lia. rewrite <- (plus_IZR r 1). apply IZR_le; lia. }
    pose proof (pow2_opp e) as Ho. pose proof (pow2_pos e). pose proof (pow2_pos (- e)).
    rewrite Hm1. set (P := pow2 (- e)) in *. set (Q := pow2 e) in *.
    replace ((P * IZR k + IZR r) * Q)%R with (IZR k * (P * Q) + IZR r * Q)%R by ring.
    rewrite Ho.
    assert (0 <= IZR r * Q)%R by (apply Rmult_le_pos; lra).
    assert (IZR r * Q + Q <= P * Q)%R by nra.
    lra.
Qed.

(** ** Integers as floats, floats as integers *)

Lemma of_Z_pos_rounded (n : Z) : 0 < n -> rounded false (IZR n) (of_Z n).
Proof.
  intros Hn. destruct n as [|p|p]; try lia.
  unfold of_Z. cbn [binary_normalize].
  replace (IZR (Zpos p)) with (F2R (Zpos p) 0).
  - apply binary_round_rounded.
  - unfold F2R. rewrite pow2_0. ring.
Qed.

Lemma rounded_finite_bound sx x s m e :
  rounded sx x (S754_finite s m e) -> s = sx /\ (F2R (Zpos m) e < pow2 1024)%R.
Proof.
  intros (g & M & _ & _ & _ & _ & Hres).
  destruct Hres as [[_ Hr]|[(_ & m' & e' & Hr & _ & Hb)|(_ & Hr & _)]];
    try discriminate.
  injection Hr as -> -> ->. split; [reflexivity|exact Hb].
Qed.

Lemma of_Z_exact (n : Z) :
  0 < n < 2 ^ 53 ->
  exists m e, of_Z n = S754_finite false m e /\ F2R (Zpos m) e = IZR n.
Proof.
  intros Hn. pose proof (of_Z_pos_rounded n (proj1 Hn)) as Hr.
  destruct (rounded_le_int _ _ n Hr (Rle_refl _) Hn) as (v & Hfin & Hv).
  destruct (rounded_ge_int _ _ n Hr (Rle_refl _) Hn) as [Hinf|(m & e & He & Hge)].
  - destruct Hfin as [[Hz _]|(m & e & He & _)]; congruence.
  - exists m, e. split; [exact He|].
    destruct Hfin as [[Hz _]|(m' & e' & He' & Hv')]; [congruence|].
    rewrite He in He'. injection He' as <- <-. lra.
Qed.

Lemma float_of_int_exact (n : Z) :
  0 < n < 2 ^ 53 ->
  exists m e, float_of_int n = Ok (S754_finite false m e) /\ F2R (Zpos m) e = IZR n.
Proof.
  intros Hn. destruct (of_Z_exact n Hn) as (m & e & He & Hv).
  exists m, e. unfold float_of_int. rewrite He. auto.
Qed.

Lemma int_of_float_floor (r : float) (v : R) :
  finite_nonneg r v ->
  exists k, int_of_float r = Ok k /\ 0 <= k /\ (IZR k <= v < IZR k + 1)%R.
Proof.
  intros [[-> ->]|(m & e & -> & <-)].
  - exists 0. cbn. repeat split; try lia; lra.
  - exists (Z.shiftl (Zpos m) e). cbn [int_of_float cond_Zopp].
    split; [reflexivity|]. split; [apply Z.shiftl_nonneg; lia|].
    apply shiftl_floor; lia.
Qed.

(** [int(n * r)] for a count [n] and a ratio [r] in the unit interval lies
    between [0] and [n]. *)
Lemma int_of_product_unit (n : Z) (r : float) :
  0 <= n < 2 ^ 53 -> unit_float r ->
  exists k, int_of_product n r = Ok k /\ 0 <= k <= n.
Proof.
  intros Hn (v & Hfin & Hv). unfold int_of_product, int_mul_float.
  destruct (Z.eq_dec n 0) as [->|Hn0].
  - exists 0. destruct Hfin as [[-> _]|(m & e & -> & _)]; cbn; auto with zarith.
  - destruct (float_of_int_exact n ltac:(lia)) as (mn & en & -> & Hvn). cbn [bind].
    destruct Hfin as [[-> _]|(m & e & -> & Hm)].
    + exists 0. cbn. auto with zarith.
    + pose proof (mul_rounded false mn en false m e) as Hr. cbn [xorb] in Hr.
      rewrite Hvn, Hm in Hr.
      assert (Hx : (IZR n * v <= IZR n)%R).
      { assert (0 <= IZR n)%R by (apply IZR_le; lia). nra. }
      destruct (rounded_le_int _ _ n Hr Hx ltac:(lia)) as (w & Hw & Hwb).
      destruct (int_of_float_floor _ _ Hw) as (k & Hk & Hk0 & Hkv).
      exists k. split; [exact Hk|]. split; [exact Hk0|].
      apply le_IZR. lra.
Qed.

(** ** The sex ratio lies in the unit interval *)

Lemma of_Z_one : of_Z 1 = S754_finite false 4503599627370496 (-52).
Proof. reflexivity. Qed.

Lemma F2R_one : F2R 4503599627370496 (-52) = 1%R.
Proof.
  unfold F2R. change (-52) with (- (52)). rewrite pow2_neg, (pow2_IZR 52) by lia.
  change (2 ^ 52) with 4503599627370496. field.
Qed.

Lemma pow2_1024_gt_1 : (1 < pow2 1024)%R.
Proof. rewrite <- pow2_0. apply pow2_lt. lia. Qed.

Lemma add_one_spec (e : float) :
  nonneg_float e ->
  (of_Z 1 + e)%fl = S754_infinity false \/
  exists m ex, (of_Z 1 + e)%fl = S754_finite false m ex /\
               (1 <= F2R (Zpos m) ex < pow2 1024)%R.
Proof.
  intros He. rewrite of_Z_one. destruct e as [[|]|[|]| |[|] me ee]; try contradiction.
  - right. exists 4503599627370496%positive, (-52). split; [reflexivity|].
    rewrite F2R_one. pose proof pow2_1024_gt_1. lra.
  - left. reflexivity.
  - pose proof (add_rounded 4503599627370496 (-52) me ee) as Hr.
    rewrite F2R_one in Hr.
    assert (Hpos : (0 < F2R (Zpos me) ee)%R).
    { unfold F2R. apply Rmult_lt_0_compat; [apply IZR_lt; lia|apply pow2_pos]. }
    destruct (rounded_ge_int _ _ 1 Hr ltac:(lra) ltac:(lia)) as [Hinf|(m & ex & Hy & Hge)].
    + left. exact Hinf.
    + right. exists m, ex. split; [exact Hy|].
      unfold add in Hr. unfold add in Hy. rewrite Hy in Hr.
      destruct (rounded_finite_bound _ _ _ _ _ Hr) as [_ Hb]. lra.
Qed.

Lemma recip_spec (y : float) :
  (y = S754_infinity false \/
   exists m ex, y = S754_finite false m ex /\ (1 <= F2R (Zpos m) ex < pow2 1024)%R) ->
  unit_float (of_Z 1 / y)%fl.
Proof.
  rewrite of_Z_one. intros [->|(m & ex & -> & Hy)].
  - exists 0%R. split; [left; split; reflexivity|lra].
  - set (vy := F2R (Zpos m) ex) in *.
    assert (Hinv : (/ vy * vy = 1)%R) by (field; lra).
    assert (Hinv0 : (0 < / vy)%R) by (apply Rinv_0_lt_compat; lra).
    pose proof (pow2_opp 1024) as Ho. pose proof (pow2_pos (- (1024))) as Hq.
    assert (Hlow : (pow2 (-1074) <= / vy)%R).
    { pose proof (pow2_le (-1074) (-1024) ltac:(lia)) as Hpl.
      change (-1024) with (- (1024)) in Hpl.
      assert (H1 : (pow2 (- (1024)) * vy < pow2 (- (1024)) * pow2 1024)%R)
        by (apply Rmult_lt_compat_l; lra).
      destruct (Rle_lt_dec (pow2 (- (1024))) (/ vy)) as [|Hlt]; [lra|exfalso].
      assert (H2 : (/ vy * vy < pow2 (- (1024)) * vy)%R)
        by (apply Rmult_lt_compat_r; lra).
      lra. }
    pose proof (div_rounded false 4503599627370496 (-52) false m ex) as Hr.
    rewrite F2R_one in Hr. fold vy in Hr. cbn [xorb] in Hr.
    replace (1 / vy)%R with (/ vy)%R in Hr by (field; lra).
    specialize (Hr Hlow).
    assert (Hle : (/ vy <= IZR 1)%R) by nra.
    destruct (rounded_le_int _ _ 1 Hr Hle ltac:(lia)) as (v & Hfin & Hv).
    exists v. split; [exact Hfin|exact Hv].
Qed.

Lemma one_minus_spec (r : float) : unit_float r -> unit_float (of_Z 1 - r)%fl.
Proof.
  rewrite of_Z_one. intros (v & [[-> ->]|(m & e & -> & Hm)] & Hv).
  - exists 1%R. split; [|lra]. right.
    exists 4503599627370496%positive, (-52). split; [reflexivity|apply F2R_one].
  - pose proof (sub_rounded 4503599627370496 (-52) m e) as Hs.
    rewrite F2R_one, Hm in Hs. specialize (Hs ltac:(lra)).
    destruct Hs as [[_ Hz]|[Hlt Hr]].
    + exists 0%R. split; [left; split; [exact Hz|reflexivity]|lra].
    + assert (Hle : (1 - v <= IZR 1)%R) by lra.
      destruct (rounded_le_int _ _ 1 Hr Hle ltac:(lia)) as (w & Hfin & Hw).
      exists w. split; [exact Hfin|exact Hw].
Qed.

(** Whatever the temperature, the female ratio and the male ratio are both
    not a number, or both in the unit interval. *)
Lemma ratios_unit (np_exp : float -> float) (temp pivotal_temp transition : float) :
  exp_range np_exp ->
  let female_ratio := get_female_ratio np_exp temp pivotal_temp transition in
  let male_ratio := (of_Z 1 - female_ratio)%fl in
  (female_ratio = S754_nan /\ male_ratio = S754_nan) \/
  (unit_float female_ratio /\ unit_float male_ratio).
Proof.
  intros Hexp female_ratio male_ratio. unfold male_ratio, female_ratio, get_female_ratio.
  destruct (Hexp (- transition * (temp - pivotal_temp))%fl) as [Hnan|Hnn].
  - left. rewrite Hnan. split; reflexivity.
  - right. pose proof (recip_spec _ (add_one_spec _ Hnn)) as Hfr.
    split; [exact Hfr|apply one_minus_spec; exact Hfr].
Qed.

(** ** Products with the module's constants, checked over every count the
    carrying capacity allows *)

Lemma table_ok_sound f g n :
  table_ok f g n = true -> forall z, 0 <= z < Z.of_nat n -> f z = Ok (g z).
Proof.
  unfold table_ok. rewrite forallb_forall. intros H z Hz.
  specialize (H (Z.to_nat z)). rewrite Z2Nat.id in H by lia.
  assert (Hin : In (Z.to_nat z) (seq 0 n)) by (apply in_seq; lia).
  specialize (H Hin). destruct (f z) as [k|e]; [|discriminate].
  apply Z.eqb_eq in H. congruence.
Qed.

Lemma survivors_table (p : Z) :
  0 <= p <= carrying_capacity ->
  int_of_product (p * average_eggs_per_female) hatchling_survival_rate = Ok (80 * p).
Proof.
  intros Hp.
  apply (table_ok_sound
           (fun p => int_of_product (p * average_eggs_per_female) hatchling_survival_rate)
           (fun p => 80 * p) 2001); [vm_compute; reflexivity|].
  unfold carrying_capacity in Hp. lia.
Qed.

Lemma guard_table (f : Z) :
  0 <= f <= carrying_capacity ->
  int_of_product f (decimal 85 100) = Ok (17 * f / 20).
Proof.
  intros Hf.
  apply (table_ok_sound (fun f => int_of_product f (decimal 85 100))
           (fun f => 17 * f / 20) 2001); [vm_compute; reflexivity|].
  unfold carrying_capacity in Hf. lia.
Qed.

Lemma warm_male_table (m : Z) :
  0 <= m <= carrying_capacity ->
  int_of_product m (of_Z 1 - male_mortality_rate_warm)%fl = Ok (4 * m / 5).
Proof.
  intros Hm.
  apply (table_ok_sound (fun m => int_of_product m (of_Z 1 - male_mortality_rate_warm)%fl)
           (fun m => 4 * m / 5) 2001); [vm_compute; reflexivity|].
  unfold carrying_capacity in Hm. lia.
Qed.

Lemma adult_table (m : Z) :
  0 <= m <= carrying_capacity ->
  int_of_product m (of_Z 1 - adult_mortality_rate)%fl = Ok (9 * m / 10).
Proof.
  intros Hm.
  apply (table_ok_sound (fun m => int_of_product m (of_Z 1 - adult_mortality_rate)%fl)
           (fun m => 9 * m / 10) 2001); [vm_compute; reflexivity|].
  unfold carrying_capacity in Hm. lia.
Qed.

Lemma cold_female_table (f : Z) :
  0 <= f <= carrying_capacity ->
  int_of_product f (of_Z 1 - female_mortality_rate)%fl = Ok (19 * f / 20).
Proof.
  intros Hf.
  apply (table_ok_sound (fun f => int_of_product f (of_Z 1 - female_mortality_rate)%fl)
           (fun f => 19 * f / 20) 2001); [vm_compute; reflexivity|].
  unfold carrying_capacity in Hf. lia.
Qed.

(** ** Scaling a count by [carrying_capacity / total] *)

Lemma pow2_m53 : pow2 (-53) = (/ 9007199254740992)%R.
Proof.
  change (-53) with (- (53)). rewrite pow2_neg, (pow2_IZR 53) by lia. reflexivity.
Qed.

Lemma pow2_40 : pow2 40 = 1099511627776%R.
Proof. rewrite (pow2_IZR 40) by lia. reflexivity. Qed.

Lemma pow2_m41_le : (pow2 (-1021) <= pow2 (-41))%R.
Proof. apply pow2_le. lia. Qed.

Lemma pow2_m41 : pow2 (-41) = (/ 2199023255552)%R.
Proof.
  change (-41) with (- (41)). rewrite pow2_neg, (pow2_IZR 41) by lia. reflexivity.
Qed.

Lemma pow2_970_big : (4096 <= pow2 970)%R.
Proof.
  pose proof (pow2_le 12 970 ltac:(lia)) as H. rewrite (pow2_IZR 12) in H by lia.
  exact H.
Qed.

Lemma truediv_capacity (T : Z) :
  carrying_capacity < T < 2 ^ 40 ->
  exists ms es,
    int_truediv carrying_capacity T = Ok (S754_finite false ms es) /\
    (2000 / IZR T * (1 - pow2 (-53)) <= F2R (Zpos ms) es
     <= 2000 / IZR T * (1 + pow2 (-53)))%R.
Proof.
  unfold carrying_capacity. intros HT. unfold int_truediv.
  destruct (T =? 0) eqn:HT0; [apply Z.eqb_eq in HT0; lia|].
  change (2000 =? 0) with false. cbv iota.
  change (2000 <? 0) with false.
  assert (HTn : (T <? 0) = false) by (apply Z.ltb_ge; lia).
  rewrite HTn. cbn [xorb]. rewrite (Z.abs_eq T) by lia.
  change (Z.abs 2000) with 2000.
  assert (Ht : (2000 < IZR T < 1099511627776)%R).
  { split; apply IZR_lt; lia. }
  assert (Hx : (F2R 2000 0 / F2R T 0 = 2000 / IZR T)%R).
  { unfold F2R. rewrite pow2_0. field. lra. }
  set (x := (2000 / IZR T)%R) in *.
  assert (Hxt : (x * IZR T = 2000)%R) by (unfold x; field; lra).
  assert (Hx0 : (0 < x)%R) by (unfold x; apply Rdiv_lt_0_compat; lra).
  assert (Hxlo : (pow2 (-41) <= x)%R).
  { rewrite pow2_m41. destruct (Rle_lt_dec (/ 2199023255552) x) as [|Hlt]; [assumption|].
    exfalso. assert (x * IZR T < / 2199023255552 * 1099511627776)%R.
    { apply Rmult_le_0_lt_compat; lra. }
    lra. }
  assert (Hxhi : (x < 1)%R).
  { destruct (Rlt_le_dec x 1) as [|Hge]; [assumption|exfalso]. nra. }
  pose proof (div_core_rounded false 2000 0 T 0 ltac:(lia) ltac:(lia)) as Hr.
  rewrite Hx in Hr.
  specialize (Hr ltac:(pose proof (pow2_le (-1074) (-41) ltac:(lia)); lra)).
  destruct (SFdiv_core_binary prec emax 2000 0 T 0) as [[q e] l].
  destruct (rounded_error _ _ Hr) as (ms & es & Hs & Hv).
  { pose proof pow2_m41_le. pose proof pow2_970_big. lra. }
  exists ms, es. rewrite Hs. split; [reflexivity|exact Hv].
Qed.

Lemma div_sum_le (a b T : Z) : 0 < T -> a / T + b / T <= (a + b) / T.
Proof.
  intros HT. apply Z.div_le_lower_bound; [exact HT|].
  pose proof (Z.mul_div_le a T HT). pose proof (Z.mul_div_le b T HT). lia.
Qed.

Lemma scale_upper (t c x S P u : R) :
  (0 < u <= / 9007199254740992)%R -> (0 <= c <= 1099511627776)%R ->
  (0 < x)%R -> (0 < t)%R -> (x * t = 2000)%R ->
  (0 <= S <= x * (1 + u))%R -> (P <= c * S * (1 + u))%R ->
  (t * P < 2000 * c + 1)%R.
Proof.
  intros Hu Hc Hx Ht Hxt HS HP.
  assert (H1 : (c * S <= c * (x * (1 + u)))%R) by (apply Rmult_le_compat_l; lra).
  assert (H2 : (c * S * (1 + u) <= c * (x * (1 + u)) * (1 + u))%R)
    by (apply Rmult_le_compat_r; lra).
  assert (H3 : (t * P <= t * (c * (x * (1 + u)) * (1 + u)))%R)
    by (apply Rmult_le_compat_l; lra).
  replace (t * (c * (x * (1 + u)) * (1 + u)))%R
    with (2000 * c + 2 * 2000 * (c * u) + 2000 * (c * u * u))%R in H3
    by (rewrite <- Hxt; ring).
  assert (H4 : (c * u <= 1099511627776 * / 9007199254740992)%R)
    by (apply Rmult_le_compat; lra).
  assert (H5 : (0 <= c * u)%R) by (apply Rmult_le_pos; lra).
  assert (H6 : (c * u * u <= c * u * 1)%R) by (apply Rmult_le_compat_l; lra).
  lra.
Qed.

Lemma scale_lower (t c x S P u : R) :
  (0 < u <= / 9007199254740992)%R -> (0 <= c <= t)%R ->
  (0 < x)%R -> (0 < t)%R -> (x * t = 2000)%R ->
  (x * (1 - u) <= S)%R -> (c * S * (1 - u) <= P)%R ->
  (c * x - 1 <= P)%R.
Proof.
  intros Hu Hc Hx Ht Hxt HS HP.
  assert (H1 : (c * (x * (1 - u)) <= c * S)%R) by (apply Rmult_le_compat_l; lra).
  assert (H2 : (c * (x * (1 - u)) * (1 - u) <= c * S * (1 - u))%R)
    by (apply Rmult_le_compat_r; lra).
  assert (H3 : (c * x <= t * x)%R) by (apply Rmult_le_compat_r; lra).
  assert (H4 : (0 <= c * x)%R) by (apply Rmult_le_pos; lra).
  assert (H5 : (c * x * u <= 2000 * / 9007199254740992)%R).
  { apply Rmult_le_compat; lra. }
  assert (H6 : (0 <= c * x * u * u)%R).
  { apply Rmult_le_pos; [apply Rmult_le_pos|]; lra. }
  replace (c * (x * (1 - u)) * (1 - u))%R
    with (c * x - 2 * (c * x * u) + c * x * u * u)%R in H2 by ring.
  lra.
Qed.

(** [int(c * scale)] is the exact quotient [2000 c / T] rounded down, or one
    less. *)
Lemma capacity_scale (T c : Z) (ms : positive) (es : Z) :
  carrying_capacity < T < 2 ^ 40 -> 0 <= c <= T ->
  (2000 / IZR T * (1 - pow2 (-53)) <= F2R (Zpos ms) es
   <= 2000 / IZR T * (1 + pow2 (-53)))%R ->
  exists k, int_of_product c (S754_finite false ms es) = Ok k /\
            0 <= k /\ 2000 * c / T - 1 <= k <= 2000 * c / T.
Proof.
  unfold carrying_capacity. intros HT Hc HS.
  destruct (Z.eq_dec c 0) as [->|Hc0].
  { exists 0. split; [reflexivity|]. rewrite Z.mul_0_r, Z.div_0_l by lia. lia. }
  unfold int_of_product, int_mul_float.
  destruct (float_of_int_exact c ltac:(lia)) as (mc & ec & -> & Hvc). cbn [bind].
  pose proof (mul_rounded false mc ec false ms es) as Hr. cbn [xorb] in Hr.
  rewrite Hvc in Hr.
  set (S := F2R (Zpos ms) es) in *. rewrite pow2_m53 in HS.
  assert (Ht : (2000 < IZR T < 1099511627776)%R).
  { split; apply IZR_lt; lia. }
  assert (Hcr : (1 <= IZR c <= IZR T)%R) by (split; apply IZR_le; lia).
  set (x := (2000 / IZR T)%R) in *.
  assert (Hxt : (x * IZR T = 2000)%R) by (unfold x; field; lra).
  assert (Hx0 : (0 < x)%R) by (unfold x; apply Rdiv_lt_0_compat; lra).
  assert (Hxlo : (/ 2199023255552 <= x)%R).
  { destruct (Rle_lt_dec (/ 2199023255552) x) as [|Hlt]; [assumption|].
    exfalso. assert (x * IZR T < / 2199023255552 * 1099511627776)%R.
    { apply Rmult_le_0_lt_compat; lra. }
    lra. }
  set (u := (/ 9007199254740992)%R) in *.
  assert (Hu : (0 < u <= / 9007199254740992)%R) by (unfold u; lra).
  assert (Hxu : (0 <= x * u <= x * / 2)%R).
  { split; [apply Rmult_le_pos; lra|apply Rmult_le_compat_l; lra]. }
  assert (HSlo : (x * / 2 <= S)%R) by lra.
  assert (HS0 : (0 < S)%R) by lra.
  assert (HcS1 : (1 * S <= IZR c * S)%R) by (apply Rmult_le_compat_r; lra).
  assert (HcS2 : (IZR c * S <= IZR T * (x * (1 + u)))%R).
  { apply Rmult_le_compat; lra. }
  replace (IZR T * (x * (1 + u)))%R with (2000 + 2000 * u)%R in HcS2
    by (rewrite <- Hxt; ring).
  assert (Hrange : (pow2 (-1021) <= IZR c * S < pow2 970)%R).
  { pose proof (pow2_le (-1021) (-42) ltac:(lia)) as Hp.
    change (-42) with (- (42)) in Hp. rewrite pow2_neg, (pow2_IZR 42) in Hp by lia.
    change (2 ^ 42) with 4398046511104 in Hp. pose proof pow2_970_big.
    lra. }
  destruct (rounded_error _ _ Hr Hrange) as (mp & ep & Hp & Hv).
  unfold mul. rewrite Hp. rewrite pow2_m53 in Hv. fold u in Hv.
  set (P := F2R (Zpos mp) ep) in *.
  destruct (int_of_float_floor (S754_finite false mp ep) P) as (k & Hk & Hk0 & Hkv).
  { right. exists mp, ep. split; reflexivity. }
  exists k. split; [exact Hk|]. split; [exact Hk0|].
  (* the exact quotient and its integer part *)
  set (j := 2000 * c / T).
  pose proof (Z.mul_div_le (2000 * c) T ltac:(lia)) as Hj1.
  pose proof (Z.mul_succ_div_gt (2000 * c) T ltac:(lia)) as Hj2.
  fold j in Hj1, Hj2.
  assert (Hj1r : (IZR T * IZR j <= 2000 * IZR c)%R).
  { rewrite <- !mult_IZR. apply IZR_le; lia. }
  assert (Hj2r : (2000 * IZR c + 1 <= IZR T * (IZR j + 1))%R).
  { rewrite <- (plus_IZR j 1), <- !mult_IZR, <- plus_IZR. apply IZR_le; lia. }
  assert (Hq : (IZR T * (IZR c * x) = 2000 * IZR c)%R).
  { rewrite <- Hxt. ring. }
  pose proof (scale_upper (IZR T) (IZR c) x S P u Hu ltac:(lra) Hx0 ltac:(lra) Hxt
                ltac:(lra) ltac:(replace (IZR c * S * (1 + u))%R
                                   with (IZR c * S * (1 + u))%R by ring; lra)) as Hup.
  pose proof (scale_lower (IZR T) (IZR c) x S P u Hu ltac:(lra) Hx0 ltac:(lra) Hxt
                ltac:(lra) ltac:(lra)) as Hlow.
  split.
  - (* from below *)
    assert (HTj : (IZR T * IZR j <= IZR T * (IZR c * x))%R) by lra.
    assert (Hjq : (IZR j <= IZR c * x)%R) by (apply Rmult_le_reg_l with (IZR T); lra).
    assert (Hlt : (IZR j - 1 < IZR k + 1)%R) by lra.
    rewrite <- (plus_IZR k 1), <- (minus_IZR j 1) in Hlt. apply lt_IZR in Hlt. lia.
  - (* from above *)
    destruct (Z_le_gt_dec k j) as [|Hgt]; [assumption|exfalso].
    assert (Hkj : (IZR j + 1 <= IZR k)%R).
    { rewrite <- (plus_IZR j 1). apply IZR_le; lia. }
    assert (HTP : (IZR T * (IZR j + 1) <= IZR T * P)%R)
      by (apply Rmult_le_compat_l; lra).
    lra.
Qed.

(** ** Rounding to nearest even is monotone *)

(** The value to which a real is rounded grows with the real. *)
Lemma rounded_even_value_mono x y gx Mx gy My :
  (x <= y)%R ->
  (pow2 (gx - 1) <= x < pow2 gx)%R -> (pow2 (gy - 1) <= y < pow2 gy)%R ->
  (IZR Mx - / 2 <= x * pow2 (- fexp gx) <= IZR Mx + / 2)%R ->
  (IZR My - / 2 <= y * pow2 (- fexp gy) <= IZR My + / 2)%R ->
  (forall k, (x * pow2 (- fexp gx))%R = (IZR k + / 2)%R -> Z.even Mx = true) ->
  (forall k, (y * pow2 (- fexp gy))%R = (IZR k + / 2)%R -> Z.even My = true) ->
  (F2R Mx (fexp gx) <= F2R My (fexp gy))%R.
Proof.
  intros Hxy Hgx Hgy Hnx Hny Htx Hty.
  assert (Hg : gx <= gy).
  { assert (gx - 1 < gy) by (apply pow2_lt_inv; lra). lia. }
  pose proof (fexp_mono gx gy Hg) as HE.
  destruct (Z.eq_dec (fexp gx) (fexp gy)) as [Heq|Hne].
  - rewrite Heq in Hnx, Htx |- *. set (E := fexp gy) in *.
    assert (HM : Mx <= My).
    { pose proof (pow2_pos (- E)) as Hp.
      assert (Hs : (x * pow2 (- E) <= y * pow2 (- E))%R)
        by (apply Rmult_le_compat_r; lra).
      set (xs := (x * pow2 (- E))%R) in *. set (ys := (y * pow2 (- E))%R) in *.
      destruct (Z_le_gt_dec Mx My) as [|Hgt]; [assumption|exfalso].
      assert (H1 : (IZR My + 1 <= IZR Mx)%R)
        by (rewrite <- (plus_IZR My 1); apply IZR_le; lia).
      assert (Hxs : xs = (IZR My + / 2)%R) by lra.
      assert (Hys : ys = (IZR My + / 2)%R) by lra.
      assert (HMx : IZR Mx = IZR (My + 1)) by (rewrite plus_IZR; lra).
      apply eq_IZR in HMx.
      pose proof (Htx My Hxs) as Hex. pose proof (Hty My Hys) as Hey.
      rewrite HMx, Z.add_1_r, Z.even_succ, <- Z.negb_even, Hey in Hex.
      discriminate. }
    unfold F2R. apply Rmult_le_compat_r;
      [pose proof (pow2_pos E); lra|apply IZR_le; exact HM].
  - assert (HElt : fexp gx < fexp gy) by lia.
    assert (HEy : fexp gy = gy - 53) by (rewrite !fexp_eq in *; lia).
    assert (Hgxy : gx < gy).
    { destruct (Z.eq_dec gx gy) as [->|]; lia. }
    set (u := Z.max gx (fexp gx)).
    assert (Hux : (F2R Mx (fexp gx) <= pow2 u)%R).
    { set (k := u - fexp gx). assert (Hk : 0 <= k) by (unfold k, u; lia).
      assert (Hxs : (x * pow2 (- fexp gx) < pow2 k)%R).
      { unfold k. replace (u - fexp gx) with (u + - fexp gx) by lia.
        rewrite pow2_add.
        apply Rmult_lt_compat_r; [apply pow2_pos|].
        pose proof (pow2_le gx u ltac:(unfold u; lia)). lra. }
      rewrite (pow2_IZR k) in Hxs by assumption.
      assert (HMk : Mx <= 2 ^ k) by (apply IZR_le_half; lra).
      unfold F2R. replace u with (k + fexp gx) by (unfold k; lia).
      rewrite pow2_add.
      apply Rmult_le_compat_r; [pose proof (pow2_pos (fexp gx)); lra|].
      rewrite (pow2_IZR k) by assumption. apply IZR_le; exact HMk. }
    assert (Hly : (pow2 (gy - 1) <= F2R My (fexp gy))%R).
    { assert (Hys : (pow2 52 <= y * pow2 (- fexp gy))%R).
      { replace 52 with (gy - 1 + - fexp gy) by lia. rewrite pow2_add.
        apply Rmult_le_compat_r; [pose proof (pow2_pos (- fexp gy)); lra|lra]. }
      rewrite (pow2_IZR 52) in Hys by lia.
      assert (HM52 : 2 ^ 52 <= My) by (apply IZR_le_half; lra).
      unfold F2R. replace (gy - 1) with (52 + fexp gy) by lia.
      rewrite pow2_add.
      apply Rmult_le_compat_r; [pose proof (pow2_pos (fexp gy)); lra|].
      rewrite (pow2_IZR 52) by lia. apply IZR_le; exact HM52. }
    pose proof (pow2_le u (gy - 1) ltac:(unfold u; lia)). lra.
Qed.

Lemma F2R_pos m e : (0 < F2R (Zpos m) e)%R.
Proof.
  unfold F2R. apply Rmult_lt_0_compat; [apply IZR_lt; lia|apply pow2_pos].
Qed.

Lemma F2R_neg m e : F2R (Zneg m) e = (- F2R (Zpos m) e)%R.
Proof.
  unfold F2R. change (Zneg m) with (- Zpos m). rewrite opp_IZR. ring.
Qed.

Lemma rounded_even_mono sx x y rx ry :
  (x <= y)%R -> rounded_even sx x rx -> rounded_even sx y ry ->
  if sx then float_le ry rx else float_le rx ry.
Proof.
  intros Hxy (gx & Mx & Hgx & HMx & Hnx & Htx & Hrx)
             (gy & My & Hgy & HMy & Hny & Hty & Hry).
  pose proof (rounded_even_value_mono x y gx Mx gy My Hxy Hgx Hgy Hnx Hny Htx Hty) as Hv.
  pose proof (pow2_pos (fexp gx)) as Hpx. pose proof (pow2_pos (fexp gy)) as Hpy.
  pose proof (pow2_pos emax) as Hpe.
  assert (Hzx : Mx = 0 -> F2R Mx (fexp gx) = 0%R) by (intros ->; unfold F2R; ring).
  assert (Hzy : My = 0 -> F2R My (fexp gy) = 0%R) by (intros ->; unfold F2R; ring).
  assert (Hqx : 0 < Mx -> (0 < F2R Mx (fexp gx))%R).
  { intros H. unfold F2R. apply Rmult_lt_0_compat; [apply IZR_lt; lia|exact Hpx]. }
  assert (Hqy : 0 < My -> (0 < F2R My (fexp gy))%R).
  { intros H. unfold F2R. apply Rmult_lt_0_compat; [apply IZR_lt; lia|exact Hpy]. }
  destruct Hrx as [[Hx0 ->]|[(Hx0 & mx & ex & -> & Hvx & Hbx)|(Hx0 & -> & Hbx)]];
    destruct Hry as [[Hy0 ->]|[(Hy0 & my & ey & -> & Hvy & Hby)|(Hy0 & -> & Hby)]];
    try (specialize (Hzx Hx0)); try (specialize (Hzy Hy0));
    try (specialize (Hqx Hx0)); try (specialize (Hqy Hy0));
    destruct sx; cbn [float_le FR cond_Zopp Z.opp];
    rewrite ?F2R_neg; try exact I; try lra;
    try (pose proof (F2R_pos my ey); lra);
    try (pose proof (F2R_pos mx ex); lra).
Qed.

Lemma rounded_even_shape sx x r :
  rounded_even sx x r ->
  r = S754_zero sx \/ (exists m e, r = S754_finite sx m e) \/ r = S754_infinity sx.
Proof.
  intros (g & M & _ & _ & _ & _ & Hres).
  destruct Hres as [[_ ->]|[(_ & m & e & -> & _)|(_ & -> & _)]]; eauto.
Qed.

(** A float not above zero is not above a float not below zero. *)
Lemma float_le_through_zero r1 r2 :
  float_le r1 (S754_zero false) -> float_le (S754_zero false) r2 -> float_le r1 r2.
Proof.
  destruct r1 as [[|]|[|]| |[|] m1 e1], r2 as [[|]|[|]| |[|] m2 e2];
    cbn [float_le FR cond_Zopp Z.opp]; intros H1 H2;
    try exact I; try contradiction; lra.
Qed.

Lemma rounded_even_ge_zero x r : rounded_even false x r -> float_le (S754_zero false) r.
Proof.
  intros H. destruct (rounded_even_shape _ _ _ H) as [->|[(m & e & ->)| ->]];
    cbn [float_le FR cond_Zopp]; try exact I; try lra.
  pose proof (F2R_pos m e). lra.
Qed.

Lemma rounded_even_le_zero x r : rounded_even true x r -> float_le r (S754_zero false).
Proof.
  intros H. destruct (rounded_even_shape _ _ _ H) as [->|[(m & e & ->)| ->]];
    cbn [float_le FR cond_Zopp Z.opp]; try exact I; try lra.
  rewrite F2R_neg. pose proof (F2R_pos m e). lra.
Qed.

Theorem srounded_mono v1 v2 r1 r2 :
  (v1 <= v2)%R -> srounded v1 r1 -> srounded v2 r2 -> float_le r1 r2.
Proof.
  intros Hv [[H1 [s1 ->]]|[[H1 Hr1]|[H1 Hr1]]] [[H2 [s2 ->]]|[[H2 Hr2]|[H2 Hr2]]];
    try (exfalso; lra).
  - cbn. lra.
  - apply float_le_through_zero; [cbn; lra|apply (rounded_even_ge_zero v2); exact Hr2].
  - exact (rounded_even_mono false v1 v2 r1 r2 Hv Hr1 Hr2).
  - apply float_le_through_zero; [apply (rounded_even_le_zero (- v1)); exact Hr1|cbn; lra].
  - apply float_le_through_zero;
      [apply (rounded_even_le_zero (- v1)); exact Hr1
      |apply (rounded_even_ge_zero v2); exact Hr2].
  - exact (rounded_even_mono true (- v2) (- v1) r2 r1 ltac:(lra) Hr2 Hr1).
Qed.

Lemma srounded_not_nan v r : srounded v r -> r <> S754_nan.
Proof.
  intros [[_ [s ->]]|[[_ H]|[_ H]]]; try discriminate;
    destruct (rounded_even_shape _ _ _ H) as [->|[(m & e & ->)| ->]]; discriminate.
Qed.

(** *** The operations of the sex ratio *)

Lemma F2R_cond_Zopp s m e :
  F2R (cond_Zopp s m) e = (if s then - F2R m e else F2R m e)%R.
Proof.
  destruct s; cbn [cond_Zopp]; [|reflexivity].
  unfold F2R. rewrite opp_IZR. ring.
Qed.

Lemma binary_normalize_srounded (m e : Z) :
  srounded (F2R m e) (binary_normalize prec emax m e false).
Proof.
  destruct m as [|p|p]; cbn [binary_normalize].
  - left. split; [unfold F2R; simpl; ring|exists false; reflexivity].
  - right; left. split; [apply F2R_pos|apply binary_round_rounded_even].
  - right; right. rewrite F2R_neg. split; [pose proof (F2R_pos p e); lra|].
    rewrite Ropp_involutive. apply binary_round_rounded_even.
Qed.

Lemma aligned_value (s : bool) (m : positive) (e e' : Z) :
  F2R (cond_Zopp s (Zpos (fst (shl_align m e (Z.min e e'))))) (Z.min e e') =
  F2R (cond_Zopp s (Zpos m)) e.
Proof.
  pose proof (F2R_shl_align m e (Z.min e e')) as H.
  destruct (shl_align_spec m e (Z.min e e')) as [He _].
  rewrite He in H. replace (Z.min e (Z.min e e')) with (Z.min e e') in H by lia.
  rewrite !F2R_cond_Zopp, H. reflexivity.
Qed.

Lemma F2R_plus a b e : F2R (a + b) e = (F2R a e + F2R b e)%R.
Proof. unfold F2R. rewrite plus_IZR. ring. Qed.

Lemma F2R_minus a b e : F2R (a - b) e = (F2R a e - F2R b e)%R.
Proof. unfold F2R. rewrite minus_IZR. ring. Qed.

Theorem sub_srounded sx mx ex sy my ey :
  srounded (FR (S754_finite sx mx ex) - FR (S754_finite sy my ey))
    (S754_finite sx mx ex - S754_finite sy my ey)%fl.
Proof.
  unfold sub. cbn [SFsub FR].
  rewrite <- (aligned_value sx mx ex ey), <- (aligned_value sy my ey ex).
  rewrite (Z.min_comm ey ex), <- F2R_minus.
  apply binary_normalize_srounded.
Qed.

Theorem add_srounded sx mx ex sy my ey :
  srounded (FR (S754_finite sx mx ex) + FR (S754_finite sy my ey))
    (S754_finite sx mx ex + S754_finite sy my ey)%fl.
Proof.
  unfold add. cbn [SFadd FR].
  rewrite <- (aligned_value sx mx ex ey), <- (aligned_value sy my ey ex).
  rewrite (Z.min_comm ey ex), <- F2R_plus.
  apply binary_normalize_srounded.
Qed.

Lemma float_le_finite x y :
  is_finite x -> is_finite y -> float_le x y -> (FR x <= FR y)%R.
Proof.
  destruct x as [sx|sx| |sx mx ex], y as [sy|sy| |sy my ey];
    try contradiction; intros _ _ H; exact H.
Qed.

Lemma float_le_not_nan x y : float_le x y -> x <> S754_nan /\ y <> S754_nan.
Proof.
  destruct x as [sx|[|]| |sx mx ex], y as [sy|[|]| |sy my ey];
    try contradiction; intros _; split; discriminate.
Qed.

Lemma float_le_inf_r x : x <> S754_nan -> float_le x (S754_infinity false).
Proof. destruct x as [s|[|]| |s m e]; try contradiction; intros _; exact I. Qed.

Lemma float_le_inf_l y : y <> S754_nan -> float_le (S754_infinity true) y.
Proof. destruct y as [s|[|]| |s m e]; try contradiction; intros _; exact I. Qed.

Lemma F2R_29 : F2R 8162774324609024 (-48) = 29%R.
Proof.
  unfold F2R. change (-48) with (- (48)). rewrite pow2_neg, (pow2_IZR 48) by lia.
  change (2 ^ 48) with 281474976710656. field.
Qed.

Lemma F2R_half : F2R 4503599627370496 (-53) = (/ 2)%R.
Proof.
  unfold F2R. change (-53) with (- (53)). rewrite pow2_neg, (pow2_IZR 53) by lia.
  change (2 ^ 53) with 9007199254740992. field.
Qed.

(** The difference with the pivotal temperature. *)
Lemma sub_pivot_srounded (temp : float) :
  is_finite temp -> srounded (FR temp - 29) (temp - of_Z 29)%fl.
Proof.
  change (of_Z 29) with (S754_finite false 8162774324609024 (-48)).
  destruct temp as [s| | |s m e]; try contradiction; intros _.
  - right; right. cbn [FR]. split; [lra|].
    replace (- (0 - 29))%R with (F2R 8162774324609024 (-48)) by (rewrite F2R_29; ring).
    pose proof (binary_round_rounded_even true 8162774324609024 (-48)) as H.
    exact H.
  - replace 29%R with (FR (S754_finite false 8162774324609024 (-48)))
      by (cbn [FR cond_Zopp]; apply F2R_29).
    apply sub_srounded.
Qed.

Lemma sub_pivot_mono (t1 t2 : float) :
  is_finite t1 -> is_finite t2 -> float_le t1 t2 ->
  float_le (t1 - of_Z 29)%fl (t2 - of_Z 29)%fl.
Proof.
  intros H1 H2 Hle.
  pose proof (float_le_finite t1 t2 H1 H2 Hle) as Hv.
  apply (srounded_mono (FR t1 - 29) (FR t2 - 29)); [lra| |];
    apply sub_pivot_srounded; assumption.
Qed.

(** The product with minus the transition rate. *)
Lemma mul_neg_half_srounded (d : float) :
  is_finite d -> srounded (- (/ 2 * FR d)) (- decimal 5 10 * d)%fl.
Proof.
  change (- decimal 5 10)%fl with (S754_finite true 4503599627370496 (-53)).
  destruct d as [s| | |s m e]; try contradiction; intros _.
  - left. split; [cbn [FR]; ring|exists (xorb true s); reflexivity].
  - pose proof (mul_rounded_even true 4503599627370496 (-53) s m e) as H.
    rewrite F2R_half in H.
    assert (Hd : 53 <= Zdigits2 (Zpos (4503599627370496 * m))).
    { apply Zdigits2_ge; [lia|]. change (2 ^ (53 - 1)) with 4503599627370496. lia. }
    specialize (H ltac:(rewrite fexp_eq; lia)).
    pose proof (F2R_pos m e) as Hp.
    cbn [FR]. rewrite F2R_cond_Zopp. unfold mul.
    destruct s; cbn [xorb] in H.
    + right; left. split; [lra|].
      replace (- (/ 2 * - F2R (Zpos m) e))%R with (/ 2 * F2R (Zpos m) e)%R by ring.
      exact H.
    + right; right. split; [lra|].
      replace (- - (/ 2 * F2R (Zpos m) e))%R with (/ 2 * F2R (Zpos m) e)%R by ring.
      exact H.
Qed.

Lemma mul_neg_half_not_nan (d : float) :
  d <> S754_nan -> (- decimal 5 10 * d)%fl <> S754_nan.
Proof.
  intros Hd. destruct d as [s|s| |s m e]; try contradiction; try discriminate.
  apply (srounded_not_nan (- (/ 2 * FR (S754_finite s m e)))).
  apply mul_neg_half_srounded. exact I.
Qed.

Lemma mul_neg_half_antitone (d1 d2 : float) :
  float_le d1 d2 -> float_le (- decimal 5 10 * d2)%fl (- decimal 5 10 * d1)%fl.
Proof.
  intros Hle. destruct (float_le_not_nan _ _ Hle) as [Hn1 Hn2].
  assert (Hfin : is_finite d1 -> is_finite d2 ->
                 float_le (- decimal 5 10 * d2)%fl (- decimal 5 10 * d1)%fl).
  { intros H1 H2. pose proof (float_le_finite d1 d2 H1 H2 Hle) as Hv.
    apply (srounded_mono (- (/ 2 * FR d2)) (- (/ 2 * FR d1))); [lra| |];
      apply mul_neg_half_srounded; assumption. }
  destruct d1 as [s1|[|]| |s1 m1 e1].
  - destruct d2 as [s2|[|]| |s2 m2 e2]; try contradiction; try (apply Hfin; exact I).
    apply float_le_inf_l, mul_neg_half_not_nan; discriminate.
  - (* d1 = -inf *)
    apply float_le_inf_r, mul_neg_half_not_nan; exact Hn2.
  - (* d1 = +inf *)
    destruct d2 as [s2|[|]| |s2 m2 e2]; try contradiction. exact I.
  - contradiction.
  - destruct d2 as [s2|[|]| |s2 m2 e2]; try contradiction; try (apply Hfin; exact I).
    apply float_le_inf_l, mul_neg_half_not_nan; discriminate.
Qed.

(** One plus the exponential. *)
Lemma add_one_srounded (e : float) :
  is_finite e -> srounded (1 + FR e) (of_Z 1 + e)%fl.
Proof.
  rewrite of_Z_one. destruct e as [s| | |s m ex]; try contradiction; intros _.
  - right; left. cbn [FR]. split; [lra|].
    replace (1 + 0)%R with (F2R 4503599627370496 (-52)) by (rewrite F2R_one; ring).
    exact (binary_round_rounded_even false 4503599627370496 (-52)).
  - replace 1%R with (FR (S754_finite false 4503599627370496 (-52)))
      by (cbn [FR cond_Zopp]; apply F2R_one).
    apply add_srounded.
Qed.

Lemma add_one_not_nan (e : float) : e <> S754_nan -> (of_Z 1 + e)%fl <> S754_nan.
Proof.
  intros He. destruct e as [s|s| |s m ex]; try contradiction; try discriminate.
  apply (srounded_not_nan (1 + FR (S754_finite s m ex))).
  apply add_one_srounded. exact I.
Qed.

Lemma add_one_mono (e1 e2 : float) :
  float_le e1 e2 -> float_le (of_Z 1 + e1)%fl (of_Z 1 + e2)%fl.
Proof.
  intros Hle. destruct (float_le_not_nan _ _ Hle) as [Hn1 Hn2].
  assert (Hfin : is_finite e1 -> is_finite e2 ->
                 float_le (of_Z 1 + e1)%fl (of_Z 1 + e2)%fl).
  { intros H1 H2. pose proof (float_le_finite e1 e2 H1 H2 Hle) as Hv.
    apply (srounded_mono (1 + FR e1) (1 + FR e2)); [lra| |];
      apply add_one_srounded; assumption. }
  destruct e1 as [s1|[|]| |s1 m1 x1].
  - destruct e2 as [s2|[|]| |s2 m2 x2]; try contradiction; try (apply Hfin; exact I).
    apply float_le_inf_r, add_one_not_nan; discriminate.
  - apply float_le_inf_l, add_one_not_nan; exact Hn2.
  - destruct e2 as [s2|[|]| |s2 m2 x2]; try contradiction. exact I.
  - contradiction.
  - destruct e2 as [s2|[|]| |s2 m2 x2]; try contradiction; try (apply Hfin; exact I).
    apply float_le_inf_r, add_one_not_nan; discriminate.
Qed.

(** The reciprocal of a float that is at least 1. *)
Lemma recip_rounded_even (m : positive) (ex : Z) :
  (1 <= F2R (Zpos m) ex < pow2 1024)%R ->
  rounded_even false (/ F2R (Zpos m) ex) (of_Z 1 / S754_finite false m ex)%fl.
Proof.
  intros Hy. rewrite of_Z_one.
  set (vy := F2R (Zpos m) ex) in *.
  assert (Hinv : (/ vy * vy = 1)%R) by (field; lra).
  assert (Hinv0 : (0 < / vy)%R) by (apply Rinv_0_lt_compat; lra).
  pose proof (pow2_opp 1024) as Ho. pose proof (pow2_pos (- (1024))) as Hq.
  assert (Hlow : (pow2 (-1074) <= / vy)%R).
  { pose proof (pow2_le (-1074) (-1024) ltac:(lia)) as Hpl.
    change (-1024) with (- (1024)) in Hpl.
    assert (H1 : (pow2 (- (1024)) * vy < pow2 (- (1024)) * pow2 1024)%R)
      by (apply Rmult_lt_compat_l; lra).
    destruct (Rle_lt_dec (pow2 (- (1024))) (/ vy)) as [|Hlt]; [lra|exfalso].
    assert (H2 : (/ vy * vy < pow2 (- (1024)) * vy)%R)
      by (apply Rmult_lt_compat_r; lra).
    lra. }
  pose proof (div_rounded_even false 4503599627370496 (-52) false m ex) as Hr.
  rewrite F2R_one in Hr. fold vy in Hr. cbn [xorb] in Hr.
  replace (1 / vy)%R with (/ vy)%R in Hr by (field; lra).
  exact (Hr Hlow).
Qed.

Lemma recip_antitone (s1 s2 : float) :
  (s1 = S754_infinity false \/
   exists m ex, s1 = S754_finite false m ex /\ (1 <= F2R (Zpos m) ex < pow2 1024)%R) ->
  (s2 = S754_infinity false \/
   exists m ex, s2 = S754_finite false m ex /\ (1 <= F2R (Zpos m) ex < pow2 1024)%R) ->
  float_le s1 s2 -> float_le (of_Z 1 / s2)%fl (of_Z 1 / s1)%fl.
Proof.
  intros [->|(m1 & x1 & -> & H1)] [->|(m2 & x2 & -> & H2)] Hle.
  - rewrite of_Z_one. cbn. lra.
  - contradiction.
  - change (of_Z 1 / S754_infinity false)%fl with (S754_zero false).
    apply (rounded_even_ge_zero (/ F2R (Zpos m1) x1)), recip_rounded_even; exact H1.
  - cbn [float_le FR cond_Zopp] in Hle.
    apply (rounded_even_mono false (/ F2R (Zpos m2) x2) (/ F2R (Zpos m1) x1));
      [|apply recip_rounded_even; assumption..].
    apply Rinv_le_contravar; lra.
Qed.

(** The female ratio does not decrease with the temperature, where the
    exponential does not decrease. *)
Lemma female_ratio_monotone (np_exp : float -> float) (t1 t2 : float) :
  (forall x, x <> S754_nan -> nonneg_float (np_exp x)) ->
  is_finite t1 -> is_finite t2 -> float_le t1 t2 ->
  float_le (- decimal 5 10 * (t2 - of_Z 29))%fl (- decimal 5 10 * (t1 - of_Z 29))%fl /\
  (float_le (np_exp (- decimal 5 10 * (t2 - of_Z 29))%fl)
            (np_exp (- decimal 5 10 * (t1 - of_Z 29))%fl) ->
   float_le (get_female_ratio np_exp t1 (of_Z 29) (decimal 5 10))
            (get_female_ratio np_exp t2 (of_Z 29) (decimal 5 10))).
Proof.
  intros Hnn H1 H2 Hle. unfold get_female_ratio.
  pose proof (mul_neg_half_antitone _ _ (sub_pivot_mono t1 t2 H1 H2 Hle)) as Harg.
  split; [exact Harg|]. intros Hexp.
  destruct (float_le_not_nan _ _ Harg) as [Hn2 Hn1].
  apply recip_antitone.
  - apply add_one_spec, Hnn; exact Hn2.
  - apply add_one_spec, Hnn; exact Hn1.
  - apply add_one_mono; exact Hexp.
Qed.

(** *** The comparison of floats *)

Lemma F2R_align (m e e0 : Z) : e0 <= e -> F2R m e = F2R (m * 2 ^ (e - e0)) e0.
Proof.
  intros H. unfold F2R. rewrite mult_IZR, <- pow2_IZR by lia.
  rewrite Rmult_assoc, <- pow2_add. f_equal. f_equal. lia.
Qed.

Lemma F2R_le_iff (m1 e1 m2 e2 : Z) :
  (F2R m1 e1 <= F2R m2 e2)%R <->
  m1 * 2 ^ (e1 - Z.min e1 e2) <= m2 * 2 ^ (e2 - Z.min e1 e2).
Proof.
  rewrite (F2R_align m1 e1 (Z.min e1 e2)), (F2R_align m2 e2 (Z.min e1 e2)) by lia.
  unfold F2R. pose proof (pow2_pos (Z.min e1 e2)) as Hp. split.
  - intros H. apply le_IZR. apply (Rmult_le_reg_r _ _ _ Hp). exact H.
  - intros H. apply Rmult_le_compat_r; [lra|apply IZR_le; exact H].
Qed.

Lemma FR_F2R (x : float) : FR x = F2R (Zmant x) (Zexp x).
Proof.
  destruct x as [s|s| |s m e]; cbn [FR Zmant Zexp]; try reflexivity;
    unfold F2R; simpl; ring.
Qed.

Theorem float_leb_le (x y : float) : float_leb x y = true <-> float_le x y.
Proof.
  destruct x as [sx|[|]| |sx mx ex], y as [sy|[|]| |sy my ey];
    cbn [float_leb float_le];
    try (split; [intros _; exact I|reflexivity]);
    try (split; [discriminate|contradiction]);
    rewrite Z.leb_le, !FR_F2R; symmetry; apply F2R_le_iff.
Qed.

(** Quotients by constants, for [lia]. *)
Ltac Zify.zify_post_hook ::= Z.div_mod_to_equations.

(** ** The stages of one generation *)

Lemma int_of_product_nan (n : Z) : exists e, int_of_product n S754_nan = Raise e.
Proof.
  unfold int_of_product, int_mul_float, float_of_int.
  destruct (of_Z n) as [s|s| |s m e]; cbn; eauto.
Qed.

Lemma mature_females_of_spec (female_counts : list Z) (females : Z) :
  mature_females_of female_counts females =
  Ok (if maturity_age <=? Z.of_nat (length female_counts)
      then nth (length female_counts - 4) female_counts 0
      else females).
Proof.
  unfold mature_females_of, maturity_age.
  destruct (4 <=? Z.of_nat (length female_counts)) eqn:Hlen; [|reflexivity].
  apply Z.leb_le in Hlen. unfold getitem.
  change (- (4)) with (-4). change (-4 <? 0) with true. cbv iota.
  replace ((-4 + Z.of_nat (length female_counts) <? 0)
           || (Z.of_nat (length female_counts) <=? -4 + Z.of_nat (length female_counts)))
    with false.
  - f_equal. f_equal. lia.
  - symmetry. apply orb_false_iff. split; [apply Z.ltb_ge|apply Z.leb_gt]; lia.
Qed.

Lemma reproduction_bounds (mf m : Z) (fr mr : float) (nm nf : Z) :
  0 <= mf -> 0 <= m <= carrying_capacity ->
  (fr = S754_nan /\ mr = S754_nan) \/ (unit_float fr /\ unit_float mr) ->
  reproduction mf m fr mr = Ok (nm, nf) ->
  0 <= nm <= 80 * Z.min mf m /\ 0 <= nf <= 80 * Z.min mf m.
Proof.
  intros Hmf Hm Hratio. unfold reproduction.
  rewrite survivors_table by lia. cbn [bind].
  assert (Hp : 0 <= 80 * Z.min mf m < 2 ^ 53) by (unfold carrying_capacity in Hm; lia).
  destruct Hratio as [[-> ->]|[Hfr Hmr]].
  - destruct (int_of_product_nan (80 * Z.min mf m)) as [e ->]. discriminate.
  - destruct (int_of_product_unit _ _ Hp Hmr) as (km & -> & Hkm).
    destruct (int_of_product_unit _ _ Hp Hfr) as (kf & -> & Hkf).
    cbn [bind]. intros [= <- <-]. split; assumption.
Qed.

Lemma collapse_guard_spec (m nm nf f : Z) :
  0 <= f <= carrying_capacity ->
  collapse_guard m nm nf f =
  Ok (if m <=? 5 then (Z.max 0 (nm / 2), Z.max 0 (nf / 2), 17 * f / 20)
      else (nm, nf, f)).
Proof.
  intros Hf. unfold collapse_guard. destruct (m <=? 5); [|reflexivity].
  rewrite guard_table by exact Hf. reflexivity.
Qed.

Lemma mortality_spec (cooling : bool) (m f : Z) :
  0 <= m <= carrying_capacity -> 0 <= f <= carrying_capacity ->
  mortality cooling m f =
  Ok (if cooling then (9 * m / 10, 19 * (9 * f / 10) / 20)
      else (4 * m / 5, 9 * f / 10)).
Proof.
  intros Hm Hf. unfold mortality, carrying_capacity in *. destruct cooling; cbn [negb].
  - rewrite adult_table by (unfold carrying_capacity; lia). cbn [bind].
    rewrite adult_table by (unfold carrying_capacity; lia). cbn [bind].
    rewrite cold_female_table by (unfold carrying_capacity; lia). reflexivity.
  - rewrite warm_male_table by (unfold carrying_capacity; lia). cbn [bind].
    rewrite adult_table by (unfold carrying_capacity; lia). reflexivity.
Qed.

Lemma capacity_constraint_bounds (m f m' f' : Z) :
  0 <= m -> 0 <= f -> m + f < 2 ^ 40 ->
  capacity_constraint m f = Ok (m', f') ->
  (m + f <= carrying_capacity /\ m' = m /\ f' = f) \/
  (carrying_capacity < m + f /\ 0 <= m' /\ 0 <= f' /\
   2000 * m / (m + f) - 1 <= m' <= 2000 * m / (m + f) /\
   f' <= 2000 * f / (m + f)).
Proof.
  intros Hm Hf HT. unfold capacity_constraint.
  destruct (carrying_capacity <? m + f) eqn:Hcap.
  - apply Z.ltb_lt in Hcap.
    destruct (truediv_capacity (m + f) ltac:(lia)) as (ms & es & -> & Hs). cbn [bind].
    destruct (capacity_scale (m + f) f ms es ltac:(lia) ltac:(lia) Hs) as (kf & -> & Hkf0 & Hkf).
    destruct (capacity_scale (m + f) m ms es ltac:(lia) ltac:(lia) Hs) as (km & -> & Hkm0 & Hkm).
    cbn [bind]. intros [= <- <-]. right. repeat split; lia.
  - apply Z.ltb_ge in Hcap. intros [= <- <-]. left. repeat split; lia.
Qed.

Lemma capacity_constraint_viable (m f m' f' : Z) :
  0 <= m -> 0 <= f -> m + f < 2 ^ 40 ->
  capacity_constraint m f = Ok (m', f') ->
  (m + f <= carrying_capacity /\ m' = m /\ f' = f) \/
  (carrying_capacity < m + f /\ 0 <= m' /\ 0 <= f' /\
   m' + f' <= carrying_capacity /\
   (2 * (m + f) <= 2000 * m -> 1 <= m')).
Proof.
  intros Hm Hf HT Hcap.
  destruct (capacity_constraint_bounds m f m' f' Hm Hf HT Hcap)
    as [H|(Hlt & Hm' & Hf' & Hmb & Hfb)]; [left; exact H|right].
  unfold carrying_capacity in *.
  assert (HTpos : 0 < m + f) by lia.
  split; [exact Hlt|]. split; [exact Hm'|]. split; [exact Hf'|]. split.
  - pose proof (div_sum_le (2000 * m) (2000 * f) (m + f) HTpos) as Hsum.
    replace (2000 * m + 2000 * f) with (2000 * (m + f)) in Hsum by ring.
    rewrite Z.div_mul in Hsum by lia.
    destruct Hmb as [_ Hmb]. clear - Hsum Hmb Hfb.
    set (a := 2000 * m / (m + f)) in *. set (b := 2000 * f / (m + f)) in *.
    clearbody a b. lia.
  - intros H2.
    assert (2 <= 2000 * m / (m + f)).
    { apply Z.div_le_lower_bound; [exact HTpos|]. rewrite Z.mul_comm. exact H2. }
    destruct Hmb as [Hmb _]. clear - H Hmb.
    set (a := 2000 * m / (m + f)) in *. clearbody a. lia.
Qed.

(** ** What every recorded state satisfies *)

Lemma combine_snoc {A B} (l : list A) (l' : list B) (a : A) (b : B) :
  length l' = length l -> combine (l ++ [a]) (l' ++ [b]) = combine l l' ++ [(a, b)].
Proof.
  revert l'. induction l as [|x l IH]; intros [|y l'] Hlen; try discriminate.
  - reflexivity.
  - cbn. f_equal. apply IH. cbn in Hlen. congruence.
Qed.

Lemma recorded_females_nonneg (ms fs : list Z) (i : nat) :
  length fs = length ms ->
  Forall (fun p => viable (fst p) (snd p)) (combine ms fs) ->
  0 <= nth i fs 0.
Proof.
  revert fs i. induction ms as [|m ms IH]; intros [|f fs] i Hlen HF; try discriminate.
  - destruct i; cbn; lia.
  - cbn in HF. inversion HF as [|p l Hp Hl]; subst. destruct i as [|i]; cbn.
    + destruct Hp as (_ & Hf & _). exact Hf.
    + apply IH; [cbn in Hlen; congruence|exact Hl].
Qed.

(** One generation takes a viable state with both sexes present to a viable
    state, which is what the rest of the loop body receives. *)
Lemma generation_viable {A} (cooling : bool) (m f mf nm nf : Z)
    (k : Z * Z -> result A) (r : A) :
  viable m f -> 1 <= m -> 1 <= f -> 0 <= mf ->
  0 <= nm <= 80 * Z.min mf m -> 0 <= nf <= 80 * Z.min mf m ->
  ('(new_males, new_females, females0) <- collapse_guard m nm nf f ;;
   '(males1, females1) <- mortality cooling m females0 ;;
   let '(males2, females2) := add_newborns males1 females1 new_males new_females in
   let '(males3, females3) := extinction_rule males2 females2 in
   p <- capacity_constraint males3 females3 ;; k p) = Ok r ->
  exists m4 f4, viable m4 f4 /\ k (m4, f4) = Ok r.
Proof.
  intros (Hm0 & Hf0 & Hsum & _) Hm1 Hf1 Hmf Hnm Hnf.
  unfold carrying_capacity in Hsum.
  rewrite collapse_guard_spec by (unfold carrying_capacity; lia). cbn [bind].
  destruct (m <=? 5) eqn:Hguard;
    [apply Z.leb_le in Hguard|apply Z.leb_gt in Hguard];
    (rewrite mortality_spec by (unfold carrying_capacity; lia)); cbn [bind];
    destruct cooling; unfold add_newborns; cbv zeta; unfold extinction_rule;
    match goal with |- context [?a =? 0] => destruct (a =? 0) eqn:Hext end;
    [apply Z.eqb_eq in Hext|apply Z.eqb_neq in Hext|apply Z.eqb_eq in Hext
    |apply Z.eqb_neq in Hext|apply Z.eqb_eq in Hext|apply Z.eqb_neq in Hext
    |apply Z.eqb_eq in Hext|apply Z.eqb_neq in Hext];
    match goal with
    | |- context [capacity_constraint ?a ?b] =>
        destruct (capacity_constraint a b) as [[m4 f4]|e] eqn:Hcap
    end; cbn [bind]; try discriminate;
    intros Hk; exists m4, f4; (split; [|exact Hk]);
    apply capacity_constraint_viable in Hcap; try lia;
    unfold viable, carrying_capacity in *; lia.
Qed.

(** ** The loop *)

Lemma loop_body_records np_exp cooling temp st st' :
  loop_body np_exp cooling temp st = Ok st' ->
  male_counts st' = male_counts st ++ [males st'] /\
  female_counts st' = female_counts st ++ [females st'] /\
  total_population st' = total_population st ++ [males st' + females st'].
Proof.
  unfold loop_body.
  destruct (mature_females_of _ _) as [mf|]; cbn [bind]; [|discriminate].
  destruct (reproduction _ _ _ _) as [[nm nf]|]; cbn [bind]; [|discriminate].
  destruct (collapse_guard _ _ _ _) as [[[nm' nf'] f0]|]; cbn [bind]; [|discriminate].
  destruct (mortality _ _ _) as [[m1 f1]|]; cbn [bind]; [|discriminate].
  unfold add_newborns. destruct (extinction_rule _ _) as [m3 f3].
  destruct (capacity_constraint _ _) as [[m4 f4]|]; cbn [bind]; [|discriminate].
  intros [= <-]. cbn. auto.
Qed.

Lemma loop_body_inv np_exp cooling temp st st' :
  exp_range np_exp -> Inv st -> 1 <= males st -> 1 <= females st ->
  loop_body np_exp cooling temp st = Ok st' -> Inv st'.
Proof.
  intros Hexp (Hv & Hlf & Hlt & Hall) Hm Hf Hbody.
  pose proof (loop_body_records _ _ _ _ _ Hbody) as (Hms & Hfs & Htot).
  revert Hbody. unfold loop_body.
  rewrite mature_females_of_spec. cbn [bind].
  set (mf := if maturity_age <=? Z.of_nat (length (female_counts st))
             then nth (length (female_counts st) - 4) (female_counts st) 0
             else females st).
  assert (Hmf : 0 <= mf).
  { unfold mf. destruct (maturity_age <=? _); [|lia].
    apply (recorded_females_nonneg (male_counts st)); assumption. }
  destruct (reproduction _ _ _ _) as [[nm nf]|] eqn:Hrep; cbn [bind]; [|discriminate].
  apply reproduction_bounds in Hrep;
    [|exact Hmf|destruct Hv as (? & ? & ? & _); lia|apply ratios_unit; exact Hexp].
  destruct Hrep as [Hnm Hnf].
  intros Hk.
  apply (generation_viable cooling (males st) (females st) mf nm nf) in Hk;
    try assumption.
  destruct Hk as (m4 & f4 & Hv4 & Hk). cbn in Hk. injection Hk as <-.
  cbn in *. unfold Inv. cbn.
  rewrite !length_app, Hlf, Hlt. repeat split; try exact (proj1 Hv4); try apply Hv4.
  rewrite combine_snoc by exact Hlf.
  apply Forall_app. split; [exact Hall|]. constructor; [exact Hv4|constructor].
Qed.

Lemma loop_inv np_exp cooling temp_range : forall st st',
  exp_range np_exp -> Inv st ->
  loop np_exp cooling temp_range st = Ok st' -> Inv st'.
Proof.
  induction temp_range as [|temp rest IH]; intros st st' Hexp Hinv; cbn [loop].
  - intros [= <-]. exact Hinv.
  - destruct ((males st <? 1) || (females st <? 1)) eqn:Hbreak.
    + intros [= <-]. exact Hinv.
    + apply orb_false_iff in Hbreak. destruct Hbreak as [Hm Hf].
      apply Z.ltb_ge in Hm, Hf.
      destruct (loop_body np_exp cooling temp st) as [st1|] eqn:Hbody; cbn [bind];
        [|discriminate].
      apply IH; [exact Hexp|].
      apply (loop_body_inv np_exp cooling temp st); assumption.
Qed.

Lemma initial_state_inv : Inv initial_state.
Proof.
  unfold Inv, viable. cbn. repeat split; try (vm_compute; congruence); try reflexivity.
  constructor; [|constructor]. cbn. repeat split; vm_compute; congruence.
Qed.

Lemma loop_body_synced np_exp cooling temp st st' :
  synced st -> loop_body np_exp cooling temp st = Ok st' ->
  synced st' /\ length (male_counts st') = S (length (male_counts st)).
Proof.
  intros (Hlf & Hlt & _ & _) Hbody.
  destruct (loop_body_records _ _ _ _ _ Hbody) as (Hms & Hfs & Htot).
  unfold synced. rewrite Hms, Hfs, Htot, !length_app, !last_last, Hlf, Hlt. cbn.
  repeat split; lia.
Qed.

Lemma loop_records np_exp cooling temp_range : forall st st',
  synced st -> loop np_exp cooling temp_range st = Ok st' ->
  synced st' /\
  ((length (male_counts st') = length (male_counts st) + length temp_range)%nat \/
   ((length (male_counts st') < length (male_counts st) + length temp_range)%nat /\
    (males st' < 1 \/ females st' < 1))).
Proof.
  induction temp_range as [|temp rest IH]; intros st st' Hs; cbn [loop].
  - intros [= <-]. split; [exact Hs|]. left. cbn. lia.
  - destruct ((males st <? 1) || (females st <? 1)) eqn:Hbreak.
    + intros [= <-]. split; [exact Hs|]. right. split; [cbn; lia|].
      apply orb_true_iff in Hbreak. destruct Hbreak as [H|H]; apply Z.ltb_lt in H; auto.
    + destruct (loop_body np_exp cooling temp st) as [st1|] eqn:Hbody; cbn [bind];
        [|discriminate].
      destruct (loop_body_synced _ _ _ _ _ Hs Hbody) as [Hs1 Hlen1].
      intros Hloop. destruct (IH _ _ Hs1 Hloop) as [Hs' Hcase].
      split; [exact Hs'|]. cbn [length]. rewrite Hlen1 in Hcase.
      destruct Hcase as [Hc|[Hc Hext]]; [left|right; split; [|exact Hext]]; lia.
Qed.

Lemma initial_state_synced : synced initial_state.
Proof. repeat split. Qed.

Lemma nth_last_index {A} (l : list A) (d : A) : forall i,
  S i = length l -> nth i l d = last l d.
Proof.
  induction l as [|a l IH]; intros i Hi; [discriminate|].
  destruct l as [|b l].
  - cbn in Hi. injection Hi as ->. reflexivity.
  - destruct i as [|i]; [discriminate|].
    change (nth i (b :: l) d = last (b :: l) d). apply IH.
    cbn in Hi |- *. lia.
Qed.

Lemma loop_alive np_exp cooling temp_range : forall st st',
  synced st -> alive_before st ->
  loop np_exp cooling temp_range st = Ok st' -> alive_before st'.
Proof.
  induction temp_range as [|temp rest IH]; intros st st' Hs Ha; cbn [loop].
  - intros [= <-]. exact Ha.
  - destruct ((males st <? 1) || (females st <? 1)) eqn:Hbreak.
    + intros [= <-]. exact Ha.
    + destruct (loop_body np_exp cooling temp st) as [st1|] eqn:Hbody; cbn [bind];
        [|discriminate].
      destruct (loop_body_synced _ _ _ _ _ Hs Hbody) as [Hs1 Hlen1].
      apply (IH _ _ Hs1).
      destruct (loop_body_records _ _ _ _ _ Hbody) as (Hms & Hfs & _).
      apply orb_false_iff in Hbreak. destruct Hbreak as [Hm Hf].
      apply Z.ltb_ge in Hm, Hf.
      destruct Hs as (Hlf & _ & Hlm & Hlfm).
      intros i Hi. rewrite Hlen1 in Hi. rewrite Hms, Hfs.
      rewrite !app_nth1 by lia.
      destruct (Nat.eq_dec (S i) (length (male_counts st))) as [Heq|Hne].
      * rewrite (nth_last_index (male_counts st) 0 i Heq).
        rewrite (nth_last_index (female_counts st) 0 i) by lia.
        rewrite <- Hlm, <- Hlfm. lia.
      * apply Ha. lia.
Qed.

Lemma initial_state_alive : alive_before initial_state.
Proof. intros i Hi. cbn in Hi. lia. Qed.

(** The loop stops on an extinct state, and runs through a schedule in
    pieces. *)
Lemma loop_extinct np_exp cooling temp_range st :
  males st < 1 \/ females st < 1 -> loop np_exp cooling temp_range st = Ok st.
Proof.
  intros H. destruct temp_range as [|temp rest]; [reflexivity|]. cbn [loop].
  replace ((males st <? 1) || (females st <? 1)) with true; [reflexivity|].
  symmetry. apply orb_true_iff.
  destruct H as [H|H]; [left|right]; apply Z.ltb_lt; exact H.
Qed.

Lemma loop_app np_exp cooling l1 l2 : forall st,
  loop np_exp cooling (l1 ++ l2) st =
  (st' <- loop np_exp cooling l1 st ;; loop np_exp cooling l2 st').
Proof.
  induction l1 as [|temp rest IH]; intros st; [reflexivity|].
  cbn [app loop].
  destruct ((males st <? 1) || (females st <? 1)) eqn:Hbreak.
  - cbn [bind]. symmetry. apply loop_extinct.
    apply orb_true_iff in Hbreak.
    destruct Hbreak as [H|H]; [left|right]; apply Z.ltb_lt; exact H.
  - destruct (loop_body np_exp cooling temp st) as [st1|e]; cbn [bind];
      [apply IH|reflexivity].
Qed.

(** The loop takes one generation from a state with a male and a female. *)
Lemma loop_step np_exp cooling temp rest st :
  1 <= males st -> 1 <= females st ->
  loop np_exp cooling (temp :: rest) st =
  (st' <- loop_body np_exp cooling temp st ;; loop np_exp cooling rest st').
Proof.
  intros Hm Hf. cbn [loop].
  replace ((males st <? 1) || (females st <? 1)) with false; [reflexivity|].
  symmetry. apply orb_false_iff. split; apply Z.ltb_ge; lia.
Qed.

(** The stages of one pass through the loop body, in the order of the
    source: reproduction, the collapse guard, mortality, the newborns, the
    extinction rule and the carrying capacity. *)
Lemma loop_body_stages np_exp cooling temp st st' :
  loop_body np_exp cooling temp st = Ok st' ->
  exists mature new_males0 new_females0 new_males new_females females0 males1 females1,
    mature_females_of (female_counts st) (females st) = Ok mature /\
    reproduction mature (males st)
      (get_female_ratio np_exp temp (of_Z 29) (decimal 5 10))
      (of_Z 1 - get_female_ratio np_exp temp (of_Z 29) (decimal 5 10))%fl =
      Ok (new_males0, new_females0) /\
    collapse_guard (males st) new_males0 new_females0 (females st) =
      Ok (new_males, new_females, females0) /\
    mortality cooling (males st) females0 = Ok (males1, females1) /\
    capacity_constraint
      (fst (extinction_rule (males1 + new_males) (females1 + new_females)))
      (snd (extinction_rule (males1 + new_males) (females1 + new_females))) =
      Ok (males st', females st').
Proof.
  unfold loop_body.
  destruct (mature_females_of _ _) as [mf|]; cbn [bind]; [|discriminate].
  destruct (reproduction _ _ _ _) as [[nm nf]|] eqn:Hrep; cbn [bind]; [|discriminate].
  destruct (collapse_guard _ _ _ _) as [[[nm' nf'] f0]|] eqn:Hguard;
    cbn [bind]; [|discriminate].
  destruct (mortality _ _ _) as [[m1 f1]|] eqn:Hmort; cbn [bind]; [|discriminate].
  unfold add_newborns. destruct (extinction_rule _ _) as [m3 f3] eqn:Hrule.
  destruct (capacity_constraint _ _) as [[m4 f4]|] eqn:Hcap; cbn [bind]; [|discriminate].
  intros [= <-]. exists mf, nm, nf, nm', nf', f0, m1, f1. cbn [males females fst snd].
  split; [reflexivity|]. split; [exact Hrep|]. split; [exact Hguard|].
  split; [exact Hmort|rewrite Hrule; exact Hcap].
Qed.

(** ** The reference exponential is in range *)

Lemma rounded_nonneg x r : rounded false x r -> nonneg_float r.
Proof.
  intros (g & M & _ & _ & _ & _ & Hres).
  destruct Hres as [[_ ->]|[(_ & m & e & -> & _)|(_ & -> & _)]]; exact I.
Qed.

Lemma series_nonneg fuel : forall i term acc r,
  0 < i -> 0 <= term -> 0 <= acc -> 0 <= r -> 0 <= series fuel i term acc r.
Proof.
  induction fuel as [|fuel IH]; intros i term acc r Hi Ht Ha Hr; cbn [series].
  - exact Ha.
  - assert (0 <= term * r / (i * 2 ^ fbits)).
    { apply Z.div_pos; [apply Z.mul_nonneg_nonneg; assumption|].
      apply Z.mul_pos_pos; [exact Hi|reflexivity]. }
    set (term' := term * r / (i * 2 ^ fbits)) in *. clearbody term'.
    apply IH; lia.
Qed.

Lemma binary_normalize_nonneg (m e : Z) :
  0 <= m -> nonneg_float (binary_normalize prec emax m e false).
Proof.
  intros Hm. destruct m as [|p|p]; try lia; cbn [binary_normalize].
  - exact I.
  - apply (rounded_nonneg (F2R (Zpos p) e)). apply binary_round_rounded.
Qed.

Lemma exp_ref_total (x : float) : x <> S754_nan -> nonneg_float (exp_ref x).
Proof.
  intros Hx. destruct x as [s|[|]| |s m e]; cbn [exp_ref]; try exact I.
  - contradiction.
  - destruct (11 <=? Zpos (digits2_pos m) + e); [destruct s; exact I|].
    apply binary_normalize_nonneg. unfold exp_fix.
    apply series_nonneg; [reflexivity|discriminate|discriminate|].
    apply Z.mod_pos_bound. reflexivity.
Qed.

Lemma exp_ref_range : exp_range exp_ref.
Proof.
  intros x. destruct x as [s|s| |s m e]; try (right; apply exp_ref_total; discriminate).
  left. reflexivity.
Qed.

(** ** Error bounds of the sex split *)

Lemma rounded_shape sx x r :
  rounded sx x r ->
  r = S754_zero sx \/ (exists m e, r = S754_finite sx m e) \/ r = S754_infinity sx.
Proof.
  intros (g & M & _ & _ & _ & _ & Hres).
  destruct Hres as [[_ ->]|[(_ & m & e & -> & _)|(_ & -> & _)]]; eauto.
Qed.

(** The error of rounding a positive real below [2^g0]. *)
Lemma rounded_abs_error (x : R) (r : float) (g0 : Z) :
  rounded false x r -> (x < pow2 g0)%R -> g0 <= 970 ->
  exists v, finite_nonneg r v /\
            (x - pow2 (fexp g0 - 1) <= v <= x + pow2 (fexp g0 - 1))%R.
Proof.
  intros (g & M & Hg & HM & Hnear & _ & Hres) Hx Hg0.
  assert (Hgg : g <= g0).
  { assert (g - 1 < g0) by (apply pow2_lt_inv; lra). lia. }
  pose proof (pow2_le (fexp g - 1) (fexp g0 - 1)
                ltac:(pose proof (fexp_mono g g0 Hgg); lia)) as HE.
  pose proof (pow2_pos (fexp g)) as Hp.
  assert (Hhalf : pow2 (fexp g - 1) = (pow2 (fexp g) * / 2)%R).
  { replace (fexp g - 1) with (fexp g + -1) by lia. rewrite pow2_add, pow2_m1. ring. }
  assert (HV : (x - pow2 (fexp g - 1) <= F2R M (fexp g) <= x + pow2 (fexp g - 1))%R).
  { rewrite Hhalf. unfold F2R. pose proof (scale_back x (fexp g)) as Hsb.
    set (xs := (x * pow2 (- fexp g))%R) in *.
    assert (H1 : ((IZR M - xs) * pow2 (fexp g) <= / 2 * pow2 (fexp g))%R)
      by (apply Rmult_le_compat_r; lra).
    assert (H2 : ((xs - IZR M) * pow2 (fexp g) <= / 2 * pow2 (fexp g))%R)
      by (apply Rmult_le_compat_r; lra).
    split; lra. }
  destruct Hres as [[HM0 ->]|[(HM0 & m & e & -> & Hv & _)|(_ & _ & Hbig)]].
  - exists 0%R. split; [left; auto|].
    subst M. unfold F2R in HV. rewrite Rmult_0_l in HV. lra.
  - exists (F2R (Zpos m) e). split; [right; eauto|]. rewrite Hv. lra.
  - exfalso. pose proof (pow2_le g0 970 Hg0). lra.
Qed.

Lemma pow2_m36 : pow2 (-36) = (/ 68719476736)%R.
Proof.
  change (-36) with (- (36)). rewrite pow2_neg, (pow2_IZR 36) by lia. reflexivity.
Qed.

Lemma pow2_m54 : pow2 (-54) = (/ 18014398509481984)%R.
Proof.
  change (-54) with (- (54)). rewrite pow2_neg, (pow2_IZR 54) by lia. reflexivity.
Qed.

Lemma pow2_18 : pow2 18 = 262144%R.
Proof. rewrite (pow2_IZR 18) by lia. reflexivity. Qed.

(** [int(n * r)] for a count [n] of at most 160000 and a ratio of value [v]
    in the unit interval: the product, rounded down, to within [2^-36]. *)
Lemma int_of_product_near (n : Z) (r : float) (v : R) :
  0 <= n <= 160000 -> finite_nonneg r v -> (0 <= v <= 1)%R ->
  exists k, int_of_product n r = Ok k /\ 0 <= k /\
            (IZR n * v - / 68719476736 - 1 < IZR k <= IZR n * v + / 68719476736)%R.
Proof.
  intros Hn Hfin Hv. unfold int_of_product, int_mul_float.
  destruct (Z.eq_dec n 0) as [->|Hn0].
  - exists 0. split; [destruct Hfin as [[-> _]|(m & e & -> & _)]; reflexivity|].
    split; [lia|]. rewrite Rmult_0_l. lra.
  - destruct (float_of_int_exact n ltac:(lia)) as (mn & en & -> & Hvn). cbn [bind].
    assert (Hnr : (1 <= IZR n <= 160000)%R) by (split; apply IZR_le; lia).
    destruct Hfin as [[-> ->]|(m & e & -> & Hm)].
    + exists 0. split; [reflexivity|]. split; [lia|]. rewrite Rmult_0_r. lra.
    + pose proof (mul_rounded false mn en false m e) as Hr. cbn [xorb] in Hr.
      rewrite Hvn, Hm in Hr.
      assert (Hx : (IZR n * v < pow2 18)%R) by (rewrite pow2_18; nra).
      destruct (rounded_abs_error _ _ 18 Hr Hx ltac:(lia)) as (w & Hw & Hwb).
      change (fexp 18 - 1) with (-36) in Hwb. rewrite pow2_m36 in Hwb.
      destruct (int_of_float_floor _ _ Hw) as (k & Hk & Hk0 & Hkv).
      exists k. split; [exact Hk|]. split; [exact Hk0|]. lra.
Qed.

(** The male ratio [1 - female_ratio]: the difference, to within [2^-54]. *)
Lemma one_minus_near (r : float) (v : R) :
  finite_nonneg r v -> (0 <= v <= 1)%R ->
  exists u, finite_nonneg (of_Z 1 - r)%fl u /\ (0 <= u <= 1)%R /\
            (1 - v - / 18014398509481984 <= u <= 1 - v + / 18014398509481984)%R.
Proof.
  rewrite of_Z_one. intros [[-> ->]|(m & e & -> & Hm)] Hv.
  - exists 1%R. split; [|lra]. right.
    exists 4503599627370496%positive, (-52). split; [reflexivity|apply F2R_one].
  - pose proof (F2R_pos m e) as Hpos.
    pose proof (sub_rounded 4503599627370496 (-52) m e) as Hs.
    rewrite F2R_one, Hm in Hs. specialize (Hs ltac:(lra)).
    destruct Hs as [[H1 Hz]|[Hlt Hr]].
    + exists 0%R. split; [left; split; [exact Hz|reflexivity]|lra].
    + assert (Hx : (1 - v < pow2 0)%R) by (rewrite pow2_0; lra).
      destruct (rounded_abs_error _ _ 0 Hr Hx ltac:(lia)) as (u & Hu & Hub).
      change (fexp 0 - 1) with (-54) in Hub. rewrite pow2_m54 in Hub.
      assert (Hle : (1 - v <= IZR 1)%R) by lra.
      destruct (rounded_le_int _ _ 1 Hr Hle ltac:(lia)) as (w & Hfin & Hw).
      assert (w = u).
      { destruct Hfin as [[Hz1 ->]|(m1 & e1 & He1 & <-)], Hu as [[Hz2 ->]|(m2 & e2 & He2 & <-)];
          try reflexivity; congruence. }
      subst w. exists u. split; [exact Hu|]. split; [exact Hw|exact Hub].
Qed.

(** ** A nest far below the pivotal temperature

    When [np.exp] returns a value between [2^20] and [2^21], the female ratio
    lies between [2^-22] and [2^-19]: of up to 160000 surviving hatchlings
    none is female, and all but one are male. *)

Lemma exp_between (y : float) :
  float_leb (of_Z 1048576) y = true -> float_leb y (of_Z 2097152) = true ->
  exists m e, y = S754_finite false m e /\
              (1048576 <= F2R (Zpos m) e <= 2097152)%R.
Proof.
  intros Hlo Hhi. apply float_leb_le in Hlo. apply float_leb_le in Hhi.
  destruct (of_Z_exact 1048576 ltac:(lia)) as (m1 & e1 & H1 & Hv1).
  destruct (of_Z_exact 2097152 ltac:(lia)) as (m2 & e2 & H2 & Hv2).
  rewrite H1 in Hlo. rewrite H2 in Hhi.
  destruct y as [s|[|]| |[|] m e]; cbn [float_le FR cond_Zopp] in Hlo, Hhi;
    try contradiction.
  - rewrite Hv1 in Hlo. lra.
  - exfalso. rewrite Hv1 in Hlo. pose proof (F2R_pos m e) as Hp.
    unfold F2R in Hlo, Hp. rewrite opp_IZR in Hlo. lra.
  - exists m, e. split; [reflexivity|]. rewrite Hv1 in Hlo. rewrite Hv2 in Hhi. lra.
Qed.

Lemma pow2_22 : pow2 22 = 4194304%R.
Proof. rewrite (pow2_IZR 22) by lia. reflexivity. Qed.

Lemma pow2_m32 : pow2 (-32) = (/ 4294967296)%R.
Proof.
  change (-32) with (- (32)). rewrite pow2_neg, (pow2_IZR 32) by lia. reflexivity.
Qed.

Lemma pow2_m19 : pow2 (-19) = (/ 524288)%R.
Proof.
  change (-19) with (- (19)). rewrite pow2_neg, (pow2_IZR 19) by lia. reflexivity.
Qed.

Lemma pow2_m73 : pow2 (-73) = (/ 9444732965739290427392)%R.
Proof.
  change (-73) with (- (73)). rewrite pow2_neg, (pow2_IZR 73) by lia. reflexivity.
Qed.

Lemma cold_ratio (y : float) :
  float_leb (of_Z 1048576) y = true -> float_leb y (of_Z 2097152) = true ->
  exists v, finite_nonneg (of_Z 1 / (of_Z 1 + y))%fl v /\
            (/ 4194304 <= v <= / 524288)%R.
Proof.
  intros Hlo Hhi. destruct (exp_between y Hlo Hhi) as (m & e & -> & Hve).
  rewrite of_Z_one.
  pose proof (add_rounded 4503599627370496 (-52) m e) as Ha.
  rewrite F2R_one in Ha. set (ve := F2R (Zpos m) e) in *.
  assert (Hx : (1 + ve < pow2 22)%R) by (rewrite pow2_22; lra).
  destruct (rounded_abs_error _ _ 22 Ha Hx ltac:(lia)) as (va & Hfa & Hva).
  change (fexp 22 - 1) with (-32) in Hva. rewrite pow2_m32 in Hva.
  destruct Hfa as [[_ Hz]|(ma & ea & Hea & Hma)]; [exfalso; lra|].
  unfold add. rewrite Hea.
  assert (Hva1 : (1048576 <= va <= 2097154)%R) by lra.
  assert (Hpos : (0 < va)%R) by lra.
  assert (Hi1 : (/ 2097154 <= / va)%R) by (apply Rinv_le_contravar; lra).
  assert (Hi2 : (/ va <= / 1048576)%R) by (apply Rinv_le_contravar; lra).
  pose proof (div_rounded false 4503599627370496 (-52) false ma ea) as Hd.
  rewrite F2R_one, Hma in Hd. cbn [xorb] in Hd.
  replace (1 / va)%R with (/ va)%R in Hd by (unfold Rdiv; ring).
  assert (Hlow : (pow2 (-1074) <= / va)%R).
  { pose proof (pow2_le (-1074) (-32) ltac:(lia)) as Hp. rewrite pow2_m32 in Hp. lra. }
  specialize (Hd Hlow).
  assert (Hx2 : (/ va < pow2 (-19))%R) by (rewrite pow2_m19; lra).
  destruct (rounded_abs_error _ _ (-19) Hd Hx2 ltac:(lia)) as (v & Hfv & Hv).
  change (fexp (-19) - 1) with (-73) in Hv. rewrite pow2_m73 in Hv.
  exists v. split; [exact Hfv|]. lra.
Qed.

Lemma cold_reproduction (fr : float) (v : R) (mf m : Z) :
  finite_nonneg fr v -> (/ 4194304 <= v <= / 524288)%R ->
  0 <= m <= carrying_capacity -> 1 <= Z.min mf m ->
  reproduction mf m fr (of_Z 1 - fr)%fl = Ok (80 * Z.min mf m - 1, 0).
Proof.
  intros Hfr Hv Hm Hmin. unfold reproduction.
  rewrite survivors_table by lia. cbn [bind].
  unfold carrying_capacity in Hm.
  set (s := 80 * Z.min mf m). assert (Hs : 80 <= s <= 160000) by (unfold s; lia).
  assert (Hsr : (80 <= IZR s <= 160000)%R) by (split; apply IZR_le; lia).
  assert (Hv01 : (0 <= v <= 1)%R) by lra.
  destruct (one_minus_near fr v Hfr Hv01) as (u & Hfu & Hu01 & Hu).
  destruct (int_of_product_near s _ u ltac:(lia) Hfu Hu01) as (km & -> & Hkm0 & Hkm).
  destruct (int_of_product_near s _ v ltac:(lia) Hfr Hv01) as (kf & -> & Hkf0 & Hkf).
  cbn [bind].
  assert (Hsv1 : (IZR s * / 4194304 <= IZR s * v)%R)
    by (apply Rmult_le_compat_l; lra).
  assert (Hsv2 : (IZR s * v <= IZR s * / 524288)%R)
    by (apply Rmult_le_compat_l; lra).
  assert (Hsu1 : (IZR s * (1 - v - / 18014398509481984) <= IZR s * u)%R)
    by (apply Rmult_le_compat_l; lra).
  assert (Hsu2 : (IZR s * u <= IZR s * (1 - v + / 18014398509481984))%R)
    by (apply Rmult_le_compat_l; lra).
  assert (Hkf1 : kf = 0).
  { assert (IZR kf < 1)%R by lra. apply lt_IZR in H. lia. }
  assert (Hkm1 : km = s - 1).
  { assert (H1 : (IZR km < IZR s)%R) by lra.
    assert (H2 : (IZR s - 2 < IZR km)%R) by lra.
    apply lt_IZR in H1. rewrite <- minus_IZR in H2. apply lt_IZR in H2. lia. }
  rewrite Hkf1, Hkm1. reflexivity.
Qed.

(** ** The sign of a difference and of a quotient *)

Lemma binary_round_aux_sign sx mx ex lx :
  0 <= mx ->
  binary_round_aux prec emax sx mx ex lx <> S754_nan /\
  signbit (binary_round_aux prec emax sx mx ex lx) = sx.
Proof.
  intros Hm.
  set (v := match lx with
            | loc_Exact => IZR mx
            | loc_Inexact Lt => (IZR mx + / 4)%R
            | loc_Inexact Eq => (IZR mx + / 2)%R
            | loc_Inexact Gt => (IZR mx + 3 / 4)%R
            end).
  assert (Hin : inb_rec (shr_record_of_loc mx lx) (v * pow2 ex * pow2 (- ex))).
  { replace (v * pow2 ex * pow2 (- ex))%R with v.
    - destruct lx as [|[]]; unfold inb_rec, v; cbn; lra.
    - rewrite Rmult_assoc, (Rmult_comm (pow2 ex)), pow2_opp. ring. }
  destruct (binary_round_aux_spec sx mx ex lx _ Hm Hin) as (M & _ & _ & _ & _ & Hres).
  destruct Hres as [[_ ->]|[(_ & m & e & -> & _)|(_ & -> & _)]];
    split; (discriminate || reflexivity).
Qed.

Lemma div_sign sx mx ex sy my ey :
  (S754_finite sx mx ex / S754_finite sy my ey)%fl <> S754_nan /\
  signbit (S754_finite sx mx ex / S754_finite sy my ey)%fl = xorb sx sy.
Proof.
  unfold div. cbn [SFdiv]. unfold SFdiv_core_binary.
  set (s := ex - ey - _).
  set (m' := match s with Zpos _ => Z.shiftl (Zpos mx) s | Z0 => Zpos mx | Zneg _ => 0 end).
  assert (Hm' : 0 <= m').
  { unfold m'. destruct s as [|p|p]; try lia. apply Z.shiftl_nonneg. lia. }
  pose proof (Z_div_mod m' (Zpos my) ltac:(lia)) as Hdm.
  destruct (Z.div_eucl m' (Zpos my)) as [q r]. destruct Hdm as [Heq Hr].
  apply binary_round_aux_sign. nia.
Qed.

Lemma rounded_even_sign sx x r :
  rounded_even sx x r -> r <> S754_nan /\ signbit r = sx.
Proof.
  intros (g & M & _ & _ & _ & _ & Hres).
  destruct Hres as [[_ ->]|[(_ & m & e & -> & _)|(_ & -> & _)]];
    split; (discriminate || reflexivity).
Qed.

Lemma FR_sign_neg (x : float) : is_finite x -> (FR x < 0)%R ->
  exists m e, x = S754_finite true m e.
Proof.
  destruct x as [s|s| |[|] m e]; try contradiction; intros _ H; cbn [FR cond_Zopp] in H.
  - lra.
  - eauto.
  - pose proof (F2R_pos m e). lra.
Qed.

Lemma FR_sign_pos (x : float) : is_finite x -> (0 < FR x)%R ->
  exists m e, x = S754_finite false m e.
Proof.
  destruct x as [s|s| |[|] m e]; try contradiction; intros _ H; cbn [FR cond_Zopp] in H.
  - lra.
  - pose proof (F2R_pos m e) as Hp. change (- Zpos m) with (Zneg m) in H.
    rewrite F2R_neg in H. lra.
  - eauto.
Qed.

(** The difference of two finite floats in strict order has the sign of
    that order. *)
Lemma sub_sign (x y : float) :
  is_finite x -> is_finite y -> (FR x <> FR y)%R ->
  (x - y)%fl <> S754_nan /\
  ((FR x < FR y)%R -> signbit (x - y)%fl = true) /\
  ((FR y < FR x)%R -> signbit (x - y)%fl = false).
Proof.
  intros Hx Hy Hne.
  destruct x as [sx|sx| |sx mx ex], y as [sy|sy| |sy my ey]; try contradiction.
  - cbn [FR] in *. unfold sub. cbn [SFsub signbit]. split; [discriminate|].
    split; intros H.
    + destruct (FR_sign_pos (S754_finite sy my ey) I H) as (m & e & [= -> _ _]).
      reflexivity.
    + destruct (FR_sign_neg (S754_finite sy my ey) I H) as (m & e & [= -> _ _]).
      reflexivity.
  - cbn [FR] in Hne |- *. unfold sub. cbn [SFsub signbit]. split; [discriminate|].
    split; intros H.
    + destruct (FR_sign_neg (S754_finite sx mx ex) I H) as (m & e & [= -> _ _]).
      reflexivity.
    + destruct (FR_sign_pos (S754_finite sx mx ex) I H) as (m & e & [= -> _ _]).
      reflexivity.
  - pose proof (sub_srounded sx mx ex sy my ey) as Hs.
    split; [exact (srounded_not_nan _ _ Hs)|].
    destruct Hs as [[H0 _]|[[Hpos Hr]|[Hneg Hr]]].
    + exfalso. apply Hne. lra.
    + destruct (rounded_even_sign _ _ _ Hr) as [_ Hsg].
      split; intros H; [exfalso; lra|exact Hsg].
    + destruct (rounded_even_sign _ _ _ Hr) as [_ Hsg].
      split; intros H; [exact Hsg|exfalso; lra].
Qed.

Lemma float_ltb_FR (x y : float) :
  is_finite x -> is_finite y -> float_ltb x y = true -> (FR x < FR y)%R.
Proof.
  intros Hx Hy H. unfold float_ltb in H. apply andb_true_iff in H.
  destruct H as [H1 H2]. apply negb_true_iff in H2.
  destruct (Rlt_le_dec (FR x) (FR y)) as [Hlt|Hge]; [exact Hlt|exfalso].
  assert (Hle : float_le y x).
  { destruct x as [sx|sx| |sx mx ex], y as [sy|sy| |sy my ey];
      try contradiction; exact Hge. }
  apply float_leb_le in Hle. congruence.
Qed.

(** The quotient that gives the length of a schedule whose step runs
    against its direction has its sign bit set. *)
Lemma contradictory_quotient (start stop step : float) :
  is_finite start -> is_finite stop -> is_finite step ->
  (float_ltb start stop = true /\ float_ltb step (S754_zero false) = true) \/
  (float_ltb stop start = true /\ float_ltb (S754_zero false) step = true) ->
  float_truediv (stop - start)%fl step = Ok ((stop - start) / step)%fl /\
  ((stop - start) / step)%fl <> S754_nan /\
  signbit ((stop - start) / step)%fl = true.
Proof.
  intros Hstart Hstop Hstep Hdir.
  assert (Hcases : exists ss ms es,
             step = S754_finite ss ms es /\
             (stop - start)%fl <> S754_nan /\
             xorb (signbit (stop - start)%fl) ss = true).
  { destruct Hdir as [[H1 H2]|[H1 H2]].
    - apply float_ltb_FR in H1; [|assumption..].
      apply float_ltb_FR in H2; [|assumption|exact I]. cbn [FR] in H2.
      destruct (FR_sign_neg step Hstep H2) as (ms & es & ->).
      destruct (sub_sign stop start Hstop Hstart ltac:(lra)) as (Hn & _ & Hs).
      exists true, ms, es. rewrite (Hs H1). auto.
    - apply float_ltb_FR in H1; [|assumption..].
      apply float_ltb_FR in H2; [|exact I|assumption]. cbn [FR] in H2.
      destruct (FR_sign_pos step Hstep H2) as (ms & es & ->).
      destruct (sub_sign stop start Hstop Hstart ltac:(lra)) as (Hn & Hs & _).
      exists false, ms, es. rewrite (Hs H1). auto. }
  destruct Hcases as (ss & ms & es & -> & Hn & Hx).
  split; [reflexivity|].
  destruct (stop - start)%fl as [s|s| |s m e] eqn:Hdiff.
  - unfold div. cbn [SFdiv signbit] in *. split; [discriminate|exact Hx].
  - unfold div. cbn [SFdiv signbit] in *. split; [discriminate|exact Hx].
  - congruence.
  - cbn [signbit] in Hx.
    destruct (div_sign s m e ss ms es) as [Hq Hsq]. split; [exact Hq|].
    rewrite Hsq. exact Hx.
Qed.

(** A quotient with its sign bit set gives no positive length. *)
Lemma ceil_of_negative (q : float) :
  q <> S754_nan -> signbit q = true ->
  ceil_of_float q = Raise ValueError \/
  exists c, ceil_of_float q = Ok c /\ c <= 0.
Proof.
  intros Hn Hs. destruct q as [s|s| |s m e]; cbn [signbit] in Hs; subst;
    try congruence; cbn [ceil_of_float negb cond_Zopp].
  - right. exists 0. split; [reflexivity|lia].
  - left. reflexivity.
  - set (c := - Z.shiftl (Zpos m) e).
    destruct ((c <? - 2 ^ 63) || (2 ^ 63 <? c)); [left; reflexivity|].
    right. exists c. split; [reflexivity|].
    pose proof (Z.shiftl_nonneg (Zpos m) e). unfold c. lia.
Qed.

Lemma of_Z_min_intp :
  of_Z (- 2 ^ 63) = S754_finite true 4503599627370496 11.
Proof. vm_compute. reflexivity. Qed.

(** No overflow for a quotient of at least [-2^63]. *)
Lemma ceil_of_negative_ok (q : float) :
  signbit q = true -> float_leb (of_Z (- 2 ^ 63)) q = true ->
  exists c, ceil_of_float q = Ok c /\ c <= 0.
Proof.
  intros Hs Hle. apply float_leb_le in Hle. rewrite of_Z_min_intp in Hle.
  destruct q as [s|s| |s m e]; cbn [signbit] in Hs; subst;
    cbn [float_le] in Hle; try contradiction; cbn [ceil_of_float negb cond_Zopp].
  - exists 0. split; [reflexivity|lia].
  - cbn [FR cond_Zopp] in Hle.
    change (- Zpos 4503599627370496) with (Zneg 4503599627370496) in Hle.
    change (- Zpos m) with (Zneg m) in Hle. rewrite !F2R_neg in Hle.
    assert (H63 : F2R 4503599627370496 11 = IZR (2 ^ 63)).
    { unfold F2R. rewrite (pow2_IZR 11) by lia. rewrite <- mult_IZR. reflexivity. }
    rewrite H63 in Hle.
    pose proof (shiftl_floor (Zpos m) e ltac:(lia)) as [Hfl _].
    assert (Hc : Z.shiftl (Zpos m) e <= 2 ^ 63) by (apply le_IZR; lra).
    pose proof (Z.shiftl_nonneg (Zpos m) e) as Hnn.
    set (c := - Z.shiftl (Zpos m) e).
    replace ((c <? - 2 ^ 63) || (2 ^ 63 <? c)) with false.
    + exists c. split; [reflexivity|]. unfold c. lia.
    + symmetry. apply orb_false_iff. unfold c.
      split; [apply Z.ltb_ge|apply Z.ltb_ge]; lia.
Qed.

(** A length that is not positive gives the empty schedule. *)
Lemma np_arange_empty (start stop step : float) (len : Z) :
  arange_length start stop step = Ok len -> len <= 0 ->
  np_arange start stop step = Ok [].
Proof.
  intros Hlen Hle. unfold np_arange. rewrite Hlen. cbn [bind].
  replace (Z.to_nat len) with 0%nat by lia. reflexivity.
Qed.

Ltac split_all := repeat match goal with |- _ /\ _ => split end.

(** ** The first generation at the pivotal temperature *)

Lemma pivot_argument :
  (- decimal 5 10 * (of_Z 29 - of_Z 29))%fl = S754_zero true.
Proof. reflexivity. Qed.

Lemma female_ratio_at_pivot (np_exp : float -> float) :
  np_exp (S754_zero true) = of_Z 1 ->
  get_female_ratio np_exp (of_Z 29) (of_Z 29) (decimal 5 10) = decimal 5 10.
Proof.
  intros Hexp. unfold get_female_ratio. rewrite pivot_argument, Hexp. reflexivity.
Qed.

(** C1: with the module's parameters, the warming scenario and a first
    temperature of 29.0, one step takes males = 250, females = 250 to the
    recorded state males = 998, females = 1001: the female ratio is 0.5, there
    are 250 reproducing pairs and 20000 surviving offspring, 10000 new males
    and 10000 new females; mortality leaves 200 males and 225 females, the
    newborns make them 10200 and 10225, and the scaling by 2000/20425 gives
    998 and 1001. *)
Theorem first_step_at_pivot (np_exp : float -> float) :
  np_exp (S754_zero true) = of_Z 1 ->
  get_female_ratio np_exp (of_Z 29) (of_Z 29) (decimal 5 10) = decimal 5 10 /\
  mature_females_of (female_counts initial_state) (females initial_state) = Ok 250 /\
  Z.min 250 (males initial_state) = 250 /\
  int_of_product (250 * average_eggs_per_female) hatchling_survival_rate = Ok 20000 /\
  reproduction 250 250 (decimal 5 10) (of_Z 1 - decimal 5 10)%fl = Ok (10000, 10000) /\
  collapse_guard 250 10000 10000 250 = Ok (10000, 10000, 250) /\
  mortality false 250 250 = Ok (200, 225) /\
  add_newborns 200 225 10000 10000 = (10200, 10225) /\
  extinction_rule 10200 10225 = (10200, 10225) /\
  int_truediv carrying_capacity (10200 + 10225) = Ok (decimal 2000 20425) /\
  capacity_constraint 10200 10225 = Ok (998, 1001) /\
  loop_body np_exp false (of_Z 29) initial_state =
    Ok {| males := 998; females := 1001;
          male_counts := [250; 998];
          female_counts := [250; 1001];
          total_population := [500; 1999] |} /\
  simulate_population np_exp [of_Z 29] false =
    Ok ([of_Z 29], [250; 998], [250; 1001], [500; 1999]).
Proof.
  intros Hexp.
  pose proof (female_ratio_at_pivot np_exp Hexp) as Hratio.
  assert (Hbody : loop_body np_exp false (of_Z 29) initial_state =
    Ok {| males := 998; females := 1001;
          male_counts := [250; 998];
          female_counts := [250; 1001];
          total_population := [500; 1999] |}).
  { unfold loop_body. rewrite Hratio. vm_compute. reflexivity. }
  split; [exact Hratio|]. do 10 (split; [vm_compute; reflexivity|]).
  split; [exact Hbody|].
  unfold simulate_population. cbn [loop].
  change ((males initial_state <? 1) || (females initial_state <? 1)) with false.
  cbv iota. rewrite Hbody. reflexivity.
Qed.

Lemma first_step_at_pivot_witness :
  exp_ref (S754_zero true) = of_Z 1 /\
  simulate_population exp_ref [of_Z 29] false =
    Ok ([of_Z 29], [250; 998], [250; 1001], [500; 1999]).
Proof.
  split; [reflexivity|].
  exact (proj2 (proj2 (proj2 (proj2 (proj2 (proj2 (proj2 (proj2 (proj2 (proj2
    (proj2 (proj2 (first_step_at_pivot exp_ref eq_refl))))))))))))).
Defined.

(** ** The returned sequences *)

(** C2: the three count sequences always have one length, and the returned
    temperatures are the first [length male_counts] of the schedule.  Every
    recorded state but the last has at least one male and one female, so
    nothing is recorded after a state with males < 1 or females < 1.  When
    the run stops on extinction the temperatures have the length of the
    counts; when the schedule is exhausted there is one temperature fewer
    than recorded states, so the four sequences do not all have the same
    length. *)
Theorem simulate_population_lengths (np_exp : float -> float)
    (temp_range : list float) (cooling : bool)
    (temps : list float) (male_counts female_counts total_population : list Z) :
  simulate_population np_exp temp_range cooling =
    Ok (temps, male_counts, female_counts, total_population) ->
  length female_counts = length male_counts /\
  length total_population = length male_counts /\
  temps = firstn (length male_counts) temp_range /\
  (forall i, (S i < length male_counts)%nat ->
     1 <= nth i male_counts 0 /\ 1 <= nth i female_counts 0) /\
  ((length male_counts = S (length temp_range) /\
    length temps = length temp_range) \/
   ((length male_counts <= length temp_range)%nat /\
    length temps = length male_counts /\
    (last male_counts 0 < 1 \/ last female_counts 0 < 1))).
Proof.
  unfold simulate_population.
  destruct (loop np_exp cooling temp_range initial_state) as [st|] eqn:Hloop;
    cbn [bind]; [|discriminate].
  intros [= <- <- <- <-].
  destruct (loop_records _ _ _ _ _ initial_state_synced Hloop)
    as ((Hlf & Hlt & Hm & Hf) & Hcase).
  split; [exact Hlf|]. split; [exact Hlt|]. split; [reflexivity|].
  split; [exact (loop_alive _ _ _ _ _ initial_state_synced initial_state_alive Hloop)|].
  cbn in Hcase.
  destruct Hcase as [Hc|[Hc Hext]].
  - left. split; [lia|]. rewrite length_firstn. lia.
  - right. split; [lia|]. split; [rewrite length_firstn; lia|].
    rewrite <- Hm, <- Hf. exact Hext.
Qed.

Lemma simulate_population_lengths_witness :
  simulate_population exp_ref [of_Z 29] false =
    Ok ([of_Z 29], [250; 998], [250; 1001], [500; 1999]) /\
  length [250; 998] = S (length [of_Z 29]) /\
  length [of_Z 29] = length [of_Z 29].
Proof.
  assert (Hrun : simulate_population exp_ref [of_Z 29] false =
                 Ok ([of_Z 29], [250; 998], [250; 1001], [500; 1999]))
    by (vm_compute; reflexivity).
  split; [exact Hrun|].
  destruct (simulate_population_lengths exp_ref [of_Z 29] false _ _ _ _ Hrun)
    as (_ & _ & _ & _ & [H|(H & _)]).
  - exact H.
  - cbn in H. exfalso. lia.
Defined.

(** ** Mortality *)

(** The claim of C3 fails at three females: the code truncates after each
    factor and leaves 1, the single truncation of the product leaves 2. *)
Lemma cooling_mortality_truncates_twice :
  mortality true 3 3 = Ok (2, 1) /\
  int_of_product 3 ((of_Z 1 - adult_mortality_rate)
                    * (of_Z 1 - female_mortality_rate))%fl = Ok 2 /\
  3 * 9 * 19 / (10 * 20) = 2.
Proof. split_all; vm_compute; reflexivity. Qed.

(** C3, amended: in the cooling scenario, for male and female counts within
    the carrying capacity, mortality leaves [floor (9 m / 10)] males and
    [floor (19 * floor (9 f / 10) / 20)] females: the female count is
    truncated to an integer after each of the two factors.  In a generation
    of the loop the newborns are added only after these truncations: the
    state recorded is the extinction rule and the capacity constraint
    applied to the truncated survivors plus the newborns that the collapse
    guard let through. *)
Theorem cooling_mortality (np_exp : float -> float) (temp : float) (st st' : state) :
  0 <= males st <= carrying_capacity -> 0 <= females st <= carrying_capacity ->
  loop_body np_exp true temp st = Ok st' ->
  (forall m f, 0 <= m <= carrying_capacity -> 0 <= f <= carrying_capacity ->
     mortality true m f = Ok (9 * m / 10, 19 * (9 * f / 10) / 20)) /\
  exists mature new_males0 new_females0 new_males new_females females0,
    mature_females_of (female_counts st) (females st) = Ok mature /\
    reproduction mature (males st)
      (get_female_ratio np_exp temp (of_Z 29) (decimal 5 10))
      (of_Z 1 - get_female_ratio np_exp temp (of_Z 29) (decimal 5 10))%fl =
      Ok (new_males0, new_females0) /\
    collapse_guard (males st) new_males0 new_females0 (females st) =
      Ok (new_males, new_females, females0) /\
    0 <= females0 <= carrying_capacity /\
    mortality true (males st) females0 =
      Ok (9 * males st / 10, 19 * (9 * females0 / 10) / 20) /\
    let after := extinction_rule (9 * males st / 10 + new_males)
                                 (19 * (9 * females0 / 10) / 20 + new_females) in
    capacity_constraint (fst after) (snd after) = Ok (males st', females st').
Proof.
  intros Hm Hf Hbody. split.
  - intros m f Hm' Hf'. exact (mortality_spec true m f Hm' Hf').
  - destruct (loop_body_stages _ _ _ _ _ Hbody)
      as (mature & nm0 & nf0 & nm & nf & f0 & m1 & f1 & Hmat & Hrep & Hguard & Hmort & Hcap).
    assert (Hf0 : 0 <= f0 <= carrying_capacity).
    { rewrite (collapse_guard_spec _ _ _ _ Hf) in Hguard. unfold carrying_capacity in *.
      destruct (males st <=? 5);
        [assert (f0 = 17 * females st / 20) by congruence
        |assert (f0 = females st) by congruence]; lia. }
    rewrite (mortality_spec true _ _ Hm Hf0) in Hmort. injection Hmort as <- <-.
    exists mature, nm0, nf0, nm, nf, f0.
    split; [exact Hmat|]. split; [exact Hrep|]. split; [exact Hguard|]. split; [exact Hf0|].
    split; [exact (mortality_spec true _ _ Hm Hf0)|exact Hcap].
Qed.

Lemma cooling_mortality_witness :
  (forall m f, 0 <= m <= carrying_capacity -> 0 <= f <= carrying_capacity ->
     mortality true m f = Ok (9 * m / 10, 19 * (9 * f / 10) / 20)) /\
  exists mature new_males0 new_females0 new_males new_females females0,
    mature_females_of [250] 250 = Ok mature /\
    reproduction mature 250
      (get_female_ratio exp_ref (of_Z 29) (of_Z 29) (decimal 5 10))
      (of_Z 1 - get_female_ratio exp_ref (of_Z 29) (of_Z 29) (decimal 5 10))%fl =
      Ok (new_males0, new_females0) /\
    collapse_guard 250 new_males0 new_females0 250 =
      Ok (new_males, new_females, females0) /\
    0 <= females0 <= carrying_capacity /\
    mortality true 250 females0 =
      Ok (9 * 250 / 10, 19 * (9 * females0 / 10) / 20) /\
    let after := extinction_rule (9 * 250 / 10 + new_males)
                                 (19 * (9 * females0 / 10) / 20 + new_females) in
    capacity_constraint (fst after) (snd after) = Ok (1000, 999).
Proof.
  exact (cooling_mortality exp_ref (of_Z 29) initial_state
           {| males := 1000; females := 999;
              male_counts := [250; 1000]; female_counts := [250; 999];
              total_population := [500; 1999] |}
           ltac:(vm_compute; split; discriminate)
           ltac:(vm_compute; split; discriminate)
           ltac:(vm_compute; reflexivity)).
Defined.

(** ** The lagged lookup *)

(** C6: the mature-female count is the female count recorded [maturity_age]
    entries before the one being computed (index [length - maturity_age] of
    the log, the next entry having index [length]) when the log has at least
    [maturity_age] entries, and the current female count otherwise; the
    lookup never raises, and every step hands this count to the reproduction
    stage. *)
Theorem lagged_lookup (log : list Z) (current : Z) :
  mature_females_of log current =
    Ok (if maturity_age <=? Z.of_nat (length log)
        then nth (length log - Z.to_nat maturity_age) log 0
        else current) /\
  (forall np_exp cooling temp st st',
     loop_body np_exp cooling temp st = Ok st' ->
     exists new_males new_females,
       reproduction
         (if maturity_age <=? Z.of_nat (length (female_counts st))
          then nth (length (female_counts st) - Z.to_nat maturity_age)
                 (female_counts st) 0
          else females st)
         (males st)
         (get_female_ratio np_exp temp (of_Z 29) (decimal 5 10))
         (of_Z 1 - get_female_ratio np_exp temp (of_Z 29) (decimal 5 10))%fl
       = Ok (new_males, new_females)).
Proof.
  split; [apply mature_females_of_spec|].
  intros np_exp cooling temp st st'. unfold loop_body.
  rewrite mature_females_of_spec. cbn [bind].
  change (Z.to_nat maturity_age) with 4%nat.
  destruct (reproduction _ _ _ _) as [[nm nf]|]; cbn [bind]; [|discriminate].
  intros _. exists nm, nf. reflexivity.
Qed.

(** ** The collapse guard *)

(** The claim of C7 fails when there are no new males to halve: the guard
    engages at five males and leaves the count at 0. *)
Lemma collapse_guard_keeps_zero :
  collapse_guard 5 0 400 1994 = Ok (0, 200, 1694) /\ ~ 0 < 0.
Proof. split; [vm_compute; reflexivity|lia]. Qed.

(** C7, amended: the guard engages exactly when the male count is at most 5.
    It then replaces the new males and new females by their halves, rounded
    down and not below 0, which are smaller whenever the count was positive
    and 0 when it was 0, and replaces the female count (within the carrying
    capacity) by [floor (0.85 females)], smaller whenever there was a female.
    Above 5 males it changes nothing. *)
Theorem collapse_guard_effect (males new_males new_females females : Z) :
  0 <= females <= carrying_capacity ->
  (males <= 5 ->
   collapse_guard males new_males new_females females =
     Ok (Z.max 0 (new_males / 2), Z.max 0 (new_females / 2), 17 * females / 20) /\
   (0 < new_males -> Z.max 0 (new_males / 2) < new_males) /\
   (0 < new_females -> Z.max 0 (new_females / 2) < new_females) /\
   (new_males = 0 -> Z.max 0 (new_males / 2) = 0) /\
   (new_females = 0 -> Z.max 0 (new_females / 2) = 0) /\
   (1 <= females -> 17 * females / 20 < females)) /\
  (5 < males ->
   collapse_guard males new_males new_females females =
     Ok (new_males, new_females, females)).
Proof.
  intros Hf. rewrite (collapse_guard_spec males new_males new_females females Hf).
  split; intros Hm.
  - apply Z.leb_le in Hm. rewrite Hm. repeat split; lia.
  - apply Z.leb_gt in Hm. rewrite Hm. reflexivity.
Qed.

Lemma collapse_guard_effect_witness :
  collapse_guard 5 0 400 1994 = Ok (0, 200, 1694) /\
  collapse_guard 6 0 400 1994 = Ok (0, 400, 1994).
Proof.
  destruct (collapse_guard_effect 5 0 400 1994 ltac:(unfold carrying_capacity; lia))
    as [H5 _].
  destruct (collapse_guard_effect 6 0 400 1994 ltac:(unfold carrying_capacity; lia))
    as [_ H6].
  split; [exact (proj1 (H5 ltac:(lia)))|exact (H6 ltac:(lia))].
Defined.

(** ** Schedules and configuration *)

(** The claim of C8 fails on a schedule whose step runs against its
    direction: nothing rejects it, it is the empty schedule, and the
    simulation returns the initial state. *)
Lemma contradictory_schedule_accepted :
  np_arange (of_Z 29) (of_Z 35) (decimal (-1) 10) = Ok [] /\
  simulate_population exp_ref [] false = Ok ([], [250], [250], [500]).
Proof. split; vm_compute; reflexivity. Qed.

(** C8, amended: a schedule is not checked against its direction.  For
    finite [start], [stop] and [step], when the sign of the step contradicts
    the direction from start to stop, [np.arange] never returns a schedule
    with a temperature in it: it returns the empty schedule whenever the
    quotient [(stop - start) / step] is at least [-2^63], and raises on the
    length otherwise; a zero step raises [ZeroDivisionError] in [np.arange]
    itself.  On the empty schedule the simulation raises nothing, whatever
    the scenario, and returns the initial state alone; the first exception is
    the [ValueError] of [min] on the empty sequence, in [animate_scenario]. *)
Theorem contradictory_schedule_not_rejected (start stop step : float) :
  is_finite start -> is_finite stop -> is_finite step ->
  (float_ltb start stop = true /\ float_ltb step (S754_zero false) = true) \/
  (float_ltb stop start = true /\ float_ltb (S754_zero false) step = true) ->
  (forall temps, np_arange start stop step = Ok temps -> temps = []) /\
  (float_leb (of_Z (- 2 ^ 63)) ((stop - start) / step)%fl = true ->
   np_arange start stop step = Ok []) /\
  (forall s, np_arange start stop (S754_zero s) = Raise ZeroDivisionError) /\
  (forall np_exp cooling,
     simulate_population np_exp [] cooling =
       Ok ([], [initial_males], [initial_females], [initial_males + initial_females])) /\
  (forall title color_male color_female color_total,
     animate_scenario [] [initial_males] [initial_females]
       [initial_males + initial_females]
       title color_male color_female color_total = Raise ValueError).
Proof.
  intros Hstart Hstop Hstep Hdir.
  destruct (contradictory_quotient start stop step Hstart Hstop Hstep Hdir)
    as (Hdiv & Hnan & Hsign).
  assert (Hlen : forall c, ceil_of_float ((stop - start) / step)%fl = Ok c -> c <= 0 ->
                 np_arange start stop step = Ok []).
  { intros c Hc Hle.
    apply (np_arange_empty start stop step
             (if is_zero ((stop - start) / step)%fl && negb (is_zero (stop - start)%fl)
              then 0 else c)).
    - unfold arange_length. rewrite Hdiv. cbn [bind]. rewrite Hc. cbn [bind].
      rewrite Hsign. reflexivity.
    - destruct (_ && _); lia. }
  split; [|split; [|split; [|split]]].
  - intros temps Hrun.
    destruct (ceil_of_negative _ Hnan Hsign) as [Hover|(c & Hc & Hle)].
    + exfalso. revert Hrun. unfold np_arange, arange_length. rewrite Hdiv. cbn [bind].
      rewrite Hover. discriminate.
    + rewrite (Hlen c Hc Hle) in Hrun. congruence.
  - intros Hbig. destruct (ceil_of_negative_ok _ Hsign Hbig) as (c & Hc & Hle).
    exact (Hlen c Hc Hle).
  - intros s. reflexivity.
  - intros np_exp cooling. reflexivity.
  - intros. reflexivity.
Qed.

Lemma contradictory_schedule_not_rejected_witness :
  (forall temps, np_arange (of_Z 29) (of_Z 35) (decimal (-1) 10) = Ok temps ->
                 temps = []) /\
  (float_leb (of_Z (- 2 ^ 63)) ((of_Z 35 - of_Z 29) / decimal (-1) 10)%fl = true ->
   np_arange (of_Z 29) (of_Z 35) (decimal (-1) 10) = Ok []) /\
  (forall s, np_arange (of_Z 29) (of_Z 35) (S754_zero s) = Raise ZeroDivisionError) /\
  (forall np_exp cooling,
     simulate_population np_exp [] cooling =
       Ok ([], [initial_males], [initial_females], [initial_males + initial_females])) /\
  (forall title color_male color_female color_total,
     animate_scenario [] [initial_males] [initial_females]
       [initial_males + initial_females]
       title color_male color_female color_total = Raise ValueError).
Proof.
  apply (contradictory_schedule_not_rejected (of_Z 29) (of_Z 35) (decimal (-1) 10)).
  - vm_compute. exact I.
  - vm_compute. exact I.
  - vm_compute. exact I.
  - left. split; vm_compute; reflexivity.
Defined.

(** ** Extinction *)

Lemma recorded_viable (ms fs : list Z) (i : nat) :
  length fs = length ms ->
  Forall (fun p => viable (fst p) (snd p)) (combine ms fs) ->
  (i < length ms)%nat -> viable (nth i ms 0) (nth i fs 0).
Proof.
  revert fs i. induction ms as [|m ms IH]; intros [|f fs] i Hlen HF Hi;
    try discriminate; cbn in Hi; try lia.
  cbn in HF. inversion HF as [|p l Hp Hl]; subst. destruct i as [|i]; cbn.
  - exact Hp.
  - apply IH; [cbn in Hlen; congruence|exact Hl|lia].
Qed.

Lemma simulate_population_viable (np_exp : float -> float)
    (temp_range : list float) (cooling : bool)
    (temps : list float) (ms fs tot : list Z) (i : nat) :
  exp_range np_exp ->
  simulate_population np_exp temp_range cooling = Ok (temps, ms, fs, tot) ->
  (i < length ms)%nat -> viable (nth i ms 0) (nth i fs 0).
Proof.
  intros Hexp. unfold simulate_population.
  destruct (loop np_exp cooling temp_range initial_state) as [st|] eqn:Hloop;
    cbn [bind]; [|discriminate].
  intros [= <- <- <- <-] Hi.
  destruct (loop_inv _ _ _ _ _ Hexp initial_state_inv Hloop) as (_ & Hlf & _ & Hall).
  apply recorded_viable; assumption.
Qed.

(** C4: in every run, every recorded generation has males >= 0 and
    females >= 0 and a total within the carrying capacity; and the scaling by
    [carrying_capacity / (males + females)] followed by truncation never
    yields a total above the carrying capacity.  ([np.exp] is taken to return
    a number that is not negative, or no number.) *)
Theorem recorded_states_within_capacity (np_exp : float -> float)
    (temp_range : list float) (cooling : bool)
    (temps : list float) (male_counts female_counts total_population : list Z) :
  exp_range np_exp ->
  simulate_population np_exp temp_range cooling =
    Ok (temps, male_counts, female_counts, total_population) ->
  (forall i, (i < length male_counts)%nat ->
     0 <= nth i male_counts 0 /\ 0 <= nth i female_counts 0 /\
     nth i male_counts 0 + nth i female_counts 0 <= carrying_capacity) /\
  (forall males females males' females',
     0 <= males -> 0 <= females -> males + females < 2 ^ 40 ->
     capacity_constraint males females = Ok (males', females') ->
     0 <= males' /\ 0 <= females' /\
     (carrying_capacity < males + females -> males' + females' <= carrying_capacity)).
Proof.
  intros Hexp Hrun. split.
  - intros i Hi.
    destruct (simulate_population_viable _ _ _ _ _ _ _ i Hexp Hrun Hi) as (H1 & H2 & H3 & _).
    auto.
  - intros m f m' f' Hm Hf HT Hcap.
    destruct (capacity_constraint_viable m f m' f' Hm Hf HT Hcap)
      as [(Hle & -> & ->)|(Hlt & Hm' & Hf' & Hsum & _)].
    + repeat split; try assumption. lia.
    + auto.
Qed.

Lemma recorded_states_within_capacity_witness :
  exp_range exp_ref /\
  simulate_population exp_ref [of_Z 29] false =
    Ok ([of_Z 29], [250; 998], [250; 1001], [500; 1999]) /\
  0 <= 998 /\ 0 <= 1001 /\ 998 + 1001 <= carrying_capacity.
Proof.
  assert (Hrun : simulate_population exp_ref [of_Z 29] false =
                 Ok ([of_Z 29], [250; 998], [250; 1001], [500; 1999]))
    by (vm_compute; reflexivity).
  split; [exact exp_ref_range|]. split; [exact Hrun|].
  exact (proj1 (recorded_states_within_capacity exp_ref _ _ _ _ _ _
                  exp_ref_range Hrun) 1%nat ltac:(cbn; lia)).
Defined.

(** C9: after the newborns are added, a male count of 0 forces the female
    count to 0 before the state is recorded, and no recorded state of any run
    has males = 0 together with females > 0.  ([np.exp] is taken to return a
    number that is not negative, or no number.) *)
Theorem no_females_without_males (np_exp : float -> float)
    (temp_range : list float) (cooling : bool)
    (temps : list float) (male_counts female_counts total_population : list Z) :
  exp_range np_exp ->
  simulate_population np_exp temp_range cooling =
    Ok (temps, male_counts, female_counts, total_population) ->
  (forall females, extinction_rule 0 females = (0, 0)) /\
  capacity_constraint 0 0 = Ok (0, 0) /\
  (forall i, (i < length male_counts)%nat ->
     nth i male_counts 0 = 0 -> nth i female_counts 0 = 0).
Proof.
  intros Hexp Hrun. split; [reflexivity|]. split; [reflexivity|].
  intros i Hi.
  destruct (simulate_population_viable _ _ _ _ _ _ _ i Hexp Hrun Hi) as (_ & _ & _ & H).
  exact H.
Qed.

Lemma no_females_without_males_witness :
  exp_range exp_ref /\
  simulate_population exp_ref (repeat (of_Z 200) 9) false =
    Ok (repeat (of_Z 200) 9,
        [250; 19; 9; 5; 4; 3; 2; 1; 0],
        [250; 1980; 1990; 1994; 1724; 1478; 1250; 1035; 0],
        [500; 1999; 1999; 1999; 1728; 1481; 1252; 1036; 0]) /\
  nth 8 [250; 1980; 1990; 1994; 1724; 1478; 1250; 1035; 0] 0 = 0.
Proof.
  assert (Hrun : simulate_population exp_ref (repeat (of_Z 200) 9) false =
    Ok (repeat (of_Z 200) 9,
        [250; 19; 9; 5; 4; 3; 2; 1; 0],
        [250; 1980; 1990; 1994; 1724; 1478; 1250; 1035; 0],
        [500; 1999; 1999; 1999; 1728; 1481; 1252; 1036; 0]))
    by (vm_compute; reflexivity).
  split; [exact exp_ref_range|]. split; [exact Hrun|].
  exact (proj2 (proj2 (no_females_without_males exp_ref _ _ _ _ _ _
                         exp_ref_range Hrun)) 8%nat ltac:(cbn; lia) eq_refl).
Defined.

(** One generation at temperature 0.0 in the warming scenario, when
    [np.exp] returns a value between [2^20] and [2^21] at 14.5. *)
Lemma cold_loop_body (np_exp : float -> float) (st : state) (mature : Z) :
  float_leb (of_Z 1048576) (np_exp (- decimal 5 10 * (of_Z 0 - of_Z 29))%fl) = true ->
  float_leb (np_exp (- decimal 5 10 * (of_Z 0 - of_Z 29))%fl) (of_Z 2097152) = true ->
  mature_females_of (female_counts st) (females st) = Ok mature ->
  0 <= males st <= carrying_capacity -> 1 <= Z.min mature (males st) ->
  loop_body np_exp false (of_Z 0) st =
  ('(new_males, new_females, females0) <-
     collapse_guard (males st) (80 * Z.min mature (males st) - 1) 0 (females st) ;;
   '(males1, females1) <- mortality false (males st) females0 ;;
   let '(males2, females2) := add_newborns males1 females1 new_males new_females in
   let '(males3, females3) := extinction_rule males2 females2 in
   '(males4, females4) <- capacity_constraint males3 females3 ;;
   Ok {| males := males4;
         females := females4;
         male_counts := male_counts st ++ [males4];
         female_counts := female_counts st ++ [females4];
         total_population := total_population st ++ [males4 + females4] |}).
Proof.
  intros Hlo Hhi Hmature Hm Hmin. unfold loop_body. rewrite Hmature. cbn [bind].
  destruct (cold_ratio _ Hlo Hhi) as (v & Hfin & Hv).
  unfold get_female_ratio.
  rewrite (cold_reproduction _ v mature (males st) Hfin Hv Hm Hmin).
  reflexivity.
Qed.

(** C10: the extinction rule zeroes the females when the males are at 0 and
    leaves both counts alone otherwise, whatever the female count.  In every
    generation of the loop a male count of 0 after the newborns records the
    state (0, 0), and any other male count goes on to the capacity constraint
    with the female count as it is, be it 0.  On six temperatures of 0.0 in
    the warming scenario the state (1999, 0) is recorded as a generation, and
    the run stops at the check that opens the next iteration, with one
    temperature left.  ([np.exp] is taken to return at 14.5 a value between
    [2^20] and [2^21]; the exponential there is about 1982759.) *)
Theorem females_can_die_out_first (np_exp : float -> float) :
  float_leb (of_Z 1048576) (np_exp (- decimal 5 10 * (of_Z 0 - of_Z 29))%fl) = true ->
  float_leb (np_exp (- decimal 5 10 * (of_Z 0 - of_Z 29))%fl) (of_Z 2097152) = true ->
  (forall females, extinction_rule 0 females = (0, 0)) /\
  (forall males females, males <> 0 -> extinction_rule males females = (males, females)) /\
  (forall cooling temp st st',
     loop_body np_exp cooling temp st = Ok st' ->
     exists mature new_males0 new_females0 new_males new_females females0 males1 females1,
       mature_females_of (female_counts st) (females st) = Ok mature /\
       reproduction mature (males st)
         (get_female_ratio np_exp temp (of_Z 29) (decimal 5 10))
         (of_Z 1 - get_female_ratio np_exp temp (of_Z 29) (decimal 5 10))%fl =
         Ok (new_males0, new_females0) /\
       collapse_guard (males st) new_males0 new_females0 (females st) =
         Ok (new_males, new_females, females0) /\
       mortality cooling (males st) females0 = Ok (males1, females1) /\
       (males1 + new_males = 0 -> males st' = 0 /\ females st' = 0) /\
       (males1 + new_males <> 0 ->
        capacity_constraint (males1 + new_males) (females1 + new_females) =
          Ok (males st', females st'))) /\
  simulate_population np_exp (repeat (of_Z 0) 6) false =
    Ok (repeat (of_Z 0) 5,
        [250; 1977; 1988; 1992; 1999],
        [250; 22; 11; 7; 0],
        [500; 1999; 1999; 1999; 1999]).
Proof.
  intros Hlo Hhi.
  assert (Hrule : forall males females, males <> 0 ->
                    extinction_rule males females = (males, females)).
  { intros m f Hm. unfold extinction_rule.
    destruct (m =? 0) eqn:H0; [apply Z.eqb_eq in H0; contradiction|reflexivity]. }
  split; [reflexivity|]. split; [exact Hrule|]. split.
  - intros cooling temp st st' Hbody.
    destruct (loop_body_stages _ _ _ _ _ Hbody)
      as (mature & nm0 & nf0 & nm & nf & f0 & m1 & f1 & Hmat & Hrep & Hguard & Hmort & Hcap).
    exists mature, nm0, nf0, nm, nf, f0, m1, f1.
    split; [exact Hmat|]. split; [exact Hrep|]. split; [exact Hguard|]. split; [exact Hmort|]. split.
    + intros H0. rewrite H0 in Hcap. cbn in Hcap. injection Hcap as <- <-. auto.
    + intros Hne. rewrite (Hrule _ _ Hne) in Hcap. exact Hcap.
  - set (st1 := {| males := 1977; females := 22;
                   male_counts := [250; 1977]; female_counts := [250; 22];
                   total_population := [500; 1999] |}).
    set (st2 := {| males := 1988; females := 11;
                   male_counts := [250; 1977; 1988]; female_counts := [250; 22; 11];
                   total_population := [500; 1999; 1999] |}).
    set (st3 := {| males := 1992; females := 7;
                   male_counts := [250; 1977; 1988; 1992];
                   female_counts := [250; 22; 11; 7];
                   total_population := [500; 1999; 1999; 1999] |}).
    set (st4 := {| males := 1999; females := 0;
                   male_counts := [250; 1977; 1988; 1992; 1999];
                   female_counts := [250; 22; 11; 7; 0];
                   total_population := [500; 1999; 1999; 1999; 1999] |}).
    assert (H1 : loop_body np_exp false (of_Z 0) initial_state = Ok st1).
    { rewrite (cold_loop_body np_exp initial_state 250 Hlo Hhi eq_refl
                 ltac:(vm_compute; split; discriminate) ltac:(vm_compute; discriminate)).
      vm_compute. reflexivity. }
    assert (H2 : loop_body np_exp false (of_Z 0) st1 = Ok st2).
    { rewrite (cold_loop_body np_exp st1 22 Hlo Hhi eq_refl
                 ltac:(vm_compute; split; discriminate) ltac:(vm_compute; discriminate)).
      vm_compute. reflexivity. }
    assert (H3 : loop_body np_exp false (of_Z 0) st2 = Ok st3).
    { rewrite (cold_loop_body np_exp st2 11 Hlo Hhi eq_refl
                 ltac:(vm_compute; split; discriminate) ltac:(vm_compute; discriminate)).
      vm_compute. reflexivity. }
    assert (H4 : loop_body np_exp false (of_Z 0) st3 = Ok st4).
    { rewrite (cold_loop_body np_exp st3 250 Hlo Hhi eq_refl
                 ltac:(vm_compute; split; discriminate) ltac:(vm_compute; discriminate)).
      vm_compute. reflexivity. }
    unfold simulate_population. cbn [repeat].
    rewrite loop_step, H1 by (vm_compute; discriminate). cbn [bind].
    rewrite loop_step, H2 by (vm_compute; discriminate). cbn [bind].
    rewrite loop_step, H3 by (vm_compute; discriminate). cbn [bind].
    rewrite loop_step, H4 by (vm_compute; discriminate). cbn [bind].
    rewrite loop_extinct by (right; vm_compute; reflexivity). cbn [bind].
    reflexivity.
Qed.

Lemma females_can_die_out_first_witness :
  (forall females, extinction_rule 0 females = (0, 0)) /\
  (forall males females, males <> 0 -> extinction_rule males females = (males, females)) /\
  (forall cooling temp st st',
     loop_body exp_ref cooling temp st = Ok st' ->
     exists mature new_males0 new_females0 new_males new_females females0 males1 females1,
       mature_females_of (female_counts st) (females st) = Ok mature /\
       reproduction mature (males st)
         (get_female_ratio exp_ref temp (of_Z 29) (decimal 5 10))
         (of_Z 1 - get_female_ratio exp_ref temp (of_Z 29) (decimal 5 10))%fl =
         Ok (new_males0, new_females0) /\
       collapse_guard (males st) new_males0 new_females0 (females st) =
         Ok (new_males, new_females, females0) /\
       mortality cooling (males st) females0 = Ok (males1, females1) /\
       (males1 + new_males = 0 -> males st' = 0 /\ females st' = 0) /\
       (males1 + new_males <> 0 ->
        capacity_constraint (males1 + new_males) (females1 + new_females) =
          Ok (males st', females st'))) /\
  simulate_population exp_ref (repeat (of_Z 0) 6) false =
    Ok (repeat (of_Z 0) 5,
        [250; 1977; 1988; 1992; 1999],
        [250; 22; 11; 7; 0],
        [500; 1999; 1999; 1999; 1999]).
Proof.
  exact (females_can_die_out_first exp_ref
           ltac:(vm_compute; reflexivity) ltac:(vm_compute; reflexivity)).
Defined.

(** ** The sex ratio *)

Lemma rounded_not_nan sx x r : rounded sx x r -> r <> S754_nan.
Proof.
  intros (g & M & _ & _ & _ & _ & Hres).
  destruct Hres as [[_ ->]|[(_ & m & e & -> & _)|(_ & -> & _)]]; discriminate.
Qed.

Lemma binary_normalize_not_nan (m e : Z) (s : bool) :
  binary_normalize prec emax m e s <> S754_nan.
Proof.
  destruct m as [|p|p]; cbn [binary_normalize].
  - discriminate.
  - apply (rounded_not_nan false (F2R (Zpos p) e)). apply binary_round_rounded.
  - apply (rounded_not_nan true (F2R (Zpos p) e)). apply binary_round_rounded.
Qed.

(** The argument handed to [np.exp] is a number whenever the temperature
    is. *)
Lemma exp_argument_not_nan (temp : float) :
  temp <> S754_nan -> (- decimal 5 10 * (temp - of_Z 29))%fl <> S754_nan.
Proof.
  intros Ht.
  change (- decimal 5 10)%fl with (S754_finite true 4503599627370496 (-53)).
  change (of_Z 29) with (S754_finite false 8162774324609024 (-48)).
  assert (Hsub : (temp - S754_finite false 8162774324609024 (-48))%fl <> S754_nan).
  { destruct temp as [s|s| |s m e]; try discriminate; [contradiction|].
    unfold sub. cbn [SFsub]. apply binary_normalize_not_nan. }
  destruct (temp - S754_finite false 8162774324609024 (-48))%fl as [s|s| |s m e];
    try discriminate; [contradiction|].
  apply (rounded_not_nan (xorb true s)
           (F2R 4503599627370496 (-53) * F2R (Zpos m) e)%R).
  apply mul_rounded.
Qed.

(** The claim of C5 fails far from the pivot: at 200 degrees the ratio is
    exactly 1, and it is the same at 300 degrees, so the value is not below 1
    and does not increase; at -3000 degrees it is exactly 0. *)
Lemma female_ratio_saturates :
  get_female_ratio exp_ref (of_Z 200) (of_Z 29) (decimal 5 10) = of_Z 1 /\
  get_female_ratio exp_ref (of_Z 300) (of_Z 29) (decimal 5 10) = of_Z 1 /\
  get_female_ratio exp_ref (of_Z (-3000)) (of_Z 29) (decimal 5 10) = S754_zero false.
Proof. split_all; vm_compute; reflexivity. Qed.

(** C5, amended: the sex-ratio function evaluates the logistic expression
    [1 / (1 + exp (- steepness * (temp - pivotal_temperature)))] in binary64
    arithmetic; it returns exactly 0.5 at the pivotal temperature 29.0, and
    for every temperature that is a number its value is a float in the closed
    interval from 0 to 1.  It does not decrease with the temperature: for
    finite temperatures [t1 <= t2] the argument of the exponential at [t2] is
    at most the one at [t1], and where the exponential respects that order the
    ratio at [t1] is at most the ratio at [t2].  ([np.exp] is taken to return
    1 at -0.0 and, on a number, a number that is not negative.) *)
Theorem female_ratio_bounded_monotone (np_exp : float -> float) :
  np_exp (S754_zero true) = of_Z 1 ->
  (forall x, x <> S754_nan -> nonneg_float (np_exp x)) ->
  (forall temp pivotal_temp transition,
     get_female_ratio np_exp temp pivotal_temp transition =
     (of_Z 1 / (of_Z 1 + np_exp (- transition * (temp - pivotal_temp))))%fl) /\
  get_female_ratio np_exp (of_Z 29) (of_Z 29) (decimal 5 10) = decimal 5 10 /\
  F2R 4503599627370496 (-53) = (/ 2)%R /\
  decimal 5 10 = S754_finite false 4503599627370496 (-53) /\
  (forall temp, temp <> S754_nan ->
     unit_float (get_female_ratio np_exp temp (of_Z 29) (decimal 5 10))) /\
  (forall t1 t2, is_finite t1 -> is_finite t2 -> float_leb t1 t2 = true ->
     float_leb (- decimal 5 10 * (t2 - of_Z 29))%fl
               (- decimal 5 10 * (t1 - of_Z 29))%fl = true /\
     (float_leb (np_exp (- decimal 5 10 * (t2 - of_Z 29))%fl)
                (np_exp (- decimal 5 10 * (t1 - of_Z 29))%fl) = true ->
      float_leb (get_female_ratio np_exp t1 (of_Z 29) (decimal 5 10))
                (get_female_ratio np_exp t2 (of_Z 29) (decimal 5 10)) = true)).
Proof.
  intros Hzero Htotal. split; [reflexivity|].
  split; [apply female_ratio_at_pivot; exact Hzero|].
  split; [apply F2R_half|].
  split; [reflexivity|].
  split.
  - intros temp Ht. unfold get_female_ratio.
    apply recip_spec, add_one_spec, Htotal, exp_argument_not_nan. exact Ht.
  - intros t1 t2 H1 H2 Hle. apply float_leb_le in Hle.
    destruct (female_ratio_monotone np_exp t1 t2 Htotal H1 H2 Hle) as [Harg Hratio].
    split; [apply float_leb_le; exact Harg|].
    intros Hexp. apply float_leb_le, Hratio, float_leb_le. exact Hexp.
Qed.

Lemma female_ratio_bounded_monotone_witness :
  exp_ref (S754_zero true) = of_Z 1 /\
  unit_float (get_female_ratio exp_ref (of_Z 200) (of_Z 29) (decimal 5 10)) /\
  float_leb (get_female_ratio exp_ref (of_Z 28) (of_Z 29) (decimal 5 10))
            (get_female_ratio exp_ref (of_Z 30) (of_Z 29) (decimal 5 10)) = true.
Proof.
  pose proof (female_ratio_bounded_monotone exp_ref eq_refl exp_ref_total)
    as (_ & _ & _ & _ & Hunit & Hmono).
  split; [reflexivity|]. split; [exact (Hunit (of_Z 200) ltac:(discriminate))|].
  destruct (Hmono (of_Z 28) (of_Z 30) I I ltac:(vm_compute; reflexivity)) as [_ H].
  apply H. vm_compute. reflexivity.
Defined.

(** ** Runs that return, runs that raise *)

Lemma capacity_constraint_ok (m f : Z) :
  0 <= m -> 0 <= f -> m + f < 2 ^ 40 ->
  exists m' f', capacity_constraint m f = Ok (m', f').
Proof.
  intros Hm Hf HT. unfold capacity_constraint.
  destruct (carrying_capacity <? m + f) eqn:Hcap; [|eauto].
  apply Z.ltb_lt in Hcap.
  destruct (truediv_capacity (m + f) ltac:(lia)) as (ms & es & -> & Hs). cbn [bind].
  destruct (capacity_scale (m + f) f ms es ltac:(lia) ltac:(lia) Hs) as (kf & -> & _).
  destruct (capacity_scale (m + f) m ms es ltac:(lia) ltac:(lia) Hs) as (km & -> & _).
  cbn [bind]. eauto.
Qed.

Lemma reproduction_ok (mf m : Z) (fr mr : float) :
  0 <= mf -> 0 <= m <= carrying_capacity -> unit_float fr -> unit_float mr ->
  exists nm nf, reproduction mf m fr mr = Ok (nm, nf) /\
                0 <= nm <= 80 * Z.min mf m /\ 0 <= nf <= 80 * Z.min mf m.
Proof.
  intros Hmf Hm Hfr Hmr. unfold reproduction.
  rewrite survivors_table by lia. cbn [bind].
  assert (Hp : 0 <= 80 * Z.min mf m < 2 ^ 53) by (unfold carrying_capacity in Hm; lia).
  destruct (int_of_product_unit _ _ Hp Hmr) as (km & -> & Hkm).
  destruct (int_of_product_unit _ _ Hp Hfr) as (kf & -> & Hkf).
  cbn [bind]. eauto.
Qed.

(** The rest of a generation, from the collapse guard on, returns. *)
Lemma generation_ok {A} (cooling : bool) (m f nm nf bound : Z)
    (k : Z * Z -> result A) :
  viable m f -> 0 <= nm <= bound -> 0 <= nf <= bound -> bound <= 160000 ->
  exists p,
    ('(new_males, new_females, females0) <- collapse_guard m nm nf f ;;
     '(males1, females1) <- mortality cooling m females0 ;;
     let '(males2, females2) := add_newborns males1 females1 new_males new_females in
     let '(males3, females3) := extinction_rule males2 females2 in
     p <- capacity_constraint males3 females3 ;; k p) = k p.
Proof.
  intros (Hm0 & Hf0 & Hsum & _) Hnm Hnf Hb.
  unfold carrying_capacity in Hsum.
  rewrite collapse_guard_spec by (unfold carrying_capacity; lia). cbn [bind].
  destruct (m <=? 5) eqn:Hguard;
    (rewrite mortality_spec by (unfold carrying_capacity; lia)); cbn [bind];
    destruct cooling; unfold add_newborns; cbv zeta; unfold extinction_rule;
    match goal with |- context [?a =? 0] => destruct (a =? 0) end;
    match goal with
    | |- context [capacity_constraint ?a ?b] =>
        destruct (capacity_constraint_ok a b) as (m4 & f4 & ->); try lia
    end; cbn [bind]; eauto.
Qed.

Lemma loop_body_ok np_exp cooling temp st :
  nonneg_float (np_exp (- decimal 5 10 * (temp - of_Z 29))%fl) ->
  Inv st -> exists st', loop_body np_exp cooling temp st = Ok st'.
Proof.
  intros Hnn (Hv & Hlf & Hlt & Hall).
  unfold loop_body. rewrite mature_females_of_spec. cbn [bind].
  set (mf := if maturity_age <=? Z.of_nat (length (female_counts st))
             then nth (length (female_counts st) - 4) (female_counts st) 0
             else females st).
  assert (Hmf : 0 <= mf).
  { unfold mf. destruct (maturity_age <=? _); [|destruct Hv as (? & ? & _); lia].
    apply (recorded_females_nonneg (male_counts st)); assumption. }
  pose proof (recip_spec _ (add_one_spec _ Hnn)) as Hfr.
  fold (get_female_ratio np_exp temp (of_Z 29) (decimal 5 10)) in Hfr.
  pose proof (one_minus_spec _ Hfr) as Hmr.
  destruct (reproduction_ok mf (males st) _ _ Hmf
              ltac:(destruct Hv as (? & ? & ? & _); lia) Hfr Hmr)
    as (nm & nf & -> & Hnm & Hnf).
  cbn [bind].
  destruct (generation_ok cooling (males st) (females st) nm nf
              (80 * Z.min mf (males st))
              (fun p => let '(males4, females4) := p in
                 Ok {| males := males4; females := females4;
                       male_counts := male_counts st ++ [males4];
                       female_counts := female_counts st ++ [females4];
                       total_population := total_population st ++ [males4 + females4] |})
              Hv Hnm Hnf
              ltac:(destruct Hv as (? & ? & ? & _); unfold carrying_capacity in *; lia))
    as ([m4 f4] & Hgen).
  eexists. etransitivity; [exact Hgen|]. reflexivity.
Qed.

Lemma loop_ok np_exp cooling temp_range : forall st,
  exp_range np_exp -> (forall x, x <> S754_nan -> np_exp x <> S754_nan) ->
  Forall (fun t => t <> S754_nan) temp_range -> Inv st ->
  exists st', loop np_exp cooling temp_range st = Ok st'.
Proof.
  induction temp_range as [|temp rest IH]; intros st Hexp Hnum Htemps Hinv; cbn [loop].
  - eauto.
  - destruct ((males st <? 1) || (females st <? 1)) eqn:Hbreak; [eauto|].
    apply orb_false_iff in Hbreak. destruct Hbreak as [Hm Hf].
    apply Z.ltb_ge in Hm, Hf.
    inversion Htemps as [|t l Ht Hl]; subst.
    assert (Hnn : nonneg_float (np_exp (- decimal 5 10 * (temp - of_Z 29))%fl)).
    { pose proof (Hnum _ (exp_argument_not_nan temp Ht)) as Hn.
      destruct (Hexp (- decimal 5 10 * (temp - of_Z 29))%fl) as [H|H];
        [contradiction|exact H]. }
    destruct (loop_body_ok np_exp cooling temp st Hnn Hinv) as (st1 & Hbody).
    rewrite Hbody. cbn [bind].
    apply IH; try assumption.
    apply (loop_body_inv np_exp cooling temp st); assumption.
Qed.

Lemma exp_ref_not_nan (x : float) : x <> S754_nan -> exp_ref x <> S754_nan.
Proof.
  intros Hx Hn. pose proof (exp_ref_total x Hx) as H. rewrite Hn in H. exact H.
Qed.

(** X1: with an exponential that returns a number that is not negative on
    every number, [simulate_population] raises nothing on a schedule of
    numbers: it returns its four sequences, in both scenarios. *)
Theorem simulate_population_returns (np_exp : float -> float)
    (temp_range : list float) (cooling : bool) :
  exp_range np_exp ->
  (forall x, x <> S754_nan -> np_exp x <> S754_nan) ->
  Forall (fun t => t <> S754_nan) temp_range ->
  exists temps male_counts female_counts total_population,
    simulate_population np_exp temp_range cooling =
      Ok (temps, male_counts, female_counts, total_population).
Proof.
  intros Hexp Hnum Htemps. unfold simulate_population.
  destruct (loop_ok np_exp cooling temp_range initial_state Hexp Hnum Htemps
              initial_state_inv) as (st & ->).
  cbn [bind]. eauto.
Qed.

Lemma simulate_population_returns_witness :
  exists temps male_counts female_counts total_population,
    simulate_population exp_ref [of_Z 29; of_Z 30; of_Z 31] true =
      Ok (temps, male_counts, female_counts, total_population).
Proof.
  apply (simulate_population_returns exp_ref [of_Z 29; of_Z 30; of_Z 31] true
           exp_ref_range exp_ref_not_nan).
  repeat constructor; discriminate.
Defined.

Lemma int_of_product_nan_raises (n : Z) :
  0 <= n < 2 ^ 53 -> int_of_product n S754_nan = Raise ValueError.
Proof.
  intros Hn. unfold int_of_product, int_mul_float.
  destruct (Z.eq_dec n 0) as [->|Hn0]; [reflexivity|].
  destruct (float_of_int_exact n ltac:(lia)) as (m & e & -> & _). reflexivity.
Qed.

Lemma female_ratio_nan (np_exp : float -> float) :
  np_exp S754_nan = S754_nan ->
  get_female_ratio np_exp S754_nan (of_Z 29) (decimal 5 10) = S754_nan.
Proof.
  intros Hexp. unfold get_female_ratio.
  change (- decimal 5 10 * (S754_nan - of_Z 29))%fl with S754_nan.
  rewrite Hexp. reflexivity.
Qed.

Lemma loop_body_nan np_exp cooling st :
  np_exp S754_nan = S754_nan -> Inv st ->
  loop_body np_exp cooling S754_nan st = Raise ValueError.
Proof.
  intros Hexp (Hv & Hlf & Hlt & Hall).
  unfold loop_body. rewrite mature_females_of_spec. cbn [bind].
  set (mf := if maturity_age <=? Z.of_nat (length (female_counts st))
             then nth (length (female_counts st) - 4) (female_counts st) 0
             else females st).
  assert (Hmf : 0 <= mf).
  { unfold mf. destruct (maturity_age <=? _); [|destruct Hv as (? & ? & _); lia].
    apply (recorded_females_nonneg (male_counts st)); assumption. }
  rewrite (female_ratio_nan np_exp Hexp).
  change (of_Z 1 - S754_nan)%fl with S754_nan.
  unfold reproduction. destruct Hv as (Hm0 & Hf0 & Hsum & _).
  unfold carrying_capacity in Hsum.
  rewrite survivors_table by (unfold carrying_capacity; lia). cbn [bind].
  rewrite int_of_product_nan_raises by lia. reflexivity.
Qed.

(** A state the loop leaves unchanged whatever the schedule. *)
(** What a returned run says of the state the loop ended in. *)
Lemma simulate_population_state np_exp temp_range cooling temps ms fs tot :
  simulate_population np_exp temp_range cooling = Ok (temps, ms, fs, tot) ->
  exists st, loop np_exp cooling temp_range initial_state = Ok st /\
             male_counts st = ms /\ female_counts st = fs /\
             total_population st = tot /\
             males st = last ms 0 /\ females st = last fs 0.
Proof.
  unfold simulate_population.
  destruct (loop np_exp cooling temp_range initial_state) as [st|] eqn:Hloop;
    cbn [bind]; [|discriminate].
  intros [= <- <- <- <-]. exists st.
  destruct (loop_records _ _ _ _ _ initial_state_synced Hloop)
    as ((_ & _ & Hm & Hf) & _).
  repeat split; assumption.
Qed.

(** X2: a temperature that is not a number, met while both sexes are alive,
    makes [simulate_population] raise [ValueError] (from [int] of a product
    that is not a number), whatever follows it in the schedule. *)
Theorem nan_temperature_raises (np_exp : float -> float) (cooling : bool)
    (l1 l2 temps : list float) (male_counts female_counts total_population : list Z) :
  exp_range np_exp -> np_exp S754_nan = S754_nan ->
  simulate_population np_exp l1 cooling =
    Ok (temps, male_counts, female_counts, total_population) ->
  1 <= last male_counts 0 -> 1 <= last female_counts 0 ->
  simulate_population np_exp (l1 ++ S754_nan :: l2) cooling = Raise ValueError.
Proof.
  intros Hexp Hnan Hrun Hm Hf.
  destruct (simulate_population_state _ _ _ _ _ _ _ Hrun)
    as (st & Hloop & _ & _ & _ & Hms & Hfs).
  unfold simulate_population.
  rewrite loop_app, Hloop. cbn [bind loop].
  replace ((males st <? 1) || (females st <? 1)) with false.
  - rewrite (loop_body_nan np_exp cooling st Hnan); [reflexivity|].
    exact (loop_inv _ _ _ _ _ Hexp initial_state_inv Hloop).
  - symmetry. apply orb_false_iff. split; apply Z.ltb_ge; lia.
Qed.

Lemma nan_temperature_raises_witness :
  simulate_population exp_ref ([of_Z 29] ++ S754_nan :: [of_Z 30]) false =
    Raise ValueError.
Proof.
  apply (nan_temperature_raises exp_ref false [of_Z 29] [of_Z 30]
           [of_Z 29] [250; 998] [250; 1001] [500; 1999]
           exp_ref_range eq_refl);
    [vm_compute; reflexivity|cbn; lia|cbn; lia].
Defined.

(** ** Longer schedules *)

Lemma loop_extends np_exp cooling temp_range : forall st st',
  loop np_exp cooling temp_range st = Ok st' ->
  exists em ef ep,
    male_counts st' = male_counts st ++ em /\
    female_counts st' = female_counts st ++ ef /\
    total_population st' = total_population st ++ ep.
Proof.
  induction temp_range as [|temp rest IH]; intros st st'; cbn [loop].
  - intros [= <-]. exists [], [], []. rewrite !app_nil_r. auto.
  - destruct ((males st <? 1) || (females st <? 1)).
    + intros [= <-]. exists [], [], []. rewrite !app_nil_r. auto.
    + destruct (loop_body np_exp cooling temp st) as [st1|] eqn:Hbody; cbn [bind];
        [|discriminate].
      intros Hloop. destruct (IH _ _ Hloop) as (em & ef & ep & Hm & Hf & Hp).
      destruct (loop_body_records _ _ _ _ _ Hbody) as (Hms & Hfs & Htot).
      exists (males st1 :: em), (females st1 :: ef), (males st1 + females st1 :: ep).
      rewrite Hm, Hf, Hp, Hms, Hfs, Htot, <- !app_assoc. auto.
Qed.

(** X3: what a longer schedule changes.  An exception raised on a schedule
    is raised on every extension of it; a run that ended with a sex extinct
    records the same generations on every extension, whatever the added
    temperatures; and in every case the generations recorded on a schedule
    open the sequences recorded on its extensions. *)
Theorem schedule_extension (np_exp : float -> float) (cooling : bool)
    (l1 l2 : list float) :
  (forall e, simulate_population np_exp l1 cooling = Raise e ->
             simulate_population np_exp (l1 ++ l2) cooling = Raise e) /\
  (forall temps male_counts female_counts total_population,
     simulate_population np_exp l1 cooling =
       Ok (temps, male_counts, female_counts, total_population) ->
     (last male_counts 0 < 1 \/ last female_counts 0 < 1 ->
      simulate_population np_exp (l1 ++ l2) cooling =
        Ok (firstn (length male_counts) (l1 ++ l2),
            male_counts, female_counts, total_population)) /\
     (forall temps' male_counts' female_counts' total_population',
        simulate_population np_exp (l1 ++ l2) cooling =
          Ok (temps', male_counts', female_counts', total_population') ->
        exists em ef ep,
          male_counts' = male_counts ++ em /\
          female_counts' = female_counts ++ ef /\
          total_population' = total_population ++ ep)).
Proof.
  split.
  - intros e. unfold simulate_population. rewrite loop_app.
    destruct (loop np_exp cooling l1 initial_state) as [st|e']; cbn [bind];
      [discriminate|auto].
  - intros temps ms fs tot Hrun.
    destruct (simulate_population_state _ _ _ _ _ _ _ Hrun)
      as (st & Hloop & Hms & Hfs & Htot & Hm & Hf).
    split.
    + intros Hext. unfold simulate_population.
      rewrite loop_app, Hloop. cbn [bind].
      rewrite loop_extinct by (rewrite Hm, Hf; exact Hext).
      cbn [bind]. rewrite Hms, Hfs, Htot. reflexivity.
    + intros temps' ms' fs' tot'. unfold simulate_population.
      rewrite loop_app, Hloop. cbn [bind].
      destruct (loop np_exp cooling l2 st) as [st'|] eqn:Hloop2; cbn [bind];
        [|discriminate].
      intros [= <- <- <- <-].
      destruct (loop_extends _ _ _ _ _ Hloop2) as (em & ef & ep & H1 & H2 & H3).
      exists em, ef, ep. rewrite <- Hms, <- Hfs, <- Htot. auto.
Qed.

(** ** The recorded sequences *)

Lemma loop_sums np_exp cooling temp_range : forall st st',
  length (female_counts st) = length (male_counts st) ->
  total_population st =
    map (fun p => fst p + snd p) (combine (male_counts st) (female_counts st)) ->
  loop np_exp cooling temp_range st = Ok st' ->
  total_population st' =
    map (fun p => fst p + snd p) (combine (male_counts st') (female_counts st')).
Proof.
  induction temp_range as [|temp rest IH]; intros st st' Hlen Hsum; cbn [loop].
  - intros [= <-]. exact Hsum.
  - destruct ((males st <? 1) || (females st <? 1)).
    + intros [= <-]. exact Hsum.
    + destruct (loop_body np_exp cooling temp st) as [st1|] eqn:Hbody; cbn [bind];
        [|discriminate].
      destruct (loop_body_records _ _ _ _ _ Hbody) as (Hms & Hfs & Htot).
      apply IH.
      * rewrite Hms, Hfs, !length_app, Hlen. reflexivity.
      * rewrite Hms, Hfs, Htot, combine_snoc by exact Hlen.
        rewrite map_app, Hsum. reflexivity.
Qed.

(** X4: in every returned run each recorded total is the sum of the males and
    females recorded with it, and the sequences open with the initial state:
    [initial_population // 2] males and as many females. *)
Theorem recorded_totals (np_exp : float -> float)
    (temp_range : list float) (cooling : bool)
    (temps : list float) (male_counts female_counts total_population : list Z) :
  simulate_population np_exp temp_range cooling =
    Ok (temps, male_counts, female_counts, total_population) ->
  (forall i, (i < length total_population)%nat ->
     nth i total_population 0 = nth i male_counts 0 + nth i female_counts 0) /\
  (exists later_males later_females later_totals,
     male_counts = initial_males :: later_males /\
     female_counts = initial_females :: later_females /\
     total_population = initial_males + initial_females :: later_totals).
Proof.
  intros Hrun.
  destruct (simulate_population_state _ _ _ _ _ _ _ Hrun)
    as (st & Hloop & Hms & Hfs & Htot & _ & _).
  split.
  - pose proof (loop_sums np_exp cooling temp_range initial_state st eq_refl eq_refl Hloop)
      as Hsum.
    destruct (loop_records _ _ _ _ _ initial_state_synced Hloop)
      as ((Hlf & Hlt & _ & _) & _).
    rewrite Hms, Hfs, Htot in *. intros i Hi.
    rewrite Hsum.
    rewrite (nth_indep _ 0 (fst (0, 0) + snd (0, 0)))
      by (rewrite length_map, length_combine; lia).
    rewrite (map_nth (fun p => fst p + snd p)), combine_nth by exact (eq_sym Hlf).
    reflexivity.
  - destruct (loop_extends _ _ _ _ _ Hloop) as (em & ef & ep & H1 & H2 & H3).
    exists em, ef, ep. rewrite <- Hms, <- Hfs, <- Htot. auto.
Qed.

Lemma recorded_totals_witness :
  nth 1 [500; 1999] 0 = nth 1 [250; 998] 0 + nth 1 [250; 1001] 0.
Proof.
  assert (Hrun : simulate_population exp_ref [of_Z 29] false =
                 Ok ([of_Z 29], [250; 998], [250; 1001], [500; 1999]))
    by (vm_compute; reflexivity).
  exact (proj1 (recorded_totals exp_ref _ _ _ _ _ _ Hrun) 1%nat ltac:(cbn; lia)).
Defined.

(** ** The stages, in closed form *)

(** X5: in the warming scenario, for male and female counts within the
    carrying capacity, mortality leaves [floor (4 m / 5)] males and
    [floor (9 f / 10)] females, never more than there were.  In a generation
    of the loop the newborns are added to these integers: the state recorded
    is the extinction rule and the capacity constraint applied to the
    truncated survivors plus the newborns that the collapse guard let
    through. *)
Theorem warming_mortality (np_exp : float -> float) (temp : float) (st st' : state) :
  0 <= males st <= carrying_capacity -> 0 <= females st <= carrying_capacity ->
  loop_body np_exp false temp st = Ok st' ->
  (forall m f, 0 <= m <= carrying_capacity -> 0 <= f <= carrying_capacity ->
     mortality false m f = Ok (4 * m / 5, 9 * f / 10) /\
     4 * m / 5 <= m /\ 9 * f / 10 <= f) /\
  exists mature new_males0 new_females0 new_males new_females females0,
    mature_females_of (female_counts st) (females st) = Ok mature /\
    reproduction mature (males st)
      (get_female_ratio np_exp temp (of_Z 29) (decimal 5 10))
      (of_Z 1 - get_female_ratio np_exp temp (of_Z 29) (decimal 5 10))%fl =
      Ok (new_males0, new_females0) /\
    collapse_guard (males st) new_males0 new_females0 (females st) =
      Ok (new_males, new_females, females0) /\
    0 <= females0 <= carrying_capacity /\
    mortality false (males st) females0 =
      Ok (4 * males st / 5, 9 * females0 / 10) /\
    let after := extinction_rule (4 * males st / 5 + new_males)
                                 (9 * females0 / 10 + new_females) in
    capacity_constraint (fst after) (snd after) = Ok (males st', females st').
Proof.
  intros Hm Hf Hbody. split.
  - intros m f Hm' Hf'. split; [exact (mortality_spec false m f Hm' Hf')|lia].
  - destruct (loop_body_stages _ _ _ _ _ Hbody)
      as (mature & nm0 & nf0 & nm & nf & f0 & m1 & f1 & Hmat & Hrep & Hguard & Hmort & Hcap).
    assert (Hf0 : 0 <= f0 <= carrying_capacity).
    { rewrite (collapse_guard_spec _ _ _ _ Hf) in Hguard. unfold carrying_capacity in *.
      destruct (males st <=? 5);
        [assert (f0 = 17 * females st / 20) by congruence
        |assert (f0 = females st) by congruence]; lia. }
    rewrite (mortality_spec false _ _ Hm Hf0) in Hmort. injection Hmort as <- <-.
    exists mature, nm0, nf0, nm, nf, f0.
    split; [exact Hmat|]. split; [exact Hrep|]. split; [exact Hguard|]. split; [exact Hf0|].
    split; [exact (mortality_spec false _ _ Hm Hf0)|exact Hcap].
Qed.

Lemma warming_mortality_witness :
  (forall m f, 0 <= m <= carrying_capacity -> 0 <= f <= carrying_capacity ->
     mortality false m f = Ok (4 * m / 5, 9 * f / 10) /\
     4 * m / 5 <= m /\ 9 * f / 10 <= f) /\
  exists mature new_males0 new_females0 new_males new_females females0,
    mature_females_of [250] 250 = Ok mature /\
    reproduction mature 250
      (get_female_ratio exp_ref (of_Z 31) (of_Z 29) (decimal 5 10))
      (of_Z 1 - get_female_ratio exp_ref (of_Z 31) (of_Z 29) (decimal 5 10))%fl =
      Ok (new_males0, new_females0) /\
    collapse_guard 250 new_males0 new_females0 250 =
      Ok (new_males, new_females, females0) /\
    0 <= females0 <= carrying_capacity /\
    mortality false 250 females0 =
      Ok (4 * 250 / 5, 9 * females0 / 10) /\
    let after := extinction_rule (4 * 250 / 5 + new_males)
                                 (9 * females0 / 10 + new_females) in
    capacity_constraint (fst after) (snd after) = Ok (546, 1453).
Proof.
  exact (warming_mortality exp_ref (of_Z 31) initial_state
           {| males := 546; females := 1453;
              male_counts := [250; 546]; female_counts := [250; 1453];
              total_population := [500; 1999] |}
           ltac:(vm_compute; split; discriminate)
           ltac:(vm_compute; split; discriminate)
           ltac:(vm_compute; reflexivity)).
Defined.

Lemma div_sum_ge (a b T : Z) : 0 < T -> (a + b) / T - 1 <= a / T + b / T.
Proof.
  intros HT.
  pose proof (Z.div_mod a T ltac:(lia)) as Ha.
  pose proof (Z.div_mod b T ltac:(lia)) as Hb.
  pose proof (Z.mod_pos_bound a T HT) as Hra.
  pose proof (Z.mod_pos_bound b T HT) as Hrb.
  assert (Hlt : (a + b) / T < a / T + b / T + 2); [|lia].
  apply Z.div_lt_upper_bound; [exact HT|].
  set (qa := a / T) in *. set (qb := b / T) in *.
  set (ra := a mod T) in *. set (rb := b mod T) in *.
  clearbody qa qb ra rb.
  replace (T * (qa + qb + 2)) with (T * qa + T * qb + 2 * T) by ring. lia.
Qed.

(** X6: a population above the carrying capacity is always scaled, without an
    exception: each count becomes its exact share [2000 c / total] rounded
    down, or one less, so that the scaled total is at most the carrying
    capacity and at least the carrying capacity less 3. *)
Theorem capacity_constraint_scales (m f : Z) :
  0 <= m -> 0 <= f -> carrying_capacity < m + f < 2 ^ 40 ->
  exists m' f',
    capacity_constraint m f = Ok (m', f') /\
    carrying_capacity * m / (m + f) - 1 <= m' <= carrying_capacity * m / (m + f) /\
    carrying_capacity * f / (m + f) - 1 <= f' <= carrying_capacity * f / (m + f) /\
    carrying_capacity - 3 <= m' + f' <= carrying_capacity.
Proof.
  intros Hm Hf HT. unfold capacity_constraint.
  replace (carrying_capacity <? m + f) with true by (symmetry; apply Z.ltb_lt; lia).
  destruct (truediv_capacity (m + f) HT) as (ms & es & -> & Hs). cbn [bind].
  destruct (capacity_scale (m + f) f ms es HT ltac:(lia) Hs) as (kf & -> & _ & Hkf).
  destruct (capacity_scale (m + f) m ms es HT ltac:(lia) Hs) as (km & -> & _ & Hkm).
  cbn [bind]. exists km, kf. unfold carrying_capacity in *.
  split; [reflexivity|]. split; [exact Hkm|]. split; [exact Hkf|].
  assert (HTpos : 0 < m + f) by lia.
  pose proof (div_sum_le (2000 * m) (2000 * f) (m + f) HTpos) as Hle.
  pose proof (div_sum_ge (2000 * m) (2000 * f) (m + f) HTpos) as Hge.
  replace (2000 * m + 2000 * f) with (2000 * (m + f)) in Hle, Hge by ring.
  rewrite Z.div_mul in Hle, Hge by lia.
  set (a := 2000 * m / (m + f)) in *. set (b := 2000 * f / (m + f)) in *.
  clearbody a b. lia.
Qed.

Lemma capacity_constraint_scales_witness :
  exists m' f',
    capacity_constraint 10200 10225 = Ok (m', f') /\
    carrying_capacity - 3 <= m' + f' <= carrying_capacity.
Proof.
  destruct (capacity_constraint_scales 10200 10225 ltac:(lia) ltac:(lia)
              ltac:(unfold carrying_capacity; lia))
    as (m' & f' & H & _ & _ & Hsum).
  exists m', f'. split; [exact H|exact Hsum].
Defined.

(** ** Logistic growth *)

Lemma forallb_range (P : Z -> bool) (n : nat) :
  forallb (fun i => P (Z.of_nat i)) (seq 0 n) = true ->
  forall z, 0 <= z < Z.of_nat n -> P z = true.
Proof.
  rewrite forallb_forall. intros H z Hz.
  specialize (H (Z.to_nat z)). rewrite Z2Nat.id in H by lia.
  apply H, in_seq. lia.
Qed.

Lemma logistic_growth_table (p : Z) :
  0 <= p <= carrying_capacity ->
  match logistic_growth p with
  | Ok r => float_leb (S754_zero false) r && float_leb r (of_Z 500)
  | Raise _ => false
  end = true.
Proof.
  intros Hp.
  apply (forallb_range
           (fun p => match logistic_growth p with
                     | Ok r => float_leb (S754_zero false) r && float_leb r (of_Z 500)
                     | Raise _ => false
                     end) 2001); [vm_compute; reflexivity|].
  unfold carrying_capacity in Hp. lia.
Qed.

Lemma logistic_growth_beyond (p : Z) :
  carrying_capacity < p < 2 ^ 53 ->
  exists r, logistic_growth p = Ok r /\ float_le r (S754_zero false).
Proof.
  unfold carrying_capacity. intros Hp. unfold logistic_growth, int_truediv, carrying_capacity.
  change (2000 =? 0) with false. cbv iota.
  replace (p =? 0) with false by (symmetry; apply Z.eqb_neq; lia).
  replace (p <? 0) with false by (symmetry; apply Z.ltb_ge; lia).
  change (2000 <? 0) with false. cbn [xorb].
  rewrite (Z.abs_eq p) by lia. change (Z.abs 2000) with 2000.
  assert (Hpr : (2000 < IZR p)%R) by (apply IZR_lt; lia).
  assert (Hx : (F2R p 0 / F2R 2000 0 = IZR p / 2000)%R).
  { unfold F2R. rewrite pow2_0. field. }
  set (x := (IZR p / 2000)%R) in *.
  assert (Hx1 : (1 <= x)%R) by (unfold x; lra).
  assert (Hxp : (x <= IZR p)%R) by (unfold x; lra).
  pose proof (div_core_rounded false p 0 2000 0 ltac:(lia) ltac:(lia)) as Hr.
  rewrite Hx in Hr.
  specialize (Hr ltac:(pose proof (pow2_le (-1074) 0 ltac:(lia)) as H;
                       rewrite pow2_0 in H; lra)).
  destruct (SFdiv_core_binary prec emax p 0 2000 0) as [[q e] l].
  set (r := binary_round_aux prec emax false q e l) in *.
  destruct (rounded_le_int _ _ p Hr Hxp ltac:(lia)) as (v & Hfin & Hv).
  destruct (rounded_ge_int _ _ 1 Hr Hx1 ltac:(lia)) as [Hinf|(m & ex & Hq & Hge)].
  { exfalso. destruct Hfin as [[Hz _]|(m & ex & Hq & _)]; congruence. }
  rewrite Hq. cbn [bind]. unfold int_mul_float.
  destruct (float_of_int_exact p ltac:(lia)) as (mp & ep & -> & _). cbn [bind].
  eexists. split; [reflexivity|].
  rewrite of_Z_one.
  pose proof (sub_srounded false 4503599627370496 (-52) false m ex) as Hs.
  cbn [FR cond_Zopp] in Hs. rewrite F2R_one in Hs.
  destruct Hs as [[_ [s ->]]|[[Hpos _]|[_ Hd]]].
  - cbn. lra.
  - exfalso. lra.
  - destruct (rounded_even_shape _ _ _ Hd) as [->|[(m' & e' & ->)| ->]].
    + cbn. lra.
    + pose proof (mul_rounded false mp ep true m' e') as Hm. cbn [xorb] in Hm.
      unfold mul.
      destruct (rounded_shape _ _ _ Hm) as [->|[(m2 & e2 & ->)| ->]].
      * cbn. lra.
      * cbn [float_le FR cond_Zopp Z.opp]. rewrite F2R_neg.
        pose proof (F2R_pos m2 e2). lra.
      * exact I.
    + exact I.
Qed.

(** X7: for an integer population from 0 to [2^53], [logistic_growth]
    raises nothing; up to the carrying capacity its value lies between 0 and
    500, a quarter of the carrying capacity, and from the carrying capacity on
    it is at most 0. *)
Theorem logistic_growth_sign (population : Z) :
  0 <= population < 2 ^ 53 ->
  exists r,
    logistic_growth population = Ok r /\
    (population <= carrying_capacity ->
     float_leb (S754_zero false) r = true /\ float_leb r (of_Z 500) = true) /\
    (carrying_capacity <= population -> float_leb r (S754_zero false) = true).
Proof.
  intros Hp. destruct (Z_le_gt_dec population carrying_capacity) as [Hle|Hgt].
  - pose proof (logistic_growth_table population ltac:(lia)) as Ht.
    destruct (logistic_growth population) as [r|] eqn:Hr; [|discriminate].
    apply andb_true_iff in Ht. exists r. split; [reflexivity|].
    split; [intros _; exact Ht|].
    intros Hge. assert (population = carrying_capacity) by lia. subst population.
    vm_compute in Hr. injection Hr as <-. reflexivity.
  - destruct (logistic_growth_beyond population ltac:(lia)) as (r & Hr & Hneg).
    exists r. split; [exact Hr|]. split; [lia|].
    intros _. apply float_leb_le. exact Hneg.
Qed.

Lemma logistic_growth_sign_witness :
  logistic_growth 1000 = Ok (of_Z 500) /\
  logistic_growth carrying_capacity = Ok (S754_zero false) /\
  float_leb (of_Z 500) (of_Z 500) = true.
Proof.
  destruct (logistic_growth_sign 1000 ltac:(lia)) as (r & Hr & Hin & _).
  assert (H1000 : logistic_growth 1000 = Ok (of_Z 500)) by (vm_compute; reflexivity).
  rewrite H1000 in Hr. injection Hr as <-.
  split; [exact H1000|]. split; [vm_compute; reflexivity|].
  exact (proj2 (Hin ltac:(unfold carrying_capacity; lia))).
Defined.

(** ** The animation *)

Lemma float_le_refl (x : float) : x <> S754_nan -> float_le x x.
Proof.
  destruct x as [s|[|]| |s m e]; intros H; try contradiction; cbn [float_le];
    try exact I; lra.
Qed.

Lemma float_le_total (x y : float) :
  x <> S754_nan -> y <> S754_nan -> float_le x y \/ float_le y x.
Proof.
  destruct x as [sx|[|]| |sx mx ex], y as [sy|[|]| |sy my ey]; intros Hx Hy;
    try contradiction; cbn [float_le]; auto;
    match goal with
    | |- (?a <= ?b)%R \/ _ => destruct (Rle_or_lt a b); [left; assumption|right; lra]
    end.
Qed.

Lemma float_le_trans (x y z : float) : float_le x y -> float_le y z -> float_le x z.
Proof.
  destruct x as [sx|[|]| |sx mx ex], y as [sy|[|]| |sy my ey],
           z as [sz|[|]| |sz mz ez];
    cbn [float_le]; intros H1 H2; try contradiction; try exact I; lra.
Qed.

Lemma float_ltb_le (x y : float) : float_ltb x y = true -> float_le x y.
Proof.
  unfold float_ltb. intros H. apply andb_true_iff in H. apply float_leb_le, H.
Qed.

Lemma float_ltb_ge (x y : float) :
  x <> S754_nan -> y <> S754_nan -> float_ltb x y = false -> float_le y x.
Proof.
  unfold float_ltb. intros Hx Hy H. apply andb_false_iff in H.
  destruct H as [H|H].
  - destruct (float_le_total x y Hx Hy) as [Hle|Hge]; [|exact Hge].
    apply float_leb_le in Hle. congruence.
  - apply negb_false_iff in H. apply float_leb_le, H.
Qed.

Lemma fold_min_spec (rest : list float) : forall x,
  x <> S754_nan -> Forall (fun t => t <> S754_nan) rest ->
  let lo := fold_left (fun m item => if float_ltb item m then item else m) rest x in
  lo <> S754_nan /\ float_le lo x /\ Forall (float_le lo) rest.
Proof.
  induction rest as [|item rest IH]; intros x Hx Hrest; cbn [fold_left].
  - split; [exact Hx|]. split; [apply float_le_refl; exact Hx|constructor].
  - inversion Hrest as [|t l Hitem Hl]; subst.
    set (x' := if float_ltb item x then item else x).
    assert (Hx' : x' <> S754_nan /\ float_le x' x /\ float_le x' item).
    { unfold x'. destruct (float_ltb item x) eqn:Hlt.
      - split; [exact Hitem|]. split; [apply float_ltb_le; exact Hlt|].
        apply float_le_refl; exact Hitem.
      - split; [exact Hx|]. split; [apply float_le_refl; exact Hx|].
        apply float_ltb_ge; assumption. }
    destruct Hx' as (Hn & Hxx & Hxi).
    destruct (IH x' Hn Hl) as (Hlo & Hle & Hall).
    split; [exact Hlo|]. split; [exact (float_le_trans _ _ _ Hle Hxx)|].
    constructor; [exact (float_le_trans _ _ _ Hle Hxi)|exact Hall].
Qed.

Lemma fold_max_spec (rest : list float) : forall x,
  x <> S754_nan -> Forall (fun t => t <> S754_nan) rest ->
  let hi := fold_left (fun m item => if float_ltb m item then item else m) rest x in
  hi <> S754_nan /\ float_le x hi /\ Forall (fun t => float_le t hi) rest.
Proof.
  induction rest as [|item rest IH]; intros x Hx Hrest; cbn [fold_left].
  - split; [exact Hx|]. split; [apply float_le_refl; exact Hx|constructor].
  - inversion Hrest as [|t l Hitem Hl]; subst.
    set (x' := if float_ltb x item then item else x).
    assert (Hx' : x' <> S754_nan /\ float_le x x' /\ float_le item x').
    { unfold x'. destruct (float_ltb x item) eqn:Hlt.
      - split; [exact Hitem|]. split; [apply float_ltb_le; exact Hlt|].
        apply float_le_refl; exact Hitem.
      - split; [exact Hx|]. split; [apply float_le_refl; exact Hx|].
        apply float_ltb_ge; assumption. }
    destruct Hx' as (Hn & Hxx & Hxi).
    destruct (IH x' Hn Hl) as (Hhi & Hle & Hall).
    split; [exact Hhi|]. split; [exact (float_le_trans _ _ _ Hxx Hle)|].
    constructor; [exact (float_le_trans _ _ _ Hxi Hle)|exact Hall].
Qed.

Lemma py_min_spec (l : list float) (lo : float) :
  Forall (fun t => t <> S754_nan) l -> py_min l = Ok lo ->
  forall t, In t l -> float_leb lo t = true.
Proof.
  destruct l as [|x rest]; [discriminate|]. intros Hl [= <-] t Ht.
  inversion Hl as [|y l' Hx Hrest]; subst.
  destruct (fold_min_spec rest x Hx Hrest) as (_ & Hle & Hall).
  apply float_leb_le. destruct Ht as [<-|Ht]; [exact Hle|].
  rewrite Forall_forall in Hall. apply Hall, Ht.
Qed.

Lemma py_max_spec (l : list float) (hi : float) :
  Forall (fun t => t <> S754_nan) l -> py_max l = Ok hi ->
  forall t, In t l -> float_leb t hi = true.
Proof.
  destruct l as [|x rest]; [discriminate|]. intros Hl [= <-] t Ht.
  inversion Hl as [|y l' Hx Hrest]; subst.
  destruct (fold_max_spec rest x Hx Hrest) as (_ & Hle & Hall).
  apply float_leb_le. destruct Ht as [<-|Ht]; [exact Hle|].
  rewrite Forall_forall in Hall. apply Hall, Ht.
Qed.

(** The sequences that [simulate_population] returns, as [animate_scenario]
    receives them. *)
Lemma simulate_population_shape np_exp temp_range cooling temps ms fs tot :
  simulate_population np_exp temp_range cooling = Ok (temps, ms, fs, tot) ->
  temps = firstn (length ms) temp_range /\
  length fs = length ms /\ length tot = length ms /\
  (1 <= length ms)%nat /\ (length temps <= length ms)%nat /\
  (temp_range = [] <-> temps = []).
Proof.
  intros Hrun.
  destruct (simulate_population_state _ _ _ _ _ _ _ Hrun)
    as (st & Hloop & Hms & Hfs & Htot & _ & _).
  destruct (loop_records _ _ _ _ _ initial_state_synced Hloop)
    as ((Hlf & Hlt & _ & _) & _).
  destruct (loop_extends _ _ _ _ _ Hloop) as (em & _ & _ & Hm & _ & _).
  rewrite Hms, Hfs, Htot in *.
  assert (Hlen : (1 <= length ms)%nat) by (rewrite Hm; cbn; lia).
  assert (Htemps : temps = firstn (length ms) temp_range).
  { revert Hrun. unfold simulate_population. rewrite Hloop. cbn [bind].
    rewrite Hms. intros [= <-]. reflexivity. }
  split; [exact Htemps|]. split; [exact Hlf|]. split; [exact Hlt|].
  split; [exact Hlen|]. split; [rewrite Htemps, length_firstn; lia|].
  rewrite Htemps. split.
  - intros ->. apply firstn_nil.
  - destruct temp_range as [|t l]; [reflexivity|].
    destruct (length ms); [lia|discriminate].
Qed.

(** [min] and [max] return an item of the sequence. *)
Lemma fold_choice_in (choose : float -> float -> bool) (rest : list float) : forall x,
  In (fold_left (fun m item => if choose m item then item else m) rest x) (x :: rest).
Proof.
  induction rest as [|item rest IH]; intros x; cbn [fold_left]; [left; reflexivity|].
  destruct (IH (if choose x item then item else x)) as [H|H].
  - rewrite <- H. destruct (choose x item); [right; left|left]; reflexivity.
  - right. right. exact H.
Qed.

Lemma py_min_in (l : list float) (lo : float) : py_min l = Ok lo -> In lo l.
Proof.
  destruct l as [|x rest]; [discriminate|]. intros [= <-].
  exact (fold_choice_in (fun m item => float_ltb item m) rest x).
Qed.

Lemma py_max_in (l : list float) (hi : float) : py_max l = Ok hi -> In hi l.
Proof.
  destruct l as [|x rest]; [discriminate|]. intros [= <-].
  exact (fold_choice_in (fun m item => float_ltb m item) rest x).
Qed.

(** X8: on the sequences of a run, [animate_scenario] raises [ValueError]
    when the schedule was empty (from [min] of an empty sequence), and when
    the returned temperatures, all of them numbers, hold an infinite one
    (from [set_xlim], which is given it as a limit). *)
Theorem animate_scenario_raises (np_exp : float -> float)
    (temp_range : list float) (cooling : bool)
    (temps : list float) (male_counts female_counts total_population : list Z)
    (title color_male color_female color_total : String.string) :
  simulate_population np_exp temp_range cooling =
    Ok (temps, male_counts, female_counts, total_population) ->
  (temp_range = [] ->
   animate_scenario temps male_counts female_counts total_population
     title color_male color_female color_total = Raise ValueError) /\
  (Forall (fun t => t <> S754_nan) temps ->
   Exists (fun t => isfinite t = false) temps ->
   animate_scenario temps male_counts female_counts total_population
     title color_male color_female color_total = Raise ValueError).
Proof.
  intros Hrun.
  destruct (simulate_population_shape _ _ _ _ _ _ _ Hrun) as (_ & _ & _ & _ & _ & Hiff).
  split.
  - intros He. apply Hiff in He. subst temps. reflexivity.
  - intros Hnum Hinf. apply Exists_exists in Hinf. destruct Hinf as (t & Ht & Hfin).
    unfold animate_scenario.
    destruct (py_min temps) as [lo|e] eqn:Hlo;
      [|destruct temps; [contradiction|discriminate]].
    destruct (py_max temps) as [hi|e] eqn:Hhi;
      [|destruct temps; [contradiction|discriminate]].
    cbn [bind]. unfold set_xlim.
    pose proof (py_min_spec temps lo Hnum Hlo t Ht) as H1.
    pose proof (py_max_spec temps hi Hnum Hhi t Ht) as H2.
    rewrite Forall_forall in Hnum. specialize (Hnum t Ht).
    destruct t as [s|[|]| |s m e]; try discriminate; try congruence.
    + destruct lo as [s|[|]| |s m e]; try discriminate. reflexivity.
    + destruct hi as [s|[|]| |s m e]; try discriminate.
      cbn [isfinite]. rewrite andb_false_r. reflexivity.
Qed.

Lemma animate_scenario_raises_witness :
  animate_scenario [S754_infinity false] [250; 19] [250; 1980] [500; 1999]
    "Warming Scenario: Turtle Population vs. Temperature"%string
    "b-"%string "r-"%string "g-"%string = Raise ValueError.
Proof.
  assert (Hrun : simulate_population exp_ref [S754_infinity false] false =
                 Ok ([S754_infinity false], [250; 19], [250; 1980], [500; 1999]))
    by (vm_compute; reflexivity).
  exact (proj2 (animate_scenario_raises exp_ref _ false _ _ _ _ _ _ _ _ Hrun)
           ltac:(repeat constructor; discriminate)
           ltac:(left; reflexivity)).
Defined.

Lemma nth_error_map_seq {A} (f : nat -> A) (n i : nat) :
  (i < n)%nat -> nth_error (map f (seq 0 n)) i = Some (f i).
Proof.
  intros Hi. rewrite nth_error_map, nth_error_seq.
  replace (i <? n)%nat with true by (symmetry; apply Nat.ltb_lt; exact Hi).
  reflexivity.
Qed.

(** X9: the animation of a run has one frame for each returned temperature;
    frame [i] gives each line the first [i] temperatures against the first
    [i] counts, sequences of one length, and [i] is less than the number of
    recorded states: the last recorded state is in no frame. *)
Theorem animation_frames (np_exp : float -> float)
    (temp_range : list float) (cooling : bool)
    (temps : list float) (male_counts female_counts total_population : list Z)
    (title color_male color_female color_total : String.string) (a : animation) :
  simulate_population np_exp temp_range cooling =
    Ok (temps, male_counts, female_counts, total_population) ->
  animate_scenario temps male_counts female_counts total_population
    title color_male color_female color_total = Ok a ->
  length (frames a) = length temps /\
  forall i, (i < length temps)%nat ->
    nth_error (frames a) i =
      Some {| line_males := (firstn i temps, firstn i male_counts);
              line_females := (firstn i temps, firstn i female_counts);
              line_total := (firstn i temps, firstn i total_population) |} /\
    length (firstn i temps) = i /\
    length (firstn i male_counts) = i /\
    length (firstn i female_counts) = i /\
    length (firstn i total_population) = i /\
    (i < length male_counts)%nat.
Proof.
  intros Hrun Hani.
  destruct (simulate_population_shape _ _ _ _ _ _ _ Hrun)
    as (_ & Hlf & Hlt & _ & Hle & _).
  unfold animate_scenario in Hani.
  destruct (py_min temps) as [lo|]; cbn [bind] in Hani; [|discriminate].
  destruct (py_max temps) as [hi|]; cbn [bind] in Hani; [|discriminate].
  destruct (set_xlim lo hi) as [lim|]; cbn [bind] in Hani; [|discriminate].
  injection Hani as <-. cbn [frames].
  split; [rewrite length_map, length_seq; reflexivity|].
  intros i Hi. split; [apply (nth_error_map_seq (update temps _ _ _)); exact Hi|].
  rewrite !length_firstn. lia.
Qed.

Lemma animation_frames_witness :
  exists a,
    animate_scenario [of_Z 29] [250; 998] [250; 1001] [500; 1999]
      "Warming Scenario: Turtle Population vs. Temperature"%string
      "b-"%string "r-"%string "g-"%string = Ok a /\
    length (frames a) = 1%nat /\
    nth_error (frames a) 0 =
      Some {| line_males := ([], []); line_females := ([], []);
              line_total := ([], []) |}.
Proof.
  assert (Hrun : simulate_population exp_ref [of_Z 29] false =
                 Ok ([of_Z 29], [250; 998], [250; 1001], [500; 1999]))
    by (vm_compute; reflexivity).
  eexists. split; [vm_compute; reflexivity|].
  match goal with
  | |- length (frames ?a) = _ /\ _ =>
      destruct (animation_frames exp_ref _ _ _ _ _ _
                  "Warming Scenario: Turtle Population vs. Temperature"%string
                  "b-"%string "r-"%string "g-"%string a Hrun
                  ltac:(vm_compute; reflexivity)) as [Hlen Hframe]
  end.
  split; [exact Hlen|exact (proj1 (Hframe 0%nat ltac:(cbn; lia)))].
Defined.

(** X10: every point of the animation of a run lies within the axis limits:
    each recorded count, and each recorded total, is at least the lower
    y-limit 0 and below the upper y-limit, the carrying capacity plus 100; and
    on a schedule of numbers each returned temperature lies between the two
    x-limits.  ([np.exp] is taken to return a number that is not negative, or
    no number.) *)
Theorem animation_limits (np_exp : float -> float)
    (temp_range : list float) (cooling : bool)
    (temps : list float) (male_counts female_counts total_population : list Z)
    (title color_male color_female color_total : String.string) (a : animation) :
  exp_range np_exp ->
  Forall (fun t => t <> S754_nan) temp_range ->
  simulate_population np_exp temp_range cooling =
    Ok (temps, male_counts, female_counts, total_population) ->
  animate_scenario temps male_counts female_counts total_population
    title color_male color_female color_total = Ok a ->
  ylim a = (0, carrying_capacity + 100) /\
  (forall i, (i < length male_counts)%nat ->
     fst (ylim a) <= nth i male_counts 0 < snd (ylim a) /\
     fst (ylim a) <= nth i female_counts 0 < snd (ylim a) /\
     fst (ylim a) <= nth i total_population 0 < snd (ylim a)) /\
  (forall t, In t temps ->
     float_leb (fst (xlim a)) t = true /\ float_leb t (snd (xlim a)) = true).
Proof.
  intros Hexp Htemps Hrun Hani.
  destruct (simulate_population_shape _ _ _ _ _ _ _ Hrun)
    as (Hfirst & Hlf & Hlt & _ & _ & _).
  assert (Hnum : Forall (fun t => t <> S754_nan) temps).
  { rewrite Forall_forall in *. intros t Ht. apply Htemps.
    rewrite Hfirst in Ht. rewrite <- (firstn_skipn (length male_counts) temp_range).
    apply in_or_app. left. exact Ht. }
  unfold animate_scenario in Hani.
  destruct (py_min temps) as [lo|] eqn:Hlo; cbn [bind] in Hani; [|discriminate].
  destruct (py_max temps) as [hi|] eqn:Hhi; cbn [bind] in Hani; [|discriminate].
  unfold set_xlim in Hani.
  destruct (isfinite lo && isfinite hi); cbn [bind] in Hani; [|discriminate].
  injection Hani as <-. cbn [ylim xlim fst snd].
  split; [reflexivity|]. split.
  - intros i Hi.
    destruct (simulate_population_viable _ _ _ _ _ _ _ i Hexp Hrun Hi)
      as (H1 & H2 & H3 & _).
    destruct (simulate_population_state _ _ _ _ _ _ _ Hrun)
      as (st & Hloop & Hms & Hfs & Htot & _ & _).
    pose proof (loop_sums np_exp cooling temp_range initial_state st eq_refl eq_refl Hloop)
      as Hsum.
    rewrite Hms, Hfs, Htot in Hsum.
    assert (Hti : nth i total_population 0 = nth i male_counts 0 + nth i female_counts 0).
    { rewrite Hsum.
      rewrite (nth_indep _ 0 (fst (0, 0) + snd (0, 0)))
        by (rewrite length_map, length_combine; lia).
      rewrite (map_nth (fun p => fst p + snd p)), combine_nth by exact (eq_sym Hlf).
      reflexivity. }
    rewrite Hti. unfold carrying_capacity in *. lia.
  - intros t Ht.
    split; [exact (py_min_spec temps lo Hnum Hlo t Ht)
           |exact (py_max_spec temps hi Hnum Hhi t Ht)].
Qed.

Lemma animation_limits_witness :
  exists a,
    animate_scenario [of_Z 29; of_Z 31] [250; 998; 546] [250; 1001; 1453]
      [500; 1999; 1999]
      "Warming Scenario: Turtle Population vs. Temperature"%string
      "b-"%string "r-"%string "g-"%string = Ok a /\
    xlim a = (of_Z 29, of_Z 31) /\
    ylim a = (0, 2100) /\
    float_leb (fst (xlim a)) (of_Z 31) = true /\
    fst (ylim a) <= 1453 < snd (ylim a).
Proof.
  assert (Hrun : simulate_population exp_ref [of_Z 29; of_Z 31] false =
                 Ok ([of_Z 29; of_Z 31], [250; 998; 546], [250; 1001; 1453],
                     [500; 1999; 1999]))
    by (vm_compute; reflexivity).
  eexists. split; [vm_compute; reflexivity|].
  match goal with
  | |- xlim ?a = _ /\ _ =>
      destruct (animation_limits exp_ref [of_Z 29; of_Z 31] false _ _ _ _
                  "Warming Scenario: Turtle Population vs. Temperature"%string
                  "b-"%string "r-"%string "g-"%string a exp_ref_range
                  ltac:(repeat constructor; discriminate) Hrun
                  ltac:(vm_compute; reflexivity)) as (Hy & Hcounts & Hx)
  end.
  split; [reflexivity|]. split; [exact Hy|].
  split; [exact (proj1 (Hx (of_Z 31) ltac:(right; left; reflexivity)))|].
  exact (proj1 (proj2 (Hcounts 2%nat ltac:(cbn; lia)))).
Defined.

(** ** The sex split keeps the hatchlings *)

(** X11: the split of the surviving hatchlings into males and females, with
    the male ratio [1 - female_ratio], creates no hatchling and loses at most
    two: for a female ratio in the unit interval the two counts are not
    negative and add up to [80 * min(mature_females, males)], or to one or
    two less. *)
Theorem reproduction_conserves (mature_females males : Z) (female_ratio : float) :
  0 <= mature_females -> 0 <= males <= carrying_capacity ->
  unit_float female_ratio ->
  exists new_males new_females,
    reproduction mature_females males female_ratio (of_Z 1 - female_ratio)%fl =
      Ok (new_males, new_females) /\
    0 <= new_males /\ 0 <= new_females /\
    80 * Z.min mature_females males - 2 <= new_males + new_females
      <= 80 * Z.min mature_females males.
Proof.
  intros Hmf Hm (v & Hfin & Hv). unfold reproduction.
  rewrite survivors_table by lia. cbn [bind].
  set (s := 80 * Z.min mature_females males).
  assert (Hs : 0 <= s <= 160000) by (unfold s, carrying_capacity in *; lia).
  destruct (one_minus_near _ _ Hfin Hv) as (u & Hu & Hu01 & Hub).
  destruct (int_of_product_near s _ u Hs Hu Hu01) as (km & -> & Hkm0 & Hkm).
  destruct (int_of_product_near s _ v Hs Hfin Hv) as (kf & -> & Hkf0 & Hkf).
  cbn [bind]. exists km, kf. split; [reflexivity|]. split; [exact Hkm0|].
  split; [exact Hkf0|].
  assert (Hsr : (0 <= IZR s <= 160000)%R) by (split; apply IZR_le; lia).
  assert (Hup : (IZR s * u <= IZR s * (1 - v + / 18014398509481984))%R)
    by (apply Rmult_le_compat_l; lra).
  assert (Hlo : (IZR s * (1 - v - / 18014398509481984) <= IZR s * u)%R)
    by (apply Rmult_le_compat_l; lra).
  assert (Heps : (0 <= IZR s * / 18014398509481984 <= / 68719476736)%R) by lra.
  assert (Hsum : (IZR s - 3 < IZR km + IZR kf < IZR s + 1)%R) by lra.
  rewrite <- plus_IZR, <- (minus_IZR s 3), <- (plus_IZR s 1) in Hsum.
  destruct Hsum as [H1 H2]. apply lt_IZR in H1, H2. lia.
Qed.

Lemma unit_float_half : unit_float (decimal 5 10).
Proof.
  exists (/ 2)%R. split; [|lra]. right.
  exists 4503599627370496%positive, (-53). split; [reflexivity|apply F2R_half].
Qed.

Lemma reproduction_conserves_witness :
  exists new_males new_females,
    reproduction 250 250 (decimal 5 10) (of_Z 1 - decimal 5 10)%fl =
      Ok (new_males, new_females) /\
    20000 - 2 <= new_males + new_females <= 20000.
Proof.
  destruct (reproduction_conserves 250 250 (decimal 5 10) ltac:(lia)
              ltac:(unfold carrying_capacity; lia) unit_float_half)
    as (nm & nf & H & _ & _ & Hsum).
  exists nm, nf. split; [exact H|exact Hsum].
Defined.

(** ** Which sex the hatchlings favour *)

(** [float(n)] has a mantissa of 53 bits. *)
Lemma of_Z_canonical (n : Z) :
  0 < n < 2 ^ 53 ->
  exists m e, of_Z n = S754_finite false m e /\ 2 ^ 52 <= Zpos m /\
              F2R (Zpos m) e = IZR n.
Proof.
  intros Hn. destruct n as [|p|p]; try lia.
  unfold of_Z. cbn [binary_normalize]. unfold binary_round.
  pose proof (F2R_shl_align p 0 (SpecFloat.fexp prec emax (Zpos (digits2_pos p) + 0))) as Hv.
  destruct (shl_align_spec p 0 (SpecFloat.fexp prec emax (Zpos (digits2_pos p) + 0)))
    as [He Hmz].
  destruct (shl_align p 0 (SpecFloat.fexp prec emax (Zpos (digits2_pos p) + 0)))
    as [mz ez]. cbn [fst snd] in Hv, He, Hmz.
  change (SpecFloat.fexp prec emax (Zpos (digits2_pos p) + 0))
    with (fexp (Zdigits2 (Zpos p) + 0)) in He, Hmz.
  pose proof (Zdigits2_bounds p) as [Hd1 Hd2].
  set (d := Zdigits2 (Zpos p)) in *.
  assert (Hd : 1 <= d <= 53).
  { split; [unfold d; simpl; lia|]. apply Zdigits2_le_of_lt; lia. }
  assert (Hez : ez = d - 53) by (rewrite He, fexp_eq; lia).
  assert (Hm52 : 2 ^ 52 <= Zpos mz < 2 ^ 53).
  { rewrite Hmz, <- He, Hez.
    replace (0 - (d - 53)) with (53 - d) by lia.
    assert (Hpow : 2 ^ (d - 1) * 2 ^ (53 - d) = 2 ^ 52)
      by (rewrite <- Z.pow_add_r by lia; f_equal; lia).
    assert (Hpow' : 2 ^ d * 2 ^ (53 - d) = 2 ^ 53)
      by (rewrite <- Z.pow_add_r by lia; f_equal; lia).
    assert (0 < 2 ^ (53 - d)) by (apply Z.pow_pos_nonneg; lia).
    split; [rewrite <- Hpow; apply Z.mul_le_mono_nonneg_r; lia|].
    rewrite <- Hpow'. apply Z.mul_lt_mono_pos_r; lia. }
  assert (Hdz : Zdigits2 (Zpos mz) = 53).
  { apply Z.le_antisymm; [apply Zdigits2_le_of_lt; lia|apply Zdigits2_ge; lia]. }
  exists mz, ez. split.
  - unfold binary_round_aux, shr_fexp. rewrite Hdz.
    fold (fexp (53 + ez)). rewrite fexp_eq.
    replace (Z.max (53 + ez - 53) (-1074) - ez) with 0 by lia.
    cbn [shr shr_record_of_loc shr_m loc_of_shr_record round_nearest_even].
    rewrite Hdz. fold (fexp (53 + ez)). rewrite fexp_eq.
    replace (Z.max (53 + ez - 53) (-1074) - ez) with 0 by lia.
    cbn [shr shr_record_of_loc shr_m].
    replace (ez <=? emax - prec) with true; [reflexivity|].
    symmetry. apply Z.leb_le. unfold emax, prec. lia.
  - split; [lia|]. rewrite Hv. unfold F2R. rewrite pow2_0. ring.
Qed.

(** A product with a count grows with the ratio. *)
Lemma int_of_product_mono (n : Z) (x y : float) :
  0 <= n < 2 ^ 53 -> unit_float x -> unit_float y -> float_le x y ->
  exists kx ky, int_of_product n x = Ok kx /\ int_of_product n y = Ok ky /\ kx <= ky.
Proof.
  intros Hn Hx Hy Hle.
  destruct (Z.eq_dec n 0) as [->|Hn0].
  { exists 0, 0. unfold int_of_product, int_mul_float.
    destruct Hx as (vx & [[-> _]|(mx & ex & -> & _)] & _),
             Hy as (vy & [[-> _]|(my & ey & -> & _)] & _); repeat split; lia. }
  destruct (of_Z_canonical n ltac:(lia)) as (mn & en & Hof & Hmn & Hvn).
  assert (Hnr : (0 < IZR n)%R) by (apply IZR_lt; lia).
  (* each product is rounded to nearest even *)
  assert (Hprod : forall z vz, finite_nonneg z vz -> (0 <= vz <= 1)%R ->
            exists w k, finite_nonneg (S754_finite false mn en * z)%fl w /\
                        int_of_product n z = Ok k /\ (IZR k <= w < IZR k + 1)%R /\
                        ((z = S754_zero false /\ (S754_finite false mn en * z)%fl = S754_zero false) \/
                         (exists mz ez, z = S754_finite false mz ez /\
                            rounded_even false (IZR n * F2R (Zpos mz) ez)
                              (S754_finite false mn en * z)%fl))).
  { intros z vz Hz Hvz. unfold int_of_product, int_mul_float, float_of_int.
    rewrite Hof. cbn [bind].
    destruct Hz as [[-> ->]|(mz & ez & -> & Hmz)].
    - exists 0%R, 0. split; [left; split; reflexivity|]. split; [reflexivity|].
      split; [lra|]. left. split; reflexivity.
    - pose proof (mul_rounded_even false mn en false mz ez) as Hr.
      assert (Hd : 53 <= Zdigits2 (Zpos (mn * mz))).
      { apply Zdigits2_ge; [lia|]. change (2 ^ (53 - 1)) with (2 ^ 52).
        rewrite Pos2Z.inj_mul. nia. }
      specialize (Hr ltac:(rewrite fexp_eq; lia)). cbn [xorb] in Hr.
      rewrite Hvn in Hr.
      assert (Hxn : (IZR n * F2R (Zpos mz) ez <= IZR n)%R) by (rewrite Hmz; nra).
      destruct (rounded_le_int _ _ n (rounded_even_rounded _ _ _ Hr) Hxn ltac:(lia))
        as (w & Hw & _).
      destruct (int_of_float_floor _ _ Hw) as (k & Hk & _ & Hkw).
      exists w, k. split; [exact Hw|]. split; [exact Hk|]. split; [exact Hkw|].
      right. exists mz, ez. split; [reflexivity|exact Hr]. }
  destruct Hx as (vx & Hfx & Hvx), Hy as (vy & Hfy & Hvy).
  destruct (Hprod x vx Hfx Hvx) as (wx & kx & Hwx & Hkx & Hfloorx & Hcx).
  destruct (Hprod y vy Hfy Hvy) as (wy & ky & Hwy & Hky & Hfloory & Hcy).
  exists kx, ky. split; [exact Hkx|]. split; [exact Hky|].
  assert (Hw : (wx <= wy)%R).
  { assert (Hfl : float_le (S754_finite false mn en * x)%fl (S754_finite false mn en * y)%fl).
    { destruct Hcx as [[-> Hzx]|(mx & ex & -> & Hrx)],
               Hcy as [[-> Hzy]|(my & ey & -> & Hry)].
      - cbn. lra.
      - rewrite Hzx. exact (rounded_even_ge_zero _ _ Hry).
      - exfalso. cbn [float_le FR cond_Zopp] in Hle. pose proof (F2R_pos mx ex). lra.
      - apply (rounded_even_mono false _ _ _ _) with (2 := Hrx) (3 := Hry).
        cbn [float_le FR cond_Zopp] in Hle. apply Rmult_le_compat_l; lra. }
    assert (Hval : forall z w, finite_nonneg z w -> FR z = w).
    { intros z w [[-> ->]|(m & e & -> & <-)]; reflexivity. }
    assert (Hfin : forall z w, finite_nonneg z w -> is_finite z).
    { intros z w [[-> _]|(m & e & -> & _)]; exact I. }
    pose proof (float_le_finite _ _ (Hfin _ _ Hwx) (Hfin _ _ Hwy) Hfl) as H.
    rewrite (Hval _ _ Hwx), (Hval _ _ Hwy) in H. exact H. }
  apply Z.lt_succ_r. apply lt_IZR. rewrite succ_IZR. lra.
Qed.

Lemma half_srounded : srounded (/ 2) (decimal 5 10).
Proof.
  right; left. split; [lra|]. rewrite <- F2R_half.
  exact (binary_round_rounded_even false 4503599627370496 (-53)).
Qed.

(** The male ratio against the female ratio, on either side of one half. *)
Lemma male_ratio_order (fr : float) :
  unit_float fr ->
  (float_le (decimal 5 10) fr -> float_le (of_Z 1 - fr)%fl fr) /\
  (float_le fr (decimal 5 10) -> float_le fr (of_Z 1 - fr)%fl).
Proof.
  intros (v & Hfin & Hv).
  assert (Hs : srounded (1 - v) (of_Z 1 - fr)%fl /\ FR fr = v).
  { rewrite of_Z_one. destruct Hfin as [[-> ->]|(m & e & -> & Hm)].
    - split; [|reflexivity]. right; left. split; [lra|].
      replace (1 - 0)%R with (F2R 4503599627370496 (-52)) by (rewrite F2R_one; ring).
      exact (binary_round_rounded_even false 4503599627370496 (-52)).
    - split; [|exact Hm].
      pose proof (sub_srounded false 4503599627370496 (-52) false m e) as H.
      cbn [FR cond_Zopp] in H. rewrite F2R_one, Hm in H. exact H. }
  destruct Hs as [Hs Hfr].
  assert (Hfinite : is_finite fr) by (destruct Hfin as [[-> _]|(m & e & -> & _)]; exact I).
  assert (Hhalf : FR (decimal 5 10) = (/ 2)%R) by (cbn [FR]; apply F2R_half).
  split; intros Hle.
  - pose proof (float_le_finite (decimal 5 10) fr I Hfinite Hle) as H.
    rewrite Hhalf, Hfr in H.
    apply (float_le_trans _ (decimal 5 10)); [|exact Hle].
    apply (srounded_mono (1 - v) (/ 2)); [lra|exact Hs|exact half_srounded].
  - pose proof (float_le_finite fr (decimal 5 10) Hfinite I Hle) as H.
    rewrite Hhalf, Hfr in H.
    apply (float_le_trans _ (decimal 5 10)); [exact Hle|].
    apply (srounded_mono (/ 2) (1 - v)); [lra|exact half_srounded|exact Hs].
Qed.

(** X12: which sex the hatchlings favour.  At a finite temperature at or
    above the pivotal one, where the exponential of the argument is at most
    1, the female ratio is at least one half and a generation has at least as
    many new females as new males; at or below the pivotal temperature, where
    the exponential is at least 1, it is the reverse.  ([np.exp] is taken to
    return 1 at -0.0 and, on a number, a number that is not negative.) *)
Theorem hatchlings_follow_temperature (np_exp : float -> float) (temp : float)
    (mature_females males : Z) :
  np_exp (S754_zero true) = of_Z 1 ->
  (forall x, x <> S754_nan -> nonneg_float (np_exp x)) ->
  is_finite temp -> 0 <= mature_females -> 0 <= males <= carrying_capacity ->
  exists new_males new_females,
    reproduction mature_females males
      (get_female_ratio np_exp temp (of_Z 29) (decimal 5 10))
      (of_Z 1 - get_female_ratio np_exp temp (of_Z 29) (decimal 5 10))%fl =
      Ok (new_males, new_females) /\
    (float_leb (of_Z 29) temp = true ->
     float_leb (np_exp (- decimal 5 10 * (temp - of_Z 29))%fl) (of_Z 1) = true ->
     float_leb (decimal 5 10)
       (get_female_ratio np_exp temp (of_Z 29) (decimal 5 10)) = true /\
     new_males <= new_females) /\
    (float_leb temp (of_Z 29) = true ->
     float_leb (of_Z 1) (np_exp (- decimal 5 10 * (temp - of_Z 29))%fl) = true ->
     float_leb (get_female_ratio np_exp temp (of_Z 29) (decimal 5 10))
       (decimal 5 10) = true /\
     new_females <= new_males).
Proof.
  intros Hzero Hnn Hfin Hmf Hm.
  set (fr := get_female_ratio np_exp temp (of_Z 29) (decimal 5 10)).
  assert (Hunit : unit_float fr).
  { unfold fr, get_female_ratio.
    apply recip_spec, add_one_spec, Hnn, exp_argument_not_nan.
    destruct temp; try contradiction; discriminate. }
  pose proof (one_minus_spec _ Hunit) as Hmunit.
  destruct (reproduction_ok mature_females males fr (of_Z 1 - fr)%fl Hmf Hm Hunit Hmunit)
    as (nm & nf & Hrep & _ & _).
  exists nm, nf. split; [exact Hrep|].
  assert (H29 : get_female_ratio np_exp (of_Z 29) (of_Z 29) (decimal 5 10) = decimal 5 10)
    by (apply female_ratio_at_pivot; exact Hzero).
  assert (Hs : 0 <= 80 * Z.min mature_females males < 2 ^ 53)
    by (unfold carrying_capacity in Hm; lia).
  destruct (male_ratio_order fr Hunit) as [Habove Hbelow].
  revert Hrep. unfold reproduction. rewrite survivors_table by lia. cbn [bind].
  intros Hrep. split.
  - intros Hle Hexp. apply float_leb_le in Hle, Hexp.
    destruct (female_ratio_monotone np_exp (of_Z 29) temp Hnn I Hfin Hle) as [_ Hmono].
    rewrite pivot_argument, Hzero, H29 in Hmono. specialize (Hmono Hexp).
    fold fr in Hmono. split; [apply float_leb_le; exact Hmono|].
    destruct (int_of_product_mono _ _ _ Hs Hmunit Hunit (Habove Hmono))
      as (km & kf & Hkm & Hkf & Hk).
    rewrite Hkm, Hkf in Hrep. cbn [bind] in Hrep. injection Hrep as <- <-. exact Hk.
  - intros Hle Hexp. apply float_leb_le in Hle, Hexp.
    destruct (female_ratio_monotone np_exp temp (of_Z 29) Hnn Hfin I Hle) as [_ Hmono].
    rewrite pivot_argument, Hzero, H29 in Hmono. specialize (Hmono Hexp).
    fold fr in Hmono. split; [apply float_leb_le; exact Hmono|].
    destruct (int_of_product_mono _ _ _ Hs Hunit Hmunit (Hbelow Hmono))
      as (kf & km & Hkf & Hkm & Hk).
    rewrite Hkm, Hkf in Hrep. cbn [bind] in Hrep. injection Hrep as <- <-. exact Hk.
Qed.

Lemma hatchlings_follow_temperature_witness :
  exists new_males new_females,
    reproduction 250 250
      (get_female_ratio exp_ref (of_Z 31) (of_Z 29) (decimal 5 10))
      (of_Z 1 - get_female_ratio exp_ref (of_Z 31) (of_Z 29) (decimal 5 10))%fl =
      Ok (new_males, new_females) /\
    new_males <= new_females.
Proof.
  destruct (hatchlings_follow_temperature exp_ref (of_Z 31) 250 250 eq_refl
              exp_ref_total I ltac:(lia) ltac:(unfold carrying_capacity; lia))
    as (nm & nf & Hrep & Habove & _).
  exists nm, nf. split; [exact Hrep|].
  exact (proj2 (Habove ltac:(vm_compute; reflexivity) ltac:(vm_compute; reflexivity))).
Defined.

(** ** Overflow in logistic growth *)

Lemma rounded_even_overflow sx x r :
  rounded_even sx x r -> (pow2 emax <= x)%R -> r = S754_infinity sx.
Proof.
  intros (g & M & Hg & HM & Hnear & _ & Hres) Hx.
  assert (Hgg : 1024 < g) by (apply pow2_lt_inv; unfold emax in Hx; lra).
  assert (HE : fexp g = g - 53) by (rewrite fexp_eq; lia).
  pose proof (pow2_pos (- fexp g)) as Hp. pose proof (pow2_pos (fexp g)) as Hp'.
  assert (H52 : (pow2 52 <= x * pow2 (- fexp g))%R).
  { replace 52 with (g - 1 + - fexp g) by lia. rewrite pow2_add.
    apply Rmult_le_compat_r; lra. }
  assert (HM52 : 2 ^ 52 <= M).
  { apply IZR_le_half. rewrite <- pow2_IZR by lia. lra. }
  assert (HV : (pow2 emax <= F2R M (fexp g))%R).
  { unfold F2R. apply IZR_le in HM52. rewrite <- pow2_IZR in HM52 by lia.
    pose proof (pow2_le emax (52 + fexp g) ltac:(unfold emax; lia)) as Hle.
    rewrite pow2_add in Hle.
    assert (pow2 52 * pow2 (fexp g) <= IZR M * pow2 (fexp g))%R
      by (apply Rmult_le_compat_r; lra).
    lra. }
  destruct Hres as [[HM0 _]|[(_ & m & e & _ & _ & Hlt)|(_ & Hr & _)]].
  - lia.
  - lra.
  - exact Hr.
Qed.

(** X13: [logistic_growth] raises [OverflowError] on a population whose
    quotient by the carrying capacity is beyond the floats: whenever the
    population is at least [2000 * 2^1024] in absolute value. *)
Theorem logistic_growth_overflow (population : Z) :
  carrying_capacity * 2 ^ 1024 <= Z.abs population ->
  logistic_growth population = Raise OverflowError.
Proof.
  unfold carrying_capacity. intros Hp. unfold logistic_growth, int_truediv, carrying_capacity.
  change (2000 =? 0) with false. cbv iota.
  assert (Hpow : 0 < 2 ^ 1024) by (apply Z.pow_pos_nonneg; lia).
  replace (population =? 0) with false by (symmetry; apply Z.eqb_neq; lia).
  change (2000 <? 0) with false. change (Z.abs 2000) with 2000.
  set (a := Z.abs population) in *.
  assert (Har : (2000 * pow2 1024 <= IZR a)%R).
  { rewrite (pow2_IZR 1024) by lia. rewrite <- mult_IZR. apply IZR_le. exact Hp. }
  assert (Hx : (F2R a 0 / F2R 2000 0 = IZR a / 2000)%R).
  { unfold F2R. rewrite pow2_0. field. }
  pose proof (pow2_pos 1024) as Hp1024.
  assert (Hbig : (pow2 emax <= IZR a / 2000)%R) by (unfold emax; lra).
  pose proof (div_core_rounded_even (xorb (population <? 0) false) a 0 2000 0
                ltac:(lia) ltac:(lia)) as Hr.
  rewrite Hx in Hr.
  specialize (Hr ltac:(pose proof (pow2_le (-1074) emax ltac:(unfold emax; lia)); lra)).
  destruct (SFdiv_core_binary prec emax a 0 2000 0) as [[q e] l].
  rewrite (rounded_even_overflow _ _ _ Hr Hbig). reflexivity.
Qed.

Lemma logistic_growth_overflow_witness :
  logistic_growth (carrying_capacity * 2 ^ 1024) = Raise OverflowError /\
  logistic_growth (- (carrying_capacity * 2 ^ 1024)) = Raise OverflowError.
Proof.
  split.
  - apply logistic_growth_overflow. vm_compute. discriminate.
  - apply logistic_growth_overflow. vm_compute. discriminate.
Defined.

(** ** The two scenarios *)

(** X14: what the scenario changes in mortality.  For counts within the
    carrying capacity both scenarios return; the cooling scenario leaves at
    least as many males as the warming one, [floor (9 m / 10)] against
    [floor (4 m / 5)], and at most as many females,
    [floor (19 floor (9 f / 10) / 20)] against [floor (9 f / 10)]. *)
Theorem scenario_mortality (m f : Z) :
  0 <= m <= carrying_capacity -> 0 <= f <= carrying_capacity ->
  exists males_warm females_warm males_cool females_cool,
    mortality false m f = Ok (males_warm, females_warm) /\
    mortality true m f = Ok (males_cool, females_cool) /\
    males_warm <= males_cool <= m /\
    females_cool <= females_warm <= f /\
    0 <= males_warm /\ 0 <= females_cool.
Proof.
  intros Hm Hf.
  rewrite (mortality_spec false m f Hm Hf), (mortality_spec true m f Hm Hf).
  do 4 eexists. split; [reflexivity|]. split; [reflexivity|].
  unfold carrying_capacity in *. lia.
Qed.

Lemma scenario_mortality_witness :
  exists males_warm females_warm males_cool females_cool,
    mortality false 250 250 = Ok (males_warm, females_warm) /\
    mortality true 250 250 = Ok (males_cool, females_cool) /\
    males_warm <= males_cool <= 250 /\
    females_cool <= females_warm <= 250.
Proof.
  destruct (scenario_mortality 250 250 ltac:(unfold carrying_capacity; lia)
              ltac:(unfold carrying_capacity; lia))
    as (mw & fw & mc & fc & H1 & H2 & H3 & H4 & _).
  exists mw, fw, mc, fc. auto.
Defined.

(** ** The script's own runs (lines 114-119, 183-195) *)

Lemma schedule_finite (l : list float) :
  forallb isfinite l = true -> Forall (fun t => isfinite t = true) l.
Proof. rewrite forallb_forall, Forall_forall. auto. Qed.

Lemma finite_number (l : list float) :
  Forall (fun t => isfinite t = true) l -> Forall (fun t => t <> S754_nan) l.
Proof.
  apply Forall_impl. intros t Ht ->. discriminate.
Qed.

Lemma module_schedules :
  exists warm cool,
    warming_temps = Ok warm /\ cooling_temps = Ok cool /\
    length warm = 60%nat /\ length cool = 50%nat /\
    Forall (fun t => isfinite t = true) warm /\
    Forall (fun t => isfinite t = true) cool.
Proof.
  assert (Hw : exists warm, warming_temps = Ok warm /\ length warm = 60%nat /\
             forallb isfinite warm = true).
  { vm_compute. eexists. split; [reflexivity|]. split; reflexivity. }
  assert (Hc : exists cool, cooling_temps = Ok cool /\ length cool = 50%nat /\
             forallb isfinite cool = true).
  { vm_compute. eexists. split; [reflexivity|]. split; reflexivity. }
  destruct Hw as (warm & Hw & Hlw & Hnw), Hc as (cool & Hc & Hlc & Hnc).
  exists warm, cool. repeat split; try assumption; apply schedule_finite; assumption.
Qed.

(** A run on a schedule of finite temperatures that is not empty returns
    sequences whose minimum and maximum [set_xlim] accepts. *)
Lemma run_and_limits np_exp (temp_range : list float) (cooling : bool) :
  exp_range np_exp -> (forall x, x <> S754_nan -> np_exp x <> S754_nan) ->
  Forall (fun t => isfinite t = true) temp_range -> temp_range <> [] ->
  exists temps ms fs tot lo hi,
    simulate_population np_exp temp_range cooling = Ok (temps, ms, fs, tot) /\
    py_min temps = Ok lo /\ py_max temps = Ok hi /\
    set_xlim lo hi = Ok (lo, hi).
Proof.
  intros Hexp Hnum Htemps Hne.
  destruct (loop_ok np_exp cooling temp_range initial_state Hexp Hnum
              (finite_number _ Htemps) initial_state_inv) as (st & Hloop).
  assert (Hrun : simulate_population np_exp temp_range cooling =
                 Ok (firstn (length (male_counts st)) temp_range,
                     male_counts st, female_counts st, total_population st)).
  { unfold simulate_population. rewrite Hloop. reflexivity. }
  destruct (simulate_population_shape _ _ _ _ _ _ _ Hrun) as (_ & _ & _ & _ & _ & Hiff).
  assert (Hsub : forall t, In t (firstn (length (male_counts st)) temp_range) ->
                           isfinite t = true).
  { intros t Ht. rewrite Forall_forall in Htemps. apply Htemps.
    rewrite <- (firstn_skipn (length (male_counts st)) temp_range).
    apply in_or_app. left. exact Ht. }
  destruct (firstn (length (male_counts st)) temp_range) as [|t l] eqn:Hfirst.
  - exfalso. apply Hne, Hiff. reflexivity.
  - destruct (py_min (t :: l)) as [lo|] eqn:Hlo; [|discriminate].
    destruct (py_max (t :: l)) as [hi|] eqn:Hhi; [|discriminate].
    exists (t :: l), (male_counts st), (female_counts st), (total_population st), lo, hi.
    split; [exact Hrun|]. split; [exact Hlo|]. split; [exact Hhi|].
    unfold set_xlim.
    rewrite (Hsub lo (py_min_in _ _ Hlo)), (Hsub hi (py_max_in _ _ Hhi)). reflexivity.
Qed.

(** X15: the script's own computations, up to the drawing, raise nothing.
    Its two schedules hold 60 and 50 temperatures, all finite; with an
    exponential that returns a number that is not negative on every number,
    both module-level runs return, and the temperatures they return have a
    minimum and a maximum that [set_xlim] accepts. *)
Theorem module_level_runs (np_exp : float -> float) :
  exp_range np_exp -> (forall x, x <> S754_nan -> np_exp x <> S754_nan) ->
  exists warm cool,
    warming_temps = Ok warm /\ cooling_temps = Ok cool /\
    length warm = 60%nat /\ length cool = 50%nat /\
    (exists temps ms fs tot lo hi,
       simulate_population np_exp warm false = Ok (temps, ms, fs, tot) /\
       py_min temps = Ok lo /\ py_max temps = Ok hi /\
       set_xlim lo hi = Ok (lo, hi)) /\
    (exists temps ms fs tot lo hi,
       simulate_population np_exp cool true = Ok (temps, ms, fs, tot) /\
       py_min temps = Ok lo /\ py_max temps = Ok hi /\
       set_xlim lo hi = Ok (lo, hi)).
Proof.
  intros Hexp Hnum.
  destruct module_schedules as (warm & cool & Hw & Hc & Hlw & Hlc & Hnw & Hnc).
  exists warm, cool. split; [exact Hw|]. split; [exact Hc|].
  split; [exact Hlw|]. split; [exact Hlc|]. split.
  - apply run_and_limits; try assumption. intros ->. discriminate.
  - apply run_and_limits; try assumption. intros ->. discriminate.
Qed.

Lemma module_level_runs_witness :
  exists warm cool,
    warming_temps = Ok warm /\ cooling_temps = Ok cool /\
    length warm = 60%nat /\ length cool = 50%nat /\
    (exists temps ms fs tot lo hi,
       simulate_population exp_ref warm false = Ok (temps, ms, fs, tot) /\
       py_min temps = Ok lo /\ py_max temps = Ok hi /\
       set_xlim lo hi = Ok (lo, hi)) /\
    (exists temps ms fs tot lo hi,
       simulate_population exp_ref cool true = Ok (temps, ms, fs, tot) /\
       py_min temps = Ok lo /\ py_max temps = Ok hi /\
       set_xlim lo hi = Ok (lo, hi)).
Proof.
  exact (module_level_runs exp_ref exp_ref_range exp_ref_not_nan).
Defined.
